(** * scvelo/tools/paga.py: velocity-directed graph abstraction

    A shallow embedding of [PAGA2.compute_transitions] and of the two graph
    helpers it calls ([get_igraph_from_adjacency], [get_sparse_from_igraph]),
    followed by the properties of its aggregation, normalisation, pruning
    and threshold stages. *)

From Stdlib Require Import QArith Qminmax Lqa ZArith Lia.
From stdpp Require Import base list strings gmap.

Open Scope Q_scope.

(** ** Values

    A float64 is a rational number, an infinity or NaN.  The counts of the
    coarse graph and the group sizes are integers.  Comparisons, [np.clip],
    [max] and [min] only compare and copy their arguments, so they are exact;
    the quotient and the difference below are the exact rational ones, and
    the square root is a parameter of the normaliser.  The integers of a
    numpy array are 64-bit and wrap around. *)

Inductive float64 : Type :=
  | Fin (q : Q)
  | PInf
  | NInf
  | NaN.

Inductive exn : Type :=
  | ValueError
  | KeyError.

Inductive result (A : Type) : Type :=
  | Ok (a : A)
  | Raise (e : exn).
Arguments Ok {A} a.
Arguments Raise {A} e.

#[global] Instance result_ret : MRet result := λ A a, Ok a.

#[global] Instance result_bind : MBind result := λ A B k r,
  match r with
  | Ok a => k a
  | Raise e => Raise e
  end.

Abbreviation matrix A := (list (list A)).

Definition Qltb (x y : Q) : bool := negb (Qle_bool y x).

(** [T[i, j]] on a dense array of each kind, with the zero of the kind for a
    position outside the array (the program only reads inside). *)
Definition get (T : matrix Q) (i j : nat) : Q :=
  default 0 (T !! i ≫= (.!! j)).

Definition getZ (M : matrix Z) (i j : nat) : Z :=
  default 0%Z (M !! i ≫= (.!! j)).

Definition getb (a : matrix bool) (u v : nat) : bool :=
  default false (a !! u ≫= (.!! v)).

(** The item at a position, if there is one. *)
Definition entry {A} (M : matrix A) (i j : nat) : option A :=
  M !! i ≫= (.!! j).

Definition square {A} (K : nat) (T : matrix A) : Prop :=
  length T = K ∧ Forall (λ r, length r = K) T.

Definition nonneg (T : matrix Q) : Prop :=
  Forall (Forall (λ x, 0 <= x)) T.

Definition sumZ (l : list Z) : Z := foldr Z.add 0%Z l.

(** What an int64 holds after an operation whose exact result is [z]. *)
Definition wrap64 (z : Z) : Z := ((z + 2 ^ 63) mod 2 ^ 64 - 2 ^ 63)%Z.

Definition sum_entries (M : matrix Z) : Z := sumZ (map sumZ M).

(** ** The graph helpers (paga.py, lines 16-53) *)

(** An igraph graph, as far as the program uses one: the number of
    vertices, the edge list and the edge attribute ['weight'], which a
    graph has or has not. *)
Record igraph : Type := {
  vcount : nat;
  is_directed : bool;
  get_edgelist : list (nat * nat);
  es_weight : option (list Z)
}.

(** [adjacency.nonzero()]: the positions of the non-zero entries, row by
    row. *)
Definition nonzero (adjacency : matrix bool) : list (nat * nat) :=
  u ← seq 0 (length adjacency);
  v ← seq 0 (length (default [] (adjacency !! u)));
  if getb adjacency u v then [(u, v)] else [].

(** [get_igraph_from_adjacency(adjacency, directed)] for a boolean
    adjacency: every edge gets the entry it comes from as its weight.  An
    undirected graph lists an edge with its smaller end first.  Without an
    edge the assignment of line 27 creates no attribute. *)
Definition get_igraph_from_adjacency (adjacency : matrix bool)
    (directed : bool) : igraph :=
  let st := nonzero adjacency in
  let weights := map (λ e, Z.b2z (getb adjacency e.1 e.2)) st in
  {| vcount := length adjacency;
     is_directed := directed;
     get_edgelist :=
       if directed then st
       else map (λ e, (e.1 `min` e.2, e.1 `max` e.2)%nat) st;
     es_weight := match st with [] => None | _ => Some weights end |}.

(** The sum of the data stored for position [p]. *)
Definition weight_at (edges : list (nat * nat)) (weights : list Z)
    (p : nat * nat) : Z :=
  sumZ (map snd (filter (λ ew, ew.1 = p) (zip edges weights))).

(** [csr_matrix((data, (row, col)), shape=(n, n))] as a dense array; data
    given for one position twice are added. *)
Definition csr_matrix (edges : list (nat * nat)) (weights : list Z)
    (n : nat) : matrix Z :=
  map (λ a, map (λ b, weight_at edges weights (a, b)) (seq 0 n)) (seq 0 n).

(** [graph.es['weight']], a KeyError when the graph has no such
    attribute. *)
Definition es_lookup (graph : igraph) : result (list Z) :=
  match es_weight graph with
  | Some weights => Ok weights
  | None => Raise KeyError
  end.

(** [get_sparse_from_igraph(graph, weight_attr)]; [weighted] says whether
    [weight_attr] is ['weight'] or [None]. *)
Definition get_sparse_from_igraph (graph : igraph) (weighted : bool)
    : result (matrix Z) :=
  let edges := get_edgelist graph in
  weights ← (if weighted then es_lookup graph
             else Ok (replicate (length edges) 1%Z));
  let '(edges, weights) :=
    if is_directed graph then (edges, weights)
    else (edges ++ map (λ e, (e.2, e.1)) edges, weights ++ weights) in
  let shape := vcount graph in
  mret (match edges with
        | [] => replicate shape (replicate shape 0%Z)
        | _ => csr_matrix edges weights shape
        end).

(** *** igraph.VertexClustering, as the library defines it

    [cluster_graph(combine_edges)] contracts the vertices of every cluster
    into one and then calls [simplify(combine_edges=combine_edges)], which
    removes loop edges and merges parallel edges.  Neither creates or
    removes an edge attribute. *)

(** The number of clusters of a membership vector. *)
Definition n_clusters (membership : list nat) : nat :=
  match membership with
  | [] => 0
  | _ => S (max_list membership)
  end.

(** [vc.sizes()] *)
Definition sizes (membership : list nat) : list nat :=
  map (λ c, length (filter (λ x, x = c) membership))
      (seq 0 (n_clusters membership)).

(** [contract_vertices(membership)]: every vertex is replaced by its
    cluster; the edges and their attributes stay. *)
Definition contract_vertices (g : igraph) (membership : list nat) : igraph :=
  let m u := default 0%nat (membership !! u) in
  {| vcount := n_clusters membership;
     is_directed := is_directed g;
     get_edgelist := map (λ e, (m e.1, m e.2)) (get_edgelist g);
     es_weight := es_weight g |}.

Definition all_pairs (n : nat) : list (nat * nat) :=
  a ← seq 0 n; b ← seq 0 n; [(a, b)].

(** [simplify(combine_edges='sum')] on a directed graph: loops are removed
    and the edges between one ordered pair of vertices become one edge that
    carries the sum of their weights. *)
Definition simplify (g : igraph) : igraph :=
  let pairs :=
    filter (λ p, p.1 ≠ p.2 ∧ p ∈ get_edgelist g) (all_pairs (vcount g)) in
  {| vcount := vcount g;
     is_directed := is_directed g;
     get_edgelist := pairs;
     es_weight :=
       (λ weights, map (weight_at (get_edgelist g) weights) pairs)
       <$> es_weight g |}.

(** [VertexClustering(g, membership).cluster_graph(combine_edges='sum')] *)
Definition cluster_graph (g : igraph) (membership : list nat) : igraph :=
  simplify (contract_vertices g membership).

(** ** compute_transitions: aggregation (paga.py, lines 80-100) *)

(** What the method reads from [self._adata] and [self._neighbors]. *)
Record adata : Type := {
  (** [uns[vkey]], the cell-to-cell velocity graph *)
  velocity_graph : matrix Q;
  (** [obs[groups].cat.categories] *)
  cats : list string;
  (** [obs[groups].cat.codes.values]: the group of each cell, as an index
      into [cats] *)
  codes : list nat;
  (** the categories of [obs['final_cells']], when the tests of lines 83
      and 85 hold *)
  final_cells : option (list string);
  (** [most_common_in_list(obs['root_cells'])], when the tests of lines 90
      and 92 hold *)
  root_cells : option string;
  (** [self._neighbors.n_neighbors], an integer that numpy takes as an
      int64 *)
  n_neighbors : Z
}.

(** [clusters.values[u]] *)
Definition cluster_of (a : adata) (u : nat) : option string :=
  codes a !! u ≫= (cats a !!.).

(** [clusters.values.isin(final_cells)[u]] *)
Definition is_final (a : adata) (u : nat) : bool :=
  match final_cells a, cluster_of a u with
  | Some fc, Some l => bool_decide (l ∈ fc)
  | _, _ => false
  end.

(** [(clusters.values == root)[v]] *)
Definition is_root (a : adata) (v : nat) : bool :=
  match root_cells a, cluster_of a v with
  | Some r, Some l => bool_decide (l = r)
  | _, _ => false
  end.

(** The strength cutoff of line 82: the float64 that [.1] denotes, a
    little above one tenth. *)
Definition cutoff : Q := 3602879701896397 # 36028797018963968.

(** [uns[vkey] > .1] *)
Definition above_cutoff (G : matrix Q) : matrix bool :=
  map (map (Qltb cutoff)) G.

(** [vgraph] after lines 82-95. *)
Definition vgraph (a : adata) : matrix bool :=
  let vgraph := above_cutoff (velocity_graph a) in
  let vgraph :=
    match final_cells a with
    | Some _ =>
        imap (λ u row, if is_final a u then map (λ _, false) row else row)
             vgraph
    | None => vgraph
    end in
  match root_cells a with
  | Some _ => map (imap (λ v b, if is_root a v then false else b)) vgraph
  | None => vgraph
  end.

(** [vc.sizes()] for the clustering of line 98. *)
Definition group_sizes (a : adata) : list nat := sizes (codes a).

(** [get_sparse_from_igraph(cg_full, weight_attr='weight')] of line 100,
    the aggregated graph. *)
Definition CoarseGraph (a : adata) : result (matrix Z) :=
  let g := get_igraph_from_adjacency (vgraph a) true in
  let cg_full := cluster_graph g (codes a) in
  get_sparse_from_igraph cg_full true.

(** The group of cell [u], as [contract_vertices] reads it. *)
Definition group_of (a : adata) (u : nat) : nat :=
  default 0%nat (codes a !! u).

(** The edges of [vgraph] that lead from group [i] to group [j]. *)
Definition crossing (a : adata) (i j : nat) : list (nat * nat) :=
  filter (λ e, (group_of a e.1, group_of a e.2) = (i, j)) (nonzero (vgraph a)).

(** The number of edges of [vgraph] from every group to every other
    group. *)
Definition coarse_counts (a : adata) : matrix Z :=
  let n := n_clusters (codes a) in
  map (λ i, map (λ j, if decide (i = j) then 0%Z
                      else Z.of_nat (length (crossing a i j)))
                (seq 0 n)) (seq 0 n).

(** The edges of [vgraph] that join two different groups. *)
Definition between_groups (a : adata) : list (nat * nat) :=
  filter (λ e, group_of a e.1 ≠ group_of a e.2) (nonzero (vgraph a)).

(** The checks of lines 74-78 and of the VertexClustering constructor. *)
Definition well_shaped (a : adata) : Prop :=
  square (length (codes a)) (velocity_graph a).

(** The same annotations around another velocity graph. *)
Definition with_graph (a : adata) (G : matrix Q) : adata :=
  {| velocity_graph := G;
     cats := cats a;
     codes := codes a;
     final_cells := final_cells a;
     root_cells := root_cells a;
     n_neighbors := n_neighbors a |}.

(** Two arrays with rows of the same lengths. *)
Definition same_shape {A} (G G' : matrix A) : Prop :=
  Forall2 (λ r r', length r = length r') G G'.

(** *** The aggregation in the words of the specification *)

(** The fine-graph edges: the entries of the velocity graph above the
    cutoff. *)
Definition fine_edges (G : matrix Q) : list (nat * nat) :=
  nonzero (above_cutoff G).

(** The sum of the weights of the fine-graph edges. *)
Definition fine_weight (G : matrix Q) : Q :=
  foldr Qplus 0 (map (λ e, get G e.1 e.2) (fine_edges G)).

(** ** compute_transitions: confidence (paga.py, lines 101-108) *)

(** [transitions - transitions.T] *)
Definition Flow (M : matrix Z) : matrix Z :=
  let n := length M in
  map (λ i, map (λ j, (getZ M i j - getZ M j i)%Z) (seq 0 n)) (seq 0 n).

(** [tocoo()] of a difference of sparse matrices: the entries that are not
    zero, row by row. *)
Definition tocoo (M : matrix Z) : list (nat * nat * Z) :=
  i ← seq 0 (length M);
  j ← seq 0 (length (default [] (M !! i)));
  if (getZ M i j =? 0)%Z then [] else [(i, j, getZ M i j)].

(** [total_n = n_neighbors * np.array(vc.sizes()) * 2], an int64 array:
    both products wrap around. *)
Definition total_n (a : adata) : list Z :=
  map (λ s, wrap64 (wrap64 (n_neighbors a * Z.of_nat s) * 2)) (group_sizes a).

(** [M[i, j] = x] *)
Definition set_entry {A} (M : matrix A) (i j : nat) (x : A) : matrix A :=
  alter (<[j := x]>) i M.

(** [x / y] for a finite [x]. *)
Definition np_divide (x : Q) (y : float64) : float64 :=
  match y with
  | Fin d =>
      if Qeq_bool d 0
      then if Qltb 0 x then PInf else if Qltb x 0 then NInf else NaN
      else Fin (x / d)
  | PInf | NInf => Fin 0
  | NaN => NaN
  end.

Section Normalizer.

(** The float64 square root of a positive integer. *)
Variable sqrt64 : Z → Q.

(** [np.sqrt(n)] for an integer [n]. *)
Definition np_sqrt (n : Z) : float64 :=
  if (n <? 0)%Z then NaN
  else if (n =? 0)%Z then Fin 0
  else Fin (sqrt64 n).

(** [reference = np.sqrt(total_n[i] * total_n[j])]; the product of the two
    int64 wraps around. *)
Definition reference (tn : list Z) (i j : nat) : float64 :=
  np_sqrt (wrap64 (default 0%Z (tn !! i) * default 0%Z (tn !! j))).

(** [0 if v < 0 else v / reference] *)
Definition conf_value (tn : list Z) (i j : nat) (v : Z) : float64 :=
  if (v <? 0)%Z then Fin 0 else np_divide (inject_Z v) (reference tn i j).

(** The body of the loop of lines 105-107. *)
Definition conf_step (tn : list Z) (C : matrix float64)
    (e : nat * nat * Z) : matrix float64 :=
  let '(i, j, v) := e in
  set_entry C i j (conf_value tn i j v).

(** Lines 101-108 on the aggregated graph and [total_n]. *)
Definition confidence (tn : list Z) (transitions : matrix Z)
    : matrix float64 :=
  let transitions := Flow transitions in
  let transitions_conf := map (map (λ v, Fin (inject_Z v))) transitions in
  fold_left (conf_step tn) (tocoo transitions) transitions_conf.

(** [transitions_conf] after line 108. *)
Definition transitions_conf (a : adata) : result (matrix float64) :=
  transitions ← CoarseGraph a;
  mret (confidence (total_n a) transitions).

End Normalizer.

(** [ExpectedTotal[i]] of the specification: the neighbor count times the
    size of group [i] times 2. *)
Definition ExpectedTotal (a : adata) (i : nat) : Z :=
  (n_neighbors a * Z.of_nat (default 0%nat (group_sizes a !! i)) * 2)%Z.

(** Every [total_n[i]] is an int64 whose product with any other is one
    too: 3037000499 is the largest integer whose square is an int64. *)
Definition no_overflow (a : adata) : Prop :=
  Forall (λ s, (0 ≤ n_neighbors a * Z.of_nat s * 2 ≤ 3037000499)%Z)
         (group_sizes a).

(** [x >= 0] on float64. *)
Definition f64_nonneg (x : float64) : Prop :=
  match x with
  | Fin q => 0 <= q
  | PInf => True
  | NInf | NaN => False
  end.

Definition is_finite (x : float64) : Prop :=
  match x with
  | Fin _ => True
  | _ => False
  end.

(** ** compute_transitions: domination pruning (paga.py, lines 110-117)

    [T = transitions_conf.A] is the dense array of the confidences; the
    stage is modelled on arrays of finite values. *)

Module Pruner.

(** [T[i] > 0] *)
Definition gt0 (row : list Q) : list bool := map (Qltb 0) row.

(** [a[idx]] for a boolean mask [idx]: the items of [a] at the positions
    where the mask is set. *)
Fixpoint mask_select {A} (idx : list bool) (a : list A) : list A :=
  match idx, a with
  | b :: idx', x :: a' =>
      if b then x :: mask_select idx' a' else mask_select idx' a'
  | _, _ => []
  end.

(** [np.clip(rows, None, caps[:, None])]: row number [n] of [rows] is cut
    from above at [caps[n]]. *)
Definition clip_rows (rows : matrix Q) (caps : list Q) : matrix Q :=
  zip_with (λ r c, map (λ x, Qmin x c) r) rows caps.

(** [a.max(0)]: the column-wise maximum of a 2-d array with at least one
    row. *)
Definition max0 (rows : matrix Q) : list Q :=
  match rows with
  | [] => []
  | r :: rs => fold_left (zip_with Qmax) rs r
  end.

(** [indirect = np.clip(T[idx], None, T[i][idx][:, None]).max(0)] *)
Definition indirect (T : matrix Q) (row : list Q) (idx : list bool) : list Q :=
  max0 (clip_rows (mask_select idx T) (mask_select idx row)).

(** [row[row < indirect] = 0] *)
Definition zero_where_lt (row ind : list Q) : list Q :=
  zip_with (λ x m, if Qltb x m then 0 else x) row ind.

(** The body of the loop, for one source row [i]. *)
Definition prune_row (T : matrix Q) (i : nat) : matrix Q :=
  let row := default [] (T !! i) in
  let idx := gt0 row in
  if existsb id idx
  then <[i := zero_where_lt row (indirect T row idx)]> T
  else T.

(** [for i in range(len(T)): ...], on the one array [T] that every
    iteration reads and writes. *)
Definition prune (T : matrix Q) : matrix Q :=
  fold_left prune_row (seq 0 (length T)) T.

(** The state of the array when iteration [i] starts. *)
Definition prune_upto (i : nat) (T : matrix Q) : matrix Q :=
  fold_left prune_row (seq 0 i) T.

(** *** The rule in the words of the specification

    [J] is the set of groups [j] with [T[i, j] > 0];
    [Indirect[k]] is the maximum over [j] in [J] of
    [min(T[j, k], T[i, j])]. *)

Definition J (T : matrix Q) (i : nat) : list nat :=
  filter (λ j, Qltb 0 (get T i j) = true) (seq 0 (length T)).

Definition Indirect (T : matrix Q) (i k : nat) : option Q :=
  match map (λ j, Qmin (get T j k) (get T i j)) (J T i) with
  | [] => None
  | m :: ms => Some (fold_left Qmax ms m)
  end.

(** Entry [(i, k)] decided by the rule from a matrix that is only read. *)
Definition rule_entry (T : matrix Q) (i k : nat) : Q :=
  match Indirect T i k with
  | None => get T i k
  | Some m => if Qltb (get T i k) m then 0 else get T i k
  end.

(** Every row decided from the matrix as it stood before the loop. *)
Definition prune_readonly (T : matrix Q) : matrix Q :=
  let K := length T in
  map (λ i, map (λ k, rule_entry T i k) (seq 0 K)) (seq 0 K).

(** The matrix that iteration [i] of the loop reads: the rows before [i]
    as the loop leaves them, the rows from [i] on as the loop found them. *)
Definition read_at (i : nat) (T : matrix Q) : matrix Q :=
  take i (prune T) ++ drop i T.

(** [i] has a direct edge to [j] whose two-hop path to [k] beats the
    direct edge from [i] to [k]. *)
Definition dominated (T : matrix Q) (i k : nat) : Prop :=
  ∃ j, (j < length T)%nat ∧ 0 < get T i j ∧
       get T i k < get T j k ∧ get T i k < get T i j.

End Pruner.

(** ** compute_transitions: threshold (paga.py, lines 120-125) *)

Module Threshold.

Definition square_b {A} (K : nat) (T : matrix A) : bool :=
  (length T =? K)%nat && forallb (λ r, (length r =? K)%nat) T.

(** [x / (x > 0)]: the entry itself where it is positive, 0/0 where it is
    zero, a negative number over zero elsewhere. *)
Definition div_by_positive (x : Q) : float64 :=
  if Qltb 0 x then Fin x else if Qltb x 0 then NInf else NaN.

(** [a <= b] on float64; false when either is NaN. *)
Definition f64_leb (a b : float64) : bool :=
  match a, b with
  | NaN, _ | _, NaN => false
  | NInf, _ | _, PInf => true
  | Fin x, Fin y => Qle_bool x y
  | _, _ => false
  end.

(** [np.fmax] and [np.fmin], which [np.nanmax] and [np.nanmin] reduce
    with: a NaN argument is ignored. *)
Definition fmax (a b : float64) : float64 :=
  match a, b with
  | NaN, _ => b
  | _, NaN => a
  | _, _ => if f64_leb a b then b else a
  end.

Definition fmin (a b : float64) : float64 :=
  match a, b with
  | NaN, _ => b
  | _, NaN => a
  | _, _ => if f64_leb a b then a else b
  end.

(** [np.nanmax(values, axis=0)]; an array without rows has nothing to
    reduce. *)
Definition nanmax_axis0 (values : matrix float64) : result (list float64) :=
  match values with
  | [] => Raise ValueError
  | r :: rs => Ok (fold_left (zip_with fmax) rs r)
  end.

(** [np.nanmin(a)] of a vector. *)
Definition nanmin (a : list float64) : result float64 :=
  match a with
  | [] => Raise ValueError
  | x :: xs => Ok (fold_left fmin xs x)
  end.

Definition eps : Q := 1 # 1000000.

(** [x - 1e-6] *)
Definition sub_eps (x : float64) : float64 :=
  match x with
  | Fin q => Fin (q - eps)
  | _ => x
  end.

(** [df.values] after [df = pd.DataFrame(T, index=cats, columns=cats)] and
    [df.pop(root)]. *)
Definition df_values (a : adata) (T : matrix Q) : result (matrix Q) :=
  if negb (square_b (length (cats a)) T) then Raise ValueError
  else
    match root_cells a with
    | None => Ok T
    | Some root =>
        match list_find (λ c, c = root) (cats a) with
        | Some (c, _) => Ok (map (delete c) T)
        | None => Raise KeyError
        end
    end.

(** [self.threshold] *)
Definition threshold (a : adata) (T : matrix Q) : result float64 :=
  values ← df_values a T;
  colmax ← nanmax_axis0 (map (map div_by_positive) values);
  m ← nanmin colmax;
  mret (sub_eps m).

(** Column [k] belongs to a group that is not the root. *)
Definition non_root (a : adata) (k : nat) : Prop :=
  (k < length (cats a))%nat ∧ cats a !! k ≠ root_cells a.

End Threshold.

Import Pruner Threshold.

(** ** compute_transitions: the velocity graph (paga.py, lines 64-78) *)

(** [adata.uns], as far as it holds sparse matrices, and the warnings
    logged so far. *)
Record uns_state : Type := {
  uns : gmap string (matrix Q);
  warnings : list string
}.

(** [vkey = self.vkey + '_graph'] *)
Definition graph_key (vkey : string) : string := vkey +:+ "_graph".

Definition legacy_key : string := "velocyto_transitions".

Definition legacy_warning : string :=
  "The key 'velocyto_transitions' has been changed to 'velocity_graph'.".

(** Lines 64-78: the velocity graph is looked up under [vkey], with the
    legacy key as a fallback that is copied to [vkey], and its shape is
    compared with [(n_obs, n_obs)].  The state is returned also when the
    method raises. *)
Definition find_graph (vkey : string) (n_obs : nat) (st : uns_state)
    : uns_state * result (matrix Q) :=
  let vkey := graph_key vkey in
  let '(st, found) :=
    match uns st !! vkey with
    | Some _ => (st, true)
    | None =>
        match uns st !! legacy_key with
        | Some G =>
            ({| uns := <[vkey := G]> (uns st);
                warnings := warnings st ++ [legacy_warning] |}, true)
        | None => (st, false)
        end
    end in
  if found
  then match uns st !! vkey with
       | Some G => (st, if square_b n_obs G then Ok G else Raise ValueError)
       | None => (st, Raise KeyError)
       end
  else (st, Raise ValueError).

(** ** compute_transitions: the outputs (paga.py, lines 111-118) *)

(** What igraph keeps of a graph: one weight for every edge when the graph
    has the attribute, and every edge between two of its vertices. *)
Definition valid_graph (g : igraph) : Prop :=
  (∀ weights, es_weight g = Some weights →
              length weights = length (get_edgelist g)) ∧
  ∀ e, e ∈ get_edgelist g → (e.1 < vcount g)%nat ∧ (e.2 < vcount g)%nat.

(** [x > 0] on float64. *)
Definition f64_positive (x : float64) : Prop :=
  match x with
  | Fin q => 0 < q
  | PInf => True
  | NInf | NaN => False
  end.

(** [transitions_conf.A], when every entry is finite. *)
Definition toarray (C : matrix float64) : option (matrix Q) :=
  mapM (mapM (λ x, match x with Fin q => Some q | _ => None end)) C.

(** [T] after the loop of lines 112-116, when every entry of
    [transitions_conf] is finite. *)
Definition pruned_confidence (sqrt64 : Z → Q) (a : adata)
    : result (option (matrix Q)) :=
  transitions_conf ← transitions_conf sqrt64 a;
  mret (prune <$> toarray transitions_conf).

(** [M.T] of a square array. *)
Definition transpose (M : matrix Q) : matrix Q :=
  let n := length M in
  map (λ j, map (λ i, get M i j) (seq 0 n)) (seq 0 n).

(** [self.transitions_confidence = csr_matrix(T).T] *)
Definition transitions_confidence (T : matrix Q) : matrix Q := transpose T.

(** ** Concrete inputs *)

(** A square root for the examples: the integer part of the real one. *)
Definition isqrt (n : Z) : Q := inject_Z (Z.sqrt n).

(** Four groups; row 0 loses its edge to group 2 before row 1 is looked
    at. *)
Definition ex_sequential : matrix Q :=
  [ [0; 0; 2 # 10; 5 # 10];
    [5 # 10; 0; 1 # 10; 0];
    [0; 0; 0; 0];
    [0; 0; 5 # 10; 0] ].

(** The domination example: edges 0 -> 1 (0.2), 0 -> 2 (0.05) and
    1 -> 2 (0.3). *)
Definition ex_domination : matrix Q :=
  [ [0; 2 # 10; 5 # 100];
    [0; 0; 3 # 10];
    [0; 0; 0] ].

(** The threshold example: edges 0 -> 1 (0.5), 1 -> 2 (0.3) and
    0 -> 2 (0.1). *)
Definition ex_threshold : matrix Q :=
  [ [0; 5 # 10; 1 # 10];
    [0; 0; 3 # 10];
    [0; 0; 0] ].

(** A matrix with negative entries, which the normaliser never
    produces. *)
Definition ex_negative : matrix Q :=
  [ [0; 1; -(1 # 2)];
    [1; 0; -1];
    [0; 0; 0] ].

Definition no_edges : matrix Q :=
  [ [0; 0; 0]; [0; 0; 0]; [0; 0; 0] ].

(** Three cells in three groups, the first group being the root. *)
Definition ex_groups : adata :=
  {| velocity_graph := [ [0; 1 # 2; 0]; [0; 0; 1 # 2]; [0; 0; 0] ];
     cats := ["A"; "B"; "C"]%string;
     codes := [0; 1; 2]%nat;
     final_cells := None;
     root_cells := Some "A"%string;
     n_neighbors := 30 |}.

(** The same three groups without a root. *)
Definition ex_no_root : adata :=
  {| velocity_graph := velocity_graph ex_groups;
     cats := cats ex_groups;
     codes := codes ex_groups;
     final_cells := None;
     root_cells := None;
     n_neighbors := 30 |}.

(** Three cells in two groups without masks: an edge inside group A, an
    edge from A to B, and an entry below the cutoff. *)
Definition ex_mixed : adata :=
  {| velocity_graph := [ [0; 1 # 2; 7 # 10]; [0; 0; 0]; [1 # 20; 0; 0] ];
     cats := ["A"; "B"]%string;
     codes := [0; 0; 1]%nat;
     final_cells := None;
     root_cells := None;
     n_neighbors := 30 |}.

(** Two cells; the only edge leaves a cell of the final group B. *)
Definition ex_sink : adata :=
  {| velocity_graph := [ [0; 0]; [9 # 10; 0] ];
     cats := ["A"; "B"]%string;
     codes := [0; 1]%nat;
     final_cells := Some ["B"%string];
     root_cells := None;
     n_neighbors := 30 |}.

(** Two groups of one and two cells with an edge from the first to the
    second, and a neighbor count of 2^30. *)
Definition ex_product_negative : adata :=
  {| velocity_graph := [ [0; 1 # 2; 0]; [0; 0; 0]; [0; 0; 0] ];
     cats := ["A"; "B"]%string;
     codes := [0; 1; 1]%nat;
     final_cells := None;
     root_cells := None;
     n_neighbors := 2 ^ 30 |}.

(** Two groups of one cell with an edge from the first to the second, and
    a neighbor count of 2^31. *)
Definition ex_product_zero : adata :=
  {| velocity_graph := [ [0; 1 # 2]; [0; 0] ];
     cats := ["A"; "B"]%string;
     codes := [0; 1]%nat;
     final_cells := None;
     root_cells := None;
     n_neighbors := 2 ^ 31 |}.

(** A directed graph on three vertices with a double edge and a loop. *)
Definition ex_graph : igraph :=
  {| vcount := 3;
     is_directed := true;
     get_edgelist := [(0, 1); (0, 1); (2, 2); (1, 2)]%nat;
     es_weight := Some [2; 3; 5; 7]%Z |}.

(** The same edges taken as undirected. *)
Definition ex_undirected : igraph :=
  {| vcount := 3;
     is_directed := false;
     get_edgelist := get_edgelist ex_graph;
     es_weight := es_weight ex_graph |}.

Definition ex_adjacency : matrix bool :=
  [ [false; true; true]; [false; false; false]; [true; false; false] ].

(** A store with the velocity graph under the legacy key only. *)
Definition ex_legacy : uns_state :=
  {| uns := {[ legacy_key := velocity_graph ex_groups ]};
     warnings := [] |}.

(** A group with edges to two others and no path of two edges. *)
Definition ex_star : matrix Q :=
  [ [0; 5 # 10; 3 # 10];
    [0; 0; 0];
    [0; 0; 0] ].

(** [ex_threshold] with other entries in the column of the root group A. *)
Definition ex_threshold_root : matrix Q :=
  [ [7 # 10; 5 # 10; 1 # 10];
    [9 # 10; 0; 3 # 10];
    [0; 0; 0] ].

(** [ex_mixed] with a third category that no cell belongs to. *)
Definition ex_unused_category : adata :=
  {| velocity_graph := velocity_graph ex_mixed;
     cats := ["A"; "B"; "C"]%string;
     codes := codes ex_mixed;
     final_cells := None;
     root_cells := None;
     n_neighbors := 30 |}.

(** ** Comparisons on rationals *)

Lemma Qltb_lt (x y : Q) : Qltb x y = true ↔ x < y.
Proof.
  unfold Qltb. rewrite negb_true_iff, <- not_true_iff_false, Qle_bool_iff.
  split; [apply Qnot_le_lt | apply Qlt_not_le].
Qed.

Lemma Qltb_nlt (x y : Q) : Qltb x y = false ↔ ¬ x < y.
Proof. rewrite <- Qltb_lt. destruct (Qltb x y); naive_solver. Qed.

Lemma lt_fold_Qmax (x m : Q) (ms : list Q) :
  x < fold_left Qmax ms m ↔ x < m ∨ ∃ y, y ∈ ms ∧ x < y.
Proof.
  revert m. induction ms as [|y ms IH]; intros m; simpl.
  - split; [auto | intros [?|(y & Hy & _)]; [done | inversion Hy]].
  - rewrite IH, Q.max_lt_iff. split.
    + intros [[?|?]|(z & Hz & ?)]; eauto using list_elem_of_here.
      right. exists z. split; [by apply list_elem_of_further | done].
    + intros [?|(z & Hz & ?)]; [auto |].
      apply elem_of_cons in Hz as [->|Hz]; eauto.
Qed.

(** ** Matrices as lists of rows *)

Lemma square_lookup {A} K (T : matrix A) i :
  square K T → (i < K)%nat → ∃ r, T !! i = Some r ∧ length r = K.
Proof.
  intros [HL HF] Hi. destruct (lookup_lt_is_Some_2 T i) as [r Hr]; [lia |].
  exists r. split; [done |]. eapply Forall_lookup_1 in HF; eauto.
Qed.

Lemma square_get_lookup K (T : matrix Q) i j :
  square K T → (i < K)%nat → (j < K)%nat →
  ∃ r, T !! i = Some r ∧ length r = K ∧ r !! j = Some (get T i j).
Proof.
  intros HT Hi Hj. destruct (square_lookup K T i HT Hi) as (r & Hr & HL).
  exists r. repeat split; [done.. |].
  destruct (lookup_lt_is_Some_2 r j) as [x Hx]; [lia |].
  unfold get. rewrite Hr. simpl. by rewrite Hx.
Qed.

Lemma square_b_spec {A} K (T : matrix A) : square_b K T = true ↔ square K T.
Proof.
  unfold square_b, square.
  rewrite andb_true_iff, Nat.eqb_eq, forallb_forall, Forall_forall.
  split; intros [? H]; (split; [done |]); intros r Hr.
  - apply Nat.eqb_eq, H. by apply list_elem_of_In.
  - apply Nat.eqb_eq, H. by apply list_elem_of_In.
Qed.

(** Two square matrices with the same entries are the same list of rows. *)
Lemma matrix_ext K (T U : matrix Q) :
  square K T → square K U →
  (∀ i j, (i < K)%nat → (j < K)%nat → get T i j = get U i j) → T = U.
Proof.
  intros HT HU E. apply (list_eq_same_length _ _ K); try apply HT; try apply HU.
  intros i r s Hi Hr Hs.
  destruct (square_get_lookup K T i 0 HT Hi) as (r' & Hr' & HLr & _);
    [lia |]. 
  destruct (square_get_lookup K U i 0 HU Hi) as (s' & Hs' & HLs & _);
    [lia |].
  simplify_eq.
  apply (list_eq_same_length _ _ (length r)); [done.. |].
  intros j x y Hj Hx Hy. specialize (E i j Hi Hj).
  unfold get in E.  rewrite Hr, Hs in E. simpl in E. rewrite Hx, Hy in E. done.
Qed.

(** ** The pruner, entry by entry *)

(** Two lookups at one position of one list give the same item. *)
Ltac same_lookup :=
  repeat match goal with
  | H1 : ?l !! ?i = Some _, H2 : ?l !! ?i = Some _ |- _ =>
      rewrite H1 in H2; injection H2 as <-
  end.

Lemma elem_of_mask_zip {A B C} (f : A → B → C) idx (a : list A) (b : list B) x :
  x ∈ zip_with f (mask_select idx a) (mask_select idx b) ↔
  ∃ j u v, idx !! j = Some true ∧ a !! j = Some u ∧ b !! j = Some v ∧ x = f u v.
Proof.
  revert a b. induction idx as [|c idx IH]; intros a b.
  - simpl. split; [inversion 1 | by intros (j & u & v & ? & _)].
  - destruct a as [|u a], b as [|v b]; simpl.
    + split; [inversion 1 | by intros (j & ? & ? & _ & ? & _)].
    + split; [destruct c; simpl; rewrite ?zip_with_nil_r; inversion 1
             | by intros (j & ? & ? & _ & ? & _)].
    + split; [destruct c; simpl; rewrite ?zip_with_nil_r; inversion 1
             | by intros (j & ? & ? & _ & _ & ? & _)].
    + destruct c; simpl; rewrite ?elem_of_cons, IH.
      * split.
        -- intros [->|(j & u' & v' & ? & ? & ? & ->)];
             [by exists 0%nat, u, v | by exists (S j), u', v'].
        -- intros ([|j] & u' & v' & ? & ? & ? & ->); simplify_eq/=;
             [by left | right; by exists j, u', v'].
      * split.
        -- intros (j & u' & v' & ? & ? & ? & ->). by exists (S j), u', v'.
        -- intros ([|j] & u' & v' & ? & ? & ? & ->); simplify_eq/=.
           by exists j, u', v'.
Qed.

Lemma existsb_id_lookup (idx : list bool) :
  existsb id idx = true ↔ ∃ j, idx !! j = Some true.
Proof.
  rewrite existsb_exists. split.
  - intros (b & Hb & E). unfold id in E. subst b.
    by apply list_elem_of_In, list_elem_of_lookup in Hb.
  - intros [j Hj]. exists true. split; [|done].
    apply list_elem_of_In. by eapply list_elem_of_lookup_2.
Qed.

Lemma gt0_lookup (row : list Q) j :
  gt0 row !! j = Some true ↔ ∃ c, row !! j = Some c ∧ 0 < c.
Proof.
  unfold gt0. rewrite list_lookup_fmap. destruct (row !! j) as [c|]; simpl.
  - split.
    + intros [= E]. exists c. by rewrite <- Qltb_lt.
    + intros (? & [= <-] & E). apply Qltb_lt in E. by rewrite E.
  - split; [done | by intros (? & ? & _)].
Qed.

Lemma fold_zip_Qmax_lookup (rs : matrix Q) (r : list Q) b m :
  r !! b = Some m → Forall (λ r', length r' = length r) rs →
  ∃ m', fold_left (zip_with Qmax) rs r !! b = Some m' ∧
        ∀ x, x < m' ↔ x < m ∨ ∃ r' y, r' ∈ rs ∧ r' !! b = Some y ∧ x < y.
Proof.
  revert r m. induction rs as [|r1 rs IH]; intros r m Hb HF; simpl.
  - exists m. split; [done |]. intros x. split; [auto |].
    intros [?|(? & ? & Hin & _)]; [done | inversion Hin].
  - apply Forall_cons in HF as [HL HF].
    destruct (lookup_lt_is_Some_2 r1 b) as [y Hy].
    { rewrite HL. by eapply lookup_lt_Some. }
    destruct (IH (zip_with Qmax r r1) (Qmax m y)) as (m' & Hm' & Hx).
    { rewrite lookup_zip_with, Hb. simpl. by rewrite Hy. }
    { rewrite length_zip_with_l_eq by done. done. }
    exists m'. split; [done |]. intros x. rewrite Hx, Q.max_lt_iff. split.
    + intros [[?|?]|(r' & z & Hin & ? & ?)]; [auto | |].
      * right. exists r1, y. split; [apply list_elem_of_here | done].
      * right. exists r', z. split; [by apply list_elem_of_further | done].
    + intros [?|(r' & z & Hin & Hz & ?)]; [auto |].
      apply elem_of_cons in Hin as [->|Hin]; [| right; by exists r', z].
      simplify_eq. auto.
Qed.

Lemma indirect_lookup K (T : matrix Q) i row b :
  square K T → (i < K)%nat → (b < K)%nat → T !! i = Some row →
  existsb id (gt0 row) = true →
  ∃ m, indirect T row (gt0 row) !! b = Some m ∧
       ∀ x, x < m ↔ ∃ j, (j < K)%nat ∧ 0 < get T i j ∧
                         x < get T j b ∧ x < get T i j.
Proof.
  intros HT Hi Hb Hrow Hany.
  assert (Hlen : length row = K).
  { destruct (square_lookup K T i HT Hi) as (? & ? & ?). by same_lookup. }
  set (rows := clip_rows (mask_select (gt0 row) T) (mask_select (gt0 row) row)).
  assert (Hel1 : ∀ r', r' ∈ rows →
            ∃ j, (j < K)%nat ∧ 0 < get T i j ∧ length r' = K ∧
                 r' !! b = Some (Qmin (get T j b) (get T i j))).
  { intros r'. unfold rows, clip_rows. rewrite elem_of_mask_zip.
    intros (j & r & c & Hj & Hr & Hc & ->).
    apply gt0_lookup in Hj as (c' & Hc' & Hpos).
    assert (c' = c) as -> by congruence.
    assert (j < K)%nat by (rewrite <- Hlen; by eapply lookup_lt_Some).
    destruct (square_get_lookup K T j b HT) as (r2 & Hr2 & HL2 & Hg2);
      [done.. |].
    assert (r2 = r) as -> by congruence.
    assert (get T i j = c) as Eg.
    { unfold get. rewrite Hrow. simpl. by rewrite Hc. }
    exists j. rewrite Eg. repeat split; [done.. | by rewrite length_fmap |].
    rewrite list_lookup_fmap, Hg2. done. }
  assert (Hel2 : ∀ j, (j < K)%nat → 0 < get T i j →
            ∃ r', r' ∈ rows ∧
                  r' !! b = Some (Qmin (get T j b) (get T i j))).
  { intros j Hj Hpos.
    destruct (square_get_lookup K T j b HT) as (r2 & Hr2 & HL2 & Hg2);
      [done.. |].
    destruct (square_get_lookup K T i j HT) as (r3 & Hr3 & HL3 & Hg3);
      [done.. |]. same_lookup.
    exists (map (λ x, Qmin x (get T i j)) r2). split.
    - unfold rows, clip_rows. apply elem_of_mask_zip.
      exists j, r2, (get T i j). repeat split; [| done..].
      apply gt0_lookup. eauto.
    - rewrite list_lookup_fmap, Hg2. done. }
  assert (Hne : ∃ r0 rs, rows = r0 :: rs).
  { apply existsb_id_lookup in Hany as [j Hj].
    apply gt0_lookup in Hj as (c & Hc & Hpos).
    assert (j < K)%nat by (rewrite <- Hlen; by eapply lookup_lt_Some).
    destruct (Hel2 j) as (r' & Hin & _); [done | |].
    { unfold get. rewrite Hrow. simpl. by rewrite Hc. }
    destruct rows; [inversion Hin | eauto]. }
  destruct Hne as (r0 & rs & Hrows).
  assert (Hin0 : r0 ∈ rows) by (rewrite Hrows; apply list_elem_of_here).
  destruct (Hel1 r0 Hin0) as (j0 & Hj0 & Hpos0 & HL0 & Hlk0).
  destruct (fold_zip_Qmax_lookup rs r0 b _ Hlk0) as (m & Hm & Hx).
  { apply Forall_forall. intros r' Hr'.
    destruct (Hel1 r') as (? & _ & _ & ? & _); [| congruence].
    rewrite Hrows. by apply list_elem_of_further. }
  exists m. split; [unfold indirect; fold rows; by rewrite Hrows |].
  intros x. rewrite Hx. split.
  - intros [Hlt|(r' & y & Hin & Hy & Hlt)].
    + exists j0. apply Q.min_glb_lt_iff in Hlt. tauto.
    + destruct (Hel1 r') as (j & ? & ? & _ & Hlk);
        [rewrite Hrows; by apply list_elem_of_further |].
      same_lookup. exists j. apply Q.min_glb_lt_iff in Hlt. tauto.
  - intros (j & Hj & Hpos & H1 & H2).
    destruct (Hel2 j Hj Hpos) as (r' & Hin & Hlk).
    rewrite Hrows in Hin. apply elem_of_cons in Hin as [->|Hin].
    + left. same_lookup. by apply Q.min_glb_lt_iff.
    + right. exists r', (Qmin (get T j b) (get T i j)).
      repeat split; [done.. |]. by apply Q.min_glb_lt_iff.
Qed.


Lemma get_lookup (T : matrix Q) i row b :
  T !! i = Some row → get T i b = default 0 (row !! b).
Proof. intros H. unfold get. by rewrite H. Qed.

Lemma prune_row_length T i : length (prune_row T i) = length T.
Proof.
  unfold prune_row. destruct (existsb _ _); [apply length_insert | done].
Qed.

Lemma prune_row_lookup_ne T i a : a ≠ i → prune_row T i !! a = T !! a.
Proof.
  intros Hne. unfold prune_row.
  destruct (existsb _ _); [by apply list_lookup_insert_ne | done].
Qed.

Lemma prune_row_get_ne T i a b : a ≠ i → get (prune_row T i) a b = get T a b.
Proof. intros Hne. unfold get. by rewrite prune_row_lookup_ne. Qed.

(** What one iteration does to its own row. *)
Lemma prune_row_get_eq K (T : matrix Q) i b :
  square K T → (i < K)%nat → (b < K)%nat →
  (dominated T i b ∧ get (prune_row T i) i b = 0) ∨
  (¬ dominated T i b ∧ get (prune_row T i) i b = get T i b).
Proof.
  intros HT Hi Hb.
  destruct (square_get_lookup K T i b HT Hi Hb) as (row & Hrow & Hlen & Hg).
  assert (HK : length T = K) by apply HT.
  unfold prune_row. rewrite Hrow. simpl.
  destruct (existsb id (gt0 row)) eqn:Hany.
  - destruct (indirect_lookup K T i row b HT Hi Hb Hrow Hany) as (m & Hm & Hx).
    assert (Hnew : get (<[i:=zero_where_lt row (indirect T row (gt0 row))]> T) i b
                   = if Qltb (get T i b) m then 0 else get T i b).
    { unfold get at 1. rewrite list_lookup_insert_eq by lia. simpl.
      unfold zero_where_lt. rewrite lookup_zip_with, Hg. simpl.
      by rewrite Hm. }
    rewrite Hnew. destruct (Qltb (get T i b) m) eqn:Hlt.
    + left. split; [|done]. apply Qltb_lt, Hx in Hlt as (j & ? & ? & ? & ?).
      exists j. rewrite HK. auto.
    + right. split; [|done]. intros (j & ? & ? & ? & ?).
      apply Qltb_nlt in Hlt. apply Hlt, Hx. exists j. rewrite <- HK. auto.
  - right. split; [|done]. intros (j & Hj & Hpos & _).
    assert (existsb id (gt0 row) = true); [|congruence].
    apply existsb_id_lookup. exists j. apply gt0_lookup.
    destruct (square_get_lookup K T i j HT Hi) as (row' & ? & ? & ?); [lia |].
    same_lookup. eauto.
Qed.

Lemma elem_of_J T i j : j ∈ J T i ↔ (j < length T)%nat ∧ 0 < get T i j.
Proof.
  unfold J. rewrite list_elem_of_filter, elem_of_seq, Qltb_lt.
  split; intros [? ?]; split; auto; lia.
Qed.

(** The rule of the specification decides by the same condition. *)
Lemma rule_entry_cases (T : matrix Q) i k :
  (dominated T i k ∧ rule_entry T i k = 0) ∨
  (¬ dominated T i k ∧ rule_entry T i k = get T i k).
Proof.
  unfold rule_entry, Indirect.
  destruct (map _ (J T i)) as [|m ms] eqn:E.
  - right. split; [|done]. intros (j & Hj & Hpos & _).
    assert (Hin : j ∈ J T i) by (apply elem_of_J; auto).
    apply (list_elem_of_fmap_2 (λ j, Qmin (get T j k) (get T i j))) in Hin.
    change (@fmap list _ _ _) with (@map nat Q) in Hin.
    rewrite E in Hin. inversion Hin.
  - assert (Hx : ∀ x, x < fold_left Qmax ms m ↔
                 ∃ j, (j < length T)%nat ∧ 0 < get T i j ∧
                      x < get T j k ∧ x < get T i j).
    { intros x. rewrite lt_fold_Qmax. split.
      - intros H.
        assert (∃ y, y ∈ m :: ms ∧ x < y) as (y & Hy & Hlt).
        { destruct H as [?|(y & ? & ?)];
            [exists m | exists y]; split; auto;
            [apply list_elem_of_here | by apply list_elem_of_further]. }
        rewrite <- E in Hy.
        change (@map nat Q) with (@fmap list _ nat Q) in Hy.
        apply list_elem_of_fmap in Hy as (j & -> & Hj).
        apply elem_of_J in Hj as [? ?]. apply Q.min_glb_lt_iff in Hlt.
        exists j. tauto.
      - intros (j & Hj & Hpos & H1 & H2).
        assert (Hin : j ∈ J T i) by (apply elem_of_J; auto).
        apply (list_elem_of_fmap_2 (λ j, Qmin (get T j k) (get T i j))) in Hin.
        change (@fmap list _ _ _) with (@map nat Q) in Hin.
        rewrite E in Hin. apply elem_of_cons in Hin as [Hin|Hin].
        + left. rewrite <- Hin. by apply Q.min_glb_lt_iff.
        + right. eexists. split; [exact Hin |]. by apply Q.min_glb_lt_iff. }
    destruct (Qltb (get T i k) (fold_left Qmax ms m)) eqn:Hlt.
    + left. split; [|done]. apply Qltb_lt, Hx in Hlt. exact Hlt.
    + right. split; [|done]. intros Hd. apply Qltb_nlt in Hlt.
      apply Hlt, Hx, Hd.
Qed.

Lemma prune_row_rule K (T : matrix Q) i k :
  square K T → (i < K)%nat → (k < K)%nat →
  get (prune_row T i) i k = rule_entry T i k.
Proof.
  intros HT Hi Hk.
  destruct (prune_row_get_eq K T i k HT Hi Hk) as [[? ->]|[? ->]],
    (rule_entry_cases T i k) as [[? ->]|[? ->]]; tauto.
Qed.

(** ** The loop *)

Lemma prune_row_square K (T : matrix Q) i : square K T → square K (prune_row T i).
Proof.
  intros HT. split; [rewrite prune_row_length; apply HT |].
  unfold prune_row. destruct (T !! i) as [row|] eqn:Hrow; simpl; [|apply HT].
  destruct (existsb id (gt0 row)) eqn:Hany; [|apply HT].
  assert (Hi : (i < K)%nat).
  { destruct HT as [<- _]. by eapply lookup_lt_Some. }
  apply Forall_insert; [apply HT |].
  destruct (square_lookup K T i HT Hi) as (row' & ? & Hlen). same_lookup.
  unfold zero_where_lt. rewrite length_zip_with.
  destruct K as [|K]; [lia |].
  destruct (indirect_lookup (S K) T i row K HT Hi) as (m & Hm & _);
    [lia | done.. |].
  apply lookup_lt_Some in Hm. lia.
Qed.

Lemma prune_upto_S i T : prune_upto (S i) T = prune_row (prune_upto i T) i.
Proof. unfold prune_upto. by rewrite seq_S, fold_left_app. Qed.

Lemma prune_upto_square K (T : matrix Q) i :
  square K T → square K (prune_upto i T).
Proof.
  intros HT. induction i as [|i IH]; [done |].
  rewrite prune_upto_S. by apply prune_row_square.
Qed.

(** Rows from [i] on are still the rows of the input when iteration [i]
    starts. *)
Lemma prune_upto_lookup_ge T i a :
  (i ≤ a)%nat → prune_upto i T !! a = T !! a.
Proof.
  induction i as [|i IH]; intros Ha; [done |].
  rewrite prune_upto_S, prune_row_lookup_ne by lia. apply IH. lia.
Qed.

(** A row is final once its own iteration is over. *)
Lemma prune_upto_lookup_lt T i i' a :
  (a < i)%nat → (i ≤ i')%nat → prune_upto i' T !! a = prune_upto i T !! a.
Proof.
  intros Ha. induction 1 as [|i' Hle IH]; [done |].
  rewrite prune_upto_S, prune_row_lookup_ne by lia. done.
Qed.

Lemma prune_lookup K (T : matrix Q) a :
  square K T → (a < K)%nat →
  prune T !! a = prune_row (prune_upto a T) a !! a.
Proof.
  intros [HK _] Ha. unfold prune. fold (prune_upto (length T) T).
  rewrite (prune_upto_lookup_lt T (S a)) by lia. by rewrite prune_upto_S.
Qed.

Lemma prune_get_stage_lt K (T : matrix Q) i a b :
  square K T → (a < i)%nat → (i ≤ K)%nat →
  get (prune_upto i T) a b = get (prune T) a b.
Proof.
  intros [HK HF] Ha Hi. unfold get, prune. fold (prune_upto (length T) T).
  rewrite (prune_upto_lookup_lt T (S a) i), (prune_upto_lookup_lt T (S a) (length T))
    by lia. done.
Qed.

Lemma prune_get_stage_ge (T : matrix Q) i a b :
  (i ≤ a)%nat → get (prune_upto i T) a b = get T a b.
Proof. intros Ha. unfold get. by rewrite prune_upto_lookup_ge. Qed.

(** What the whole loop does to an entry: the decision is taken at the
    state the array has when the iteration of its row starts. *)
Lemma prune_entry K (T : matrix Q) a b :
  square K T → (a < K)%nat → (b < K)%nat →
  (dominated (prune_upto a T) a b ∧ get (prune T) a b = 0) ∨
  (¬ dominated (prune_upto a T) a b ∧ get (prune T) a b = get T a b).
Proof.
  intros HT Ha Hb.
  assert (E : get (prune T) a b = get (prune_row (prune_upto a T) a) a b).
  { unfold get. by rewrite (prune_lookup K). }
  rewrite E, <- (prune_get_stage_ge T a a b) by lia.
  apply (prune_row_get_eq K); auto using prune_upto_square.
Qed.

Lemma prune_square K (T : matrix Q) : square K T → square K (prune T).
Proof. intros HT. by apply prune_upto_square. Qed.

Lemma nonneg_get T a b : nonneg T → 0 <= get T a b.
Proof.
  intros HT. unfold get. destruct (T !! a) as [row|] eqn:Hrow; simpl; [|lra].
  destruct (row !! b) as [x|] eqn:Hx; simpl; [|lra].
  eapply Forall_lookup_1 in HT; [|done].
  eapply Forall_lookup_1 in HT; [|done]. done.
Qed.

Lemma prune_get_le K (T : matrix Q) a b :
  square K T → nonneg T → (a < K)%nat → (b < K)%nat →
  get (prune T) a b <= get T a b.
Proof.
  intros HT HN Ha Hb.
  destruct (prune_entry K T a b HT Ha Hb) as [[_ ->]|[_ ->]];
    [by apply nonneg_get | lra].
Qed.

(** The final matrix is entry-wise below every intermediate state. *)
Lemma prune_le_stage K (T : matrix Q) i a b :
  square K T → nonneg T → (i ≤ K)%nat → (a < K)%nat → (b < K)%nat →
  get (prune T) a b <= get (prune_upto i T) a b.
Proof.
  intros HT HN Hi Ha Hb. destruct (decide (a < i)%nat).
  - rewrite (prune_get_stage_lt K) by done. lra.
  - rewrite prune_get_stage_ge by lia. by apply (prune_get_le K).
Qed.

Lemma prune_row_fixed K (T P : matrix Q) i :
  square K T → nonneg T → P = prune T → (i < K)%nat → prune_row P i = P.
Proof.
  intros HT HN -> Hi.
  assert (HP : square K (prune T)) by by apply prune_square.
  apply (matrix_ext K); [by apply prune_row_square | done |].
  intros a b Ha Hb. destruct (decide (a = i)) as [->|Hne];
    [|by apply prune_row_get_ne].
  destruct (prune_row_get_eq K (prune T) i b HP Hi Hb) as [[Hd ->]|[_ ->]];
    [|done].
  destruct (prune_entry K T i b HT Hi Hb) as [[_ ->]|[Hnd E]]; [done |].
  exfalso. apply Hnd. destruct Hd as (j & Hj & Hpos & H1 & H2).
  destruct HT as [HK HF]. destruct HP as [HPK _]. rewrite HPK in Hj.
  assert (HT : square K T) by done.
  assert (Ej : get (prune T) i j = get T i j).
  { destruct (prune_entry K T i j HT Hi Hj) as [[_ E0]|[_ E1]]; [|done].
    rewrite E0 in Hpos. lra. }
  exists j. rewrite !(prune_get_stage_ge T i i) by lia.
  rewrite <- E, <- Ej.
  assert (get (prune T) j b <= get (prune_upto i T) j b)
    by (apply (prune_le_stage K); auto; lia).
  split; [destruct (prune_upto_square K T i HT) as [-> _]; done |].
  repeat split; [done | lra | done].
Qed.

(** ** Boolean adjacency matrices and their edges *)

Lemma getb_true (a : matrix bool) u v :
  getb a u v = true ↔ ∃ row, a !! u = Some row ∧ row !! v = Some true.
Proof.
  unfold getb. destruct (a !! u) as [row|]; simpl.
  - destruct (row !! v) as [[]|] eqn:E; simpl; split; try done.
    + eauto.
    + by intros (? & [= <-] & ?); simplify_eq.
    + by intros (? & [= <-] & ?); simplify_eq.
  - split; [done | by intros (? & ? & _)].
Qed.

Lemma elem_of_nonzero (a : matrix bool) u v :
  (u, v) ∈ nonzero a ↔ getb a u v = true.
Proof.
  unfold nonzero. rewrite list_elem_of_bind. split.
  - intros (u' & H & _). apply list_elem_of_bind in H as (v' & H & _).
    destruct (getb a u' v') eqn:E; [|inversion H].
    apply list_elem_of_singleton in H. by simplify_eq.
  - intros H. exists u. pose proof H as Hg.
    apply getb_true in H as (row & Hrow & Hv).
    split; [|apply elem_of_seq; apply lookup_lt_Some in Hrow; lia].
    apply list_elem_of_bind. exists v. rewrite Hg, Hrow. simpl.
    split; [apply list_elem_of_here |].
    apply elem_of_seq. apply lookup_lt_Some in Hv. lia.
Qed.

Lemma nonzero_nil (a : matrix bool) :
  (∀ u v, getb a u v = false) → nonzero a = [].
Proof.
  intros H. destruct (nonzero a) as [|[u v] l] eqn:E; [done |].
  assert (Hin : (u, v) ∈ nonzero a) by (rewrite E; apply list_elem_of_here).
  apply elem_of_nonzero in Hin. by rewrite H in Hin.
Qed.

Lemma getb_mask_rows (f : nat → bool) (M : matrix bool) u v :
  getb (imap (λ u row, if f u then map (λ _, false) row else row) M) u v
  = getb M u v && negb (f u).
Proof.
  unfold getb. rewrite list_lookup_imap.
  destruct (M !! u) as [row|]; simpl; [|done].
  destruct (f u); simpl; [|by rewrite andb_true_r].
  change (map (λ _ : bool, false) row) with ((λ _ : bool, false) <$> row).
  rewrite list_lookup_fmap, andb_false_r. by destruct (row !! v).
Qed.

Lemma getb_mask_cols (g : nat → bool) (M : matrix bool) u v :
  getb (map (imap (λ v b, if g v then false else b)) M) u v
  = getb M u v && negb (g v).
Proof.
  unfold getb.
  change (map ?f M) with (f <$> M). rewrite list_lookup_fmap.
  destruct (M !! u) as [row|]; simpl; [|done].
  rewrite list_lookup_imap. destruct (row !! v) as [b|]; simpl; [|done].
  destruct (g v); simpl; [by rewrite andb_false_r | by rewrite andb_true_r].
Qed.

(** An entry of [vgraph]: above the cutoff, its source not final, its
    target not in the root group. *)
Lemma getb_vgraph (a : adata) u v :
  getb (vgraph a) u v
  = getb (above_cutoff (velocity_graph a)) u v
    && negb (is_final a u) && negb (is_root a v).
Proof.
  unfold vgraph.
  destruct (final_cells a) as [fc|] eqn:Ef, (root_cells a) as [r|] eqn:Er.
  - by rewrite getb_mask_cols, getb_mask_rows.
  - rewrite getb_mask_rows. unfold is_root. rewrite Er.
    by rewrite andb_true_r.
  - rewrite getb_mask_cols. unfold is_final. rewrite Ef.
    by rewrite andb_true_r.
  - unfold is_final, is_root. rewrite Ef, Er. by rewrite !andb_true_r.
Qed.

Lemma getb_above_cutoff (G : matrix Q) u v :
  getb (above_cutoff G) u v = true ↔
  ∃ row x, G !! u = Some row ∧ row !! v = Some x ∧ cutoff < x.
Proof.
  rewrite getb_true. unfold above_cutoff.
  change (map ?f G) with (f <$> G). split.
  - intros (row' & Hrow & Hv).
    apply list_lookup_fmap_Some_1 in Hrow as (row & -> & Hrow).
    change (map ?f row) with (f <$> row) in Hv.
    apply list_lookup_fmap_Some_1 in Hv as (x & Hx & Hv).
    exists row, x. repeat split; [done.. |]. by apply Qltb_lt.
  - intros (row & x & Hrow & Hv & Hlt).
    exists (map (Qltb cutoff) row). rewrite list_lookup_fmap, Hrow.
    split; [done |]. change (map ?f row) with (f <$> row).
    rewrite list_lookup_fmap, Hv. simpl. apply Qltb_lt in Hlt. by rewrite Hlt.
Qed.

Lemma elem_of_fine_edges (G : matrix Q) u v :
  (u, v) ∈ fine_edges G ↔
  ∃ row x, G !! u = Some row ∧ row !! v = Some x ∧ cutoff < x.
Proof. unfold fine_edges. by rewrite elem_of_nonzero, getb_above_cutoff. Qed.

Lemma elem_of_vgraph_edges (a : adata) u v :
  (u, v) ∈ nonzero (vgraph a) ↔
  (u, v) ∈ fine_edges (velocity_graph a) ∧
  is_final a u = false ∧ is_root a v = false.
Proof.
  unfold fine_edges. rewrite !elem_of_nonzero, getb_vgraph.
  rewrite !andb_true_iff, !negb_true_iff. tauto.
Qed.

(** ** Sums and counts *)

Lemma sumZ_map_add {A} (f g : A → Z) (l : list A) :
  sumZ (map (λ x, (f x + g x)%Z) l) = (sumZ (map f l) + sumZ (map g l))%Z.
Proof. induction l as [|x l IH]; simpl; [done | rewrite IH; lia]. Qed.

Lemma sumZ_map_zero {A} (f : A → Z) (l : list A) :
  (∀ x, x ∈ l → f x = 0%Z) → sumZ (map f l) = 0%Z.
Proof.
  induction l as [|x l IH]; intros H; simpl; [done |].
  rewrite H, IH; [done | | apply list_elem_of_here].
  intros y Hy. apply H. by apply list_elem_of_further.
Qed.

Lemma sumZ_map_ext {A} (f g : A → Z) (l : list A) :
  (∀ x, x ∈ l → f x = g x) → sumZ (map f l) = sumZ (map g l).
Proof.
  induction l as [|x l IH]; intros H; simpl; [done |].
  rewrite H, IH; [done | | apply list_elem_of_here].
  intros y Hy. apply H. by apply list_elem_of_further.
Qed.

(** Over a list without repetitions, a sum that is non-zero at one item
    only is the value at that item. *)
Lemma sumZ_single {A} `{EqDecision A} (e : A) (c : Z) (l : list A) :
  NoDup l → e ∈ l →
  sumZ (map (λ p, if decide (p = e) then c else 0%Z) l) = c.
Proof.
  induction 1 as [|x l Hx HN IH]; intros He; [inversion He |]. simpl.
  apply elem_of_cons in He as [->|He].
  - rewrite decide_True by done. rewrite sumZ_map_zero; [lia |].
    intros y Hy. rewrite decide_False; [done | by intros ->].
  - rewrite decide_False by (by intros ->). by rewrite IH.
Qed.

Lemma elem_of_all_pairs n p :
  p ∈ all_pairs n ↔ (p.1 < n)%nat ∧ (p.2 < n)%nat.
Proof.
  unfold all_pairs. rewrite list_elem_of_bind. split.
  - intros (a & H & Ha). apply list_elem_of_bind in H as (b & H & Hb).
    apply list_elem_of_singleton in H as ->. simpl.
    apply elem_of_seq in Ha, Hb. lia.
  - intros [H1 H2]. exists p.1. split; [|apply elem_of_seq; lia].
    apply list_elem_of_bind. exists p.2.
    split; [destruct p; apply list_elem_of_here | apply elem_of_seq; lia].
Qed.

Lemma NoDup_all_pairs n : NoDup (all_pairs n).
Proof.
  unfold all_pairs. apply NoDup_bind; [| |apply NoDup_seq].
  - intros a1 a2 p _ _ H1 H2.
    apply list_elem_of_bind in H1 as (? & H1 & _).
    apply list_elem_of_bind in H2 as (? & H2 & _).
    apply list_elem_of_singleton in H1, H2. congruence.
  - intros a _. apply NoDup_bind; [| |apply NoDup_seq].
    + intros b1 b2 p _ _ H1 H2.
      apply list_elem_of_singleton in H1, H2. congruence.
    + intros b _. apply NoDup_singleton.
Qed.

Lemma sum_entries_all_pairs (f : nat → nat → Z) n :
  sum_entries (map (λ a, map (λ b, f a b) (seq 0 n)) (seq 0 n))
  = sumZ (map (λ p, f p.1 p.2) (all_pairs n)).
Proof.
  unfold sum_entries, all_pairs. generalize (seq 0 n) at 2 4. intros l.
  induction l as [|a l IH]; csimpl; [done |].
  rewrite IH, map_app.
  assert (E : ∀ l1 l2, sumZ (l1 ++ l2) = (sumZ l1 + sumZ l2)%Z).
  { intros l1 l2. induction l1 as [|x l1 IH1]; simpl; [done | rewrite IH1; lia]. }
  rewrite E. f_equal. generalize (seq 0 n). intros l'.
  induction l' as [|b l' IH']; csimpl; [done | by rewrite IH'].
Qed.

(** ** The coarse graph, entry by entry *)

Lemma weight_at_nil W p : weight_at [] W p = 0%Z.
Proof. done. Qed.

Lemma weight_at_cons e w E W p :
  weight_at (e :: E) (w :: W) p
  = ((if decide (e = p) then w else 0) + weight_at E W p)%Z.
Proof.
  unfold weight_at. simpl. rewrite filter_cons. simpl.
  destruct (decide (e = p)); simpl; [done | lia].
Qed.

(** With unit weights the datum stored at [p] counts the edges that
    become [p]. *)
Lemma weight_at_count {A} (h : A → nat * nat) (E : list A) p :
  weight_at (map h E) (replicate (length E) 1%Z) p
  = Z.of_nat (length (filter (λ e, h e = p) E)).
Proof.
  induction E as [|e E IH]; [done |]. simpl.
  rewrite weight_at_cons, IH, filter_cons.
  destruct (decide (h e = p)); simpl; lia.
Qed.

Lemma weight_at_self (f : nat * nat → Z) (pairs : list (nat * nat)) p :
  NoDup pairs →
  weight_at pairs (map f pairs) p = if decide (p ∈ pairs) then f p else 0%Z.
Proof.
  induction 1 as [|q l Hq HN IH]; [done |]. simpl.
  rewrite weight_at_cons, IH. destruct (decide (q = p)) as [->|Hne].
  - rewrite decide_False by done.
    rewrite decide_True by apply list_elem_of_here. lia.
  - destruct (decide (p ∈ l)) as [Hin|Hnin].
    + rewrite decide_True by (by apply list_elem_of_further). lia.
    + rewrite decide_False; [lia |].
      intros [->|?]%elem_of_cons; done.
Qed.

Lemma adjacency_weights (adj : matrix bool) d :
  es_weight (get_igraph_from_adjacency adj d)
  = match nonzero adj with
    | [] => None
    | _ => Some (replicate (length (nonzero adj)) 1%Z)
    end.
Proof.
  simpl.
  assert (H : ∀ e, e ∈ nonzero adj → Z.b2z (getb adj e.1 e.2) = 1%Z).
  { intros [u v] He. apply elem_of_nonzero in He. simpl. by rewrite He. }
  assert (E : map (λ e, Z.b2z (getb adj e.1 e.2)) (nonzero adj)
              = replicate (length (nonzero adj)) 1%Z).
  { induction (nonzero adj) as [|e l IH]; [done |]. simpl.
    rewrite H by apply list_elem_of_here. f_equal. apply IH.
    intros e' He'. apply H. by apply list_elem_of_further. }
  rewrite E. done.
Qed.

Lemma csr_matrix_nil W n : csr_matrix [] W n = replicate n (replicate n 0%Z).
Proof.
  change (csr_matrix [] W n)
    with (map (λ _ : nat, map (λ _ : nat, 0%Z) (seq 0 n)) (seq 0 n)).
  assert (E : ∀ {A B} (c : B) (l : list A), map (λ _, c) l = replicate (length l) c).
  { intros A B c l. induction l; simpl; [done | by f_equal]. }
  by rewrite !E, length_seq.
Qed.

(** The aggregated graph in closed form: without an edge in [vgraph] the
    lookup of the edge attribute raises; otherwise the matrix holds, off the
    diagonal, the number of edges of [vgraph] that lead from the one group
    to the other, and nothing on the diagonal. *)
Lemma CoarseGraph_closed (a : adata) :
  CoarseGraph a
  = match nonzero (vgraph a) with
    | [] => Raise KeyError
    | _ => Ok (coarse_counts a)
    end.
Proof.
  unfold CoarseGraph, get_sparse_from_igraph, cluster_graph, es_lookup.
  cbn [simplify contract_vertices es_weight is_directed vcount get_edgelist].
  pose proof (adjacency_weights (vgraph a) true) as HW0.
  cbn [get_igraph_from_adjacency es_weight is_directed vcount get_edgelist]
    in HW0 |- *.
  rewrite HW0. clear HW0.
  destruct (nonzero (vgraph a)) as [|e0 l0] eqn:Enz; [done |].
  rewrite <- Enz. cbn [fmap option_fmap option_map mbind result_bind mret result_ret].
  f_equal. unfold coarse_counts.
  set (n := n_clusters (codes a)).
  set (E1 := map _ (nonzero (vgraph a))).
  set (W1 := replicate _ 1%Z).
  set (pairs := filter _ (all_pairs n)).
  assert (HN : NoDup pairs) by apply NoDup_filter, NoDup_all_pairs.
  assert (Hent : ∀ i j, (i < n)%nat → (j < n)%nat →
            weight_at pairs (map (weight_at E1 W1) pairs) (i, j)
            = if decide (i = j) then 0%Z
              else Z.of_nat (length (crossing a i j))).
  { intros i j Hi Hj. rewrite weight_at_self by done.
    assert (Hc : weight_at E1 W1 (i, j) = Z.of_nat (length (crossing a i j))).
    { unfold E1, W1. apply weight_at_count. }
    destruct (decide (i = j)) as [->|Hne].
    - rewrite decide_False; [done |].
      unfold pairs. rewrite list_elem_of_filter. simpl. tauto.
    - destruct (decide ((i, j) ∈ pairs)) as [|Hnin]; [done |].
      rewrite <- Hc. unfold E1, W1. rewrite weight_at_count.
      destruct (filter _ (nonzero (vgraph a))) as [|e l] eqn:Ef; [done |].
      exfalso. apply Hnin. unfold pairs. apply list_elem_of_filter.
      split; [|by apply elem_of_all_pairs]. split; [done |].
      assert (He : e ∈ filter (λ e, (default 0%nat (codes a !! e.1),
                                      default 0%nat (codes a !! e.2)) = (i, j))
                              (nonzero (vgraph a)))
        by (rewrite Ef; apply list_elem_of_here).
      apply list_elem_of_filter in He as [He Hin].
      unfold E1. apply list_elem_of_fmap. exists e. split; [done | done]. }
  assert (Hcsr : csr_matrix pairs (map (weight_at E1 W1) pairs) n
            = map (λ i, map (λ j, if decide (i = j) then 0%Z
                                  else Z.of_nat (length (crossing a i j)))
                            (seq 0 n)) (seq 0 n)).
  { unfold csr_matrix. apply map_ext_in. intros i Hi.
    apply map_ext_in. intros j Hj. apply in_seq in Hi, Hj.
    apply Hent; lia. }
  destruct pairs as [|p ps] eqn:Ep; [|exact Hcsr].
  rewrite <- Hcsr. simpl. by rewrite csr_matrix_nil.
Qed.

Lemma CoarseGraph_ok (a : adata) :
  nonzero (vgraph a) ≠ [] → CoarseGraph a = Ok (coarse_counts a).
Proof.
  intros Hne. rewrite CoarseGraph_closed.
  by destruct (nonzero (vgraph a)).
Qed.

Lemma CoarseGraph_raises (a : adata) :
  nonzero (vgraph a) = [] → CoarseGraph a = Raise KeyError.
Proof. intros E. by rewrite CoarseGraph_closed, E. Qed.

Lemma count_between {A} (h1 h2 : A → nat) (E : list A) n :
  (∀ e, e ∈ E → (h1 e < n)%nat ∧ (h2 e < n)%nat) →
  sumZ (map (λ p : nat * nat,
               if decide (p.1 = p.2) then 0%Z
               else Z.of_nat (length (filter (λ e, (h1 e, h2 e) = (p.1, p.2)) E)))
            (all_pairs n))
  = Z.of_nat (length (filter (λ e, h1 e ≠ h2 e) E)).
Proof.
  induction E as [|e E IH]; intros Hr.
  - simpl. by apply sumZ_map_zero; intros p _; destruct (decide _).
  - rewrite (sumZ_map_ext _
      (λ p, ((if decide (p = (h1 e, h2 e))
              then (if decide (h1 e = h2 e) then 0 else 1) else 0)
             + (if decide (p.1 = p.2) then 0
                else Z.of_nat (length (filter (λ e, (h1 e, h2 e) = (p.1, p.2)) E))))%Z)).
    + rewrite sumZ_map_add, IH, sumZ_single.
      * rewrite filter_cons. destruct (decide (h1 e = h2 e)).
        -- by rewrite decide_False by tauto.
        -- rewrite decide_True by done. simpl. lia.
      * apply NoDup_all_pairs.
      * apply elem_of_all_pairs. apply Hr, list_elem_of_here.
      * intros e' He'. apply Hr. by apply list_elem_of_further.
    + intros [i j] _. simpl. rewrite filter_cons.
      destruct (decide (i = j)) as [->|Hij].
      * destruct (decide ((j, j) = (h1 e, h2 e))) as [[= E1 E2]|]; [|done].
        rewrite decide_True by congruence. done.
      * destruct (decide ((h1 e, h2 e) = (i, j))) as [[= E1 E2]|Hne].
        -- rewrite decide_True by congruence.
           rewrite decide_False by congruence. simpl. lia.
        -- rewrite decide_False by congruence. lia.
Qed.

Lemma vgraph_edge_in_range (a : adata) u v :
  well_shaped a → (u, v) ∈ nonzero (vgraph a) →
  (u < length (codes a))%nat ∧ (v < length (codes a))%nat.
Proof.
  intros [HL HF] [He _]%elem_of_vgraph_edges.
  apply elem_of_fine_edges in He as (row & x & Hrow & Hv & _).
  eapply Forall_lookup_1 in HF; [|done].
  apply lookup_lt_Some in Hrow, Hv. lia.
Qed.

(** The group of a cell is one of the clusters, and not an empty one. *)
Lemma group_of_cell (a : adata) u :
  (u < length (codes a))%nat →
  (group_of a u < n_clusters (codes a))%nat ∧
  ∃ s, group_sizes a !! group_of a u = Some s ∧ (1 ≤ s)%nat.
Proof.
  intros Hu. destruct (lookup_lt_is_Some_2 _ _ Hu) as [c Hc].
  unfold group_of. rewrite Hc. simpl.
  assert (Hin : c ∈ codes a) by by eapply list_elem_of_lookup_2.
  assert (Hlt : (c < n_clusters (codes a))%nat).
  { unfold n_clusters. destruct (codes a) as [|c0 cs] eqn:E; [inversion Hin |].
    apply max_list_elem_of_le in Hin. lia. }
  split; [done |]. unfold group_sizes, sizes.
  change (map ?f (seq 0 ?n)) with (f <$> seq 0 n).
  rewrite list_lookup_fmap, lookup_seq_lt by done. simpl.
  eexists. split; [done |].
  assert (Hf : c ∈ filter (λ x, x = c) (codes a))
    by by apply list_elem_of_filter.
  destruct (filter _ (codes a)); [inversion Hf | simpl; lia].
Qed.

(** The total of the aggregated graph counts the edges between groups. *)
Lemma coarse_total (a : adata) :
  well_shaped a →
  sum_entries (coarse_counts a) = Z.of_nat (length (between_groups a)).
Proof.
  intros Hw. unfold coarse_counts. simpl.
  rewrite (sum_entries_all_pairs
    (λ i j, if decide (i = j) then 0%Z else Z.of_nat (length (crossing a i j)))).
  unfold crossing, between_groups. apply count_between.
  intros [u v] He. apply vgraph_edge_in_range in He as [Hu Hv]; [|done].
  split; by apply group_of_cell.
Qed.

(** [vgraph] reads the velocity graph only where no mask applies. *)
Lemma vgraph_unmasked (a : adata) (G' : matrix Q) :
  same_shape (velocity_graph a) G' →
  (∀ u v, is_final a u = false → is_root a v = false →
          G' !! u ≫= (.!! v) = velocity_graph a !! u ≫= (.!! v)) →
  vgraph (with_graph a G') = vgraph a.
Proof.
  intros Hs Hag.
  assert (Hlen : length (vgraph (with_graph a G')) = length (vgraph a)).
  { unfold vgraph, above_cutoff. simpl.
    destruct (final_cells a), (root_cells a);
      rewrite ?length_map, ?length_imap, ?length_map;
      symmetry; by eapply Forall2_length. }
  assert (Hrow : ∀ (b : adata) u,
            length (default [] (vgraph b !! u))
            = length (default [] (velocity_graph b !! u))).
  { intros b u. unfold vgraph, above_cutoff.
    change (map ?f (velocity_graph b)) with (f <$> velocity_graph b).
    destruct (final_cells b), (root_cells b);
      repeat (rewrite ?list_lookup_fmap, ?list_lookup_imap;
              change (map ?f ?l !! u) with ((f <$> l) !! u));
      destruct (velocity_graph b !! u) as [row|]; simpl; try done;
      try destruct (is_final b u);
      by rewrite ?length_imap, ?length_map, ?length_map. }
  apply list_eq. intros u.
  destruct (vgraph a !! u) as [r|] eqn:Er.
  - destruct (lookup_lt_is_Some_2 (vgraph (with_graph a G')) u) as [r' Er'].
    { rewrite Hlen. by eapply lookup_lt_Some. }
    rewrite Er'. f_equal.
    assert (Hrl : length r' = length r).
    { pose proof (Hrow a u) as H1. pose proof (Hrow (with_graph a G') u) as H2.
      rewrite Er in H1. rewrite Er' in H2. simpl in *.
      rewrite H1, H2.
      destruct (velocity_graph a !! u) as [g|] eqn:Eg.
      - destruct (Forall2_lookup_l _ _ _ _ _ Hs Eg) as (g' & Eg' & Hl).
        rewrite Eg'. simpl. lia.
      - apply lookup_ge_None in Eg.
        rewrite (proj2 (lookup_ge_None _ _)); [done |].
        apply Forall2_length in Hs. lia. }
    apply (list_eq_same_length _ _ (length r)); [done.. |].
    intros v x y Hv Hx Hy.
    assert (E1 : getb (vgraph (with_graph a G')) u v = x)
      by (unfold getb; rewrite Er'; simpl; by rewrite Hx).
    assert (E2 : getb (vgraph a) u v = y)
      by (unfold getb; rewrite Er; simpl; by rewrite Hy).
    rewrite <- E1, <- E2, !getb_vgraph.
    change (is_final (with_graph a G') u) with (is_final a u).
    change (is_root (with_graph a G') v) with (is_root a v).
    destruct (is_final a u) eqn:Hf; [by rewrite !andb_false_r |].
    destruct (is_root a v) eqn:Hr; [by rewrite !andb_false_r |].
    f_equal. f_equal. specialize (Hag u v Hf Hr).
    unfold getb, above_cutoff. simpl.
    change (map ?f ?l !! u) with ((f <$> l) !! u).
    rewrite !list_lookup_fmap.
    assert (Hfm : ∀ g : list Q, map (Qltb cutoff) g !! v = Qltb cutoff <$> g !! v)
      by (intros g; apply list_lookup_fmap).
    destruct (G' !! u) as [g'|], (velocity_graph a !! u) as [g|];
      simpl in *; rewrite ?Hfm; [by rewrite Hag | by rewrite Hag | | done].
    by rewrite <- Hag.
  - apply lookup_ge_None in Er. apply lookup_ge_None. lia.
Qed.

(** ** Flow and the loop of the normaliser *)

Lemma entry_tabulate {A} (f : nat → nat → A) n i j :
  entry (map (λ i, map (λ j, f i j) (seq 0 n)) (seq 0 n)) i j
  = if decide (i < n ∧ j < n)%nat then Some (f i j) else None.
Proof.
  unfold entry. change (map ?g (seq 0 n)) with (g <$> seq 0 n).
  rewrite list_lookup_fmap. destruct (decide (i < n)%nat) as [Hi|Hi].
  - rewrite lookup_seq_lt by done. simpl.
    change (map ?g (seq 0 n)) with (g <$> seq 0 n). rewrite list_lookup_fmap.
    destruct (decide (j < n)%nat) as [Hj|Hj].
    + rewrite lookup_seq_lt by done. simpl. by rewrite decide_True.
    + rewrite lookup_seq_ge by lia. simpl. rewrite decide_False; [done | tauto].
  - rewrite lookup_seq_ge by lia. simpl. rewrite decide_False; [done | tauto].
Qed.

Lemma getZ_entry (M : matrix Z) i j : getZ M i j = default 0%Z (entry M i j).
Proof. done. Qed.

Lemma length_tabulate {A} (f : nat → nat → A) n :
  length (map (λ i, map (λ j, f i j) (seq 0 n)) (seq 0 n)) = n.
Proof. by rewrite length_map, length_seq. Qed.

Lemma getZ_coarse_counts (a : adata) i j :
  getZ (coarse_counts a) i j
  = if decide (i < n_clusters (codes a) ∧ j < n_clusters (codes a) ∧ i ≠ j)%nat
    then Z.of_nat (length (crossing a i j)) else 0%Z.
Proof.
  rewrite getZ_entry. unfold coarse_counts. simpl.
  rewrite (entry_tabulate (λ i j, if decide (i = j) then 0%Z
                                  else Z.of_nat (length (crossing a i j)))).
  repeat case_decide; simpl; try done; try lia; tauto.
Qed.

Lemma length_coarse_counts (a : adata) :
  length (coarse_counts a) = n_clusters (codes a).
Proof. unfold coarse_counts. simpl. apply length_tabulate. Qed.

Lemma entry_Flow (M : matrix Z) i j :
  entry (Flow M) i j
  = if decide (i < length M ∧ j < length M)%nat
    then Some (getZ M i j - getZ M j i)%Z else None.
Proof. unfold Flow. apply (entry_tabulate (λ i j, (getZ M i j - getZ M j i)%Z)). Qed.

Lemma elem_of_tocoo (M : matrix Z) i j v :
  (i, j, v) ∈ tocoo M ↔ entry M i j = Some v ∧ v ≠ 0%Z.
Proof.
  unfold tocoo. rewrite list_elem_of_bind. split.
  - intros (i' & H & Hi'). apply list_elem_of_bind in H as (j' & H & Hj').
    destruct (getZ M i' j' =? 0)%Z eqn:E; [inversion H |].
    apply list_elem_of_singleton in H. simplify_eq.
    apply Z.eqb_neq in E. split; [|done].
    apply elem_of_seq in Hi', Hj'.
    destruct (lookup_lt_is_Some_2 M i') as [row Hrow]; [lia |].
    rewrite Hrow in Hj'. simpl in Hj'.
    destruct (lookup_lt_is_Some_2 row j') as [x Hx]; [lia |].
    unfold getZ, entry. rewrite Hrow. simpl. by rewrite Hx.
  - intros [He Hv]. unfold entry in He.
    destruct (M !! i) as [row|] eqn:Hrow; [|done]. simpl in He.
    exists i. split; [|apply elem_of_seq; apply lookup_lt_Some in Hrow; lia].
    apply list_elem_of_bind. exists j. rewrite Hrow. simpl.
    split; [|apply elem_of_seq; apply lookup_lt_Some in He; lia].
    assert (Hg : getZ M i j = v) by (unfold getZ; rewrite Hrow; simpl; by rewrite He).
    rewrite Hg. apply Z.eqb_neq in Hv. rewrite Hv. apply list_elem_of_here.
Qed.

Lemma entry_set_entry {A} (C : matrix A) i j x i' j' :
  entry (set_entry C i j x) i' j'
  = if decide (i = i' ∧ j = j') then (λ _, x) <$> entry C i j
    else entry C i' j'.
Proof.
  unfold entry, set_entry. rewrite list_lookup_alter.
  destruct (decide (i = i')) as [->|Hi].
  - destruct (C !! i') as [row|]; simpl; [|by case_decide].
    rewrite list_lookup_insert. destruct (decide (j = j')) as [->|Hj].
    + rewrite (decide_True (P := i' = i' ∧ j' = j')) by auto.
      destruct (row !! j') eqn:E.
      * rewrite decide_True; [done |]. split; [done |]. by eapply lookup_lt_Some.
      * rewrite decide_False; [done |]. apply lookup_ge_None in E. lia.
    + rewrite decide_False by tauto. rewrite decide_False by tauto. done.
  - rewrite decide_False by tauto. done.
Qed.

Lemma entry_map {A B} (g : A → B) (M : matrix A) i j :
  entry (map (map g) M) i j = g <$> entry M i j.
Proof.
  unfold entry. change (map (map g) M !! i) with ((map g <$> M) !! i).
  rewrite list_lookup_fmap. destruct (M !! i) as [row|]; simpl; [|done].
  apply list_lookup_fmap.
Qed.

(** Two arrays with as many rows and the same items are the same. *)
Lemma matrix_entry_ext {A} (T U : matrix A) :
  length T = length U → (∀ i j, entry T i j = entry U i j) → T = U.
Proof.
  intros HL He. apply list_eq. intros i.
  destruct (T !! i) as [r|] eqn:Er, (U !! i) as [r'|] eqn:Er'.
  - f_equal. apply list_eq. intros j. specialize (He i j).
    unfold entry in He. by rewrite Er, Er' in He.
  - apply lookup_lt_Some in Er. apply lookup_ge_None in Er'. lia.
  - apply lookup_ge_None in Er. apply lookup_lt_Some in Er'. lia.
  - done.
Qed.

Section NormalizerLoop.

Variable sqrt64 : Z → Q.

(** After the loop, a position of the matrix holds the value computed for
    it if the position was visited, and its first value otherwise. *)
Lemma conf_fold (tn : list Z) (g : nat → nat → Z) (L : list (nat * nat * Z))
    (C : matrix float64) i j :
  (∀ i j v, (i, j, v) ∈ L → v = g i j) →
  entry (fold_left (conf_step sqrt64 tn) L C) i j
  = (λ old, if decide ((i, j, g i j) ∈ L)
            then conf_value sqrt64 tn i j (g i j) else old) <$> entry C i j.
Proof.
  revert C. induction L as [|[[i0 j0] v0] L IH]; intros C Hg; simpl.
  - by destruct (entry C i j).
  - rewrite IH by (intros ? ? ? ?; apply Hg; by apply list_elem_of_further).
    rewrite entry_set_entry.
    assert (Hv0 : v0 = g i0 j0) by apply Hg, list_elem_of_here.
    destruct (decide (i0 = i ∧ j0 = j)) as [[-> ->]|Hne].
    + subst v0. destruct (entry C i j); simpl; [|done].
      destruct (decide ((i, j, g i j) ∈ L)).
      * rewrite decide_True; [done | by apply list_elem_of_further].
      * rewrite decide_True; [done | apply list_elem_of_here].
    + destruct (entry C i j); simpl; [|done].
      destruct (decide ((i, j, g i j) ∈ L)) as [Hin|Hnin].
      * rewrite decide_True; [done | by apply list_elem_of_further].
      * rewrite decide_False; [done |].
        intros [[= -> -> _]|?]%elem_of_cons; tauto.
Qed.

Lemma length_conf_fold (tn : list Z) (L : list (nat * nat * Z))
    (C : matrix float64) :
  length (fold_left (conf_step sqrt64 tn) L C) = length C.
Proof.
  revert C. induction L as [|[[i j] v] L IH]; intros C; simpl; [done |].
  rewrite IH. unfold set_entry. apply length_alter.
Qed.

Lemma length_confidence (tn : list Z) (M : matrix Z) :
  length (confidence sqrt64 tn M) = length M.
Proof.
  unfold confidence. rewrite length_conf_fold, !length_map.
  unfold Flow. by rewrite length_map, !length_seq.
Qed.

(** What [transitions_conf] holds at each position after the loop. *)
Lemma entry_confidence (tn : list Z) (M : matrix Z) i j :
  let n := length M in
  let F := getZ (Flow M) i j in
  entry (confidence sqrt64 tn M) i j
  = if decide (i < n ∧ j < n)%nat
    then Some (if decide (F = 0%Z) then Fin (inject_Z F)
               else conf_value sqrt64 tn i j F)
    else None.
Proof.
  intros n F. unfold confidence.
  rewrite (conf_fold _ (getZ (Flow M))).
  2:{ intros i' j' v [He _]%elem_of_tocoo. unfold getZ.
      unfold entry in He. by rewrite He. }
  rewrite entry_map. fold F.
  assert (HF : entry (Flow M) i j
               = if decide (i < n ∧ j < n)%nat then Some F else None).
  { rewrite entry_Flow. fold n.
    case_decide; [|done]. unfold F.
    rewrite (getZ_entry (Flow M)), entry_Flow.
    fold n. by rewrite decide_True. }
  rewrite HF. case_decide; simpl; [|done]. f_equal.
  destruct (decide (F = 0%Z)) as [E0|Hne].
  - rewrite decide_False; [done |]. intros [_ ?]%elem_of_tocoo. done.
  - rewrite decide_True; [done |]. apply elem_of_tocoo. by rewrite HF.
Qed.

Lemma transitions_conf_closed (a : adata) :
  transitions_conf sqrt64 a
  = match nonzero (vgraph a) with
    | [] => Raise KeyError
    | _ => Ok (confidence sqrt64 (total_n a) (coarse_counts a))
    end.
Proof.
  unfold transitions_conf. rewrite CoarseGraph_closed.
  by destruct (nonzero (vgraph a)).
Qed.

End NormalizerLoop.

(** ** int64 arithmetic within its range *)

Lemma wrap64_small (z : Z) :
  (- 2 ^ 63 ≤ z < 2 ^ 63)%Z → wrap64 z = z.
Proof.
  intros Hz. unfold wrap64.
  assert (H63 : (2 ^ 63 = 9223372036854775808)%Z) by done.
  assert (H64 : (2 ^ 64 = 2 * 9223372036854775808)%Z) by done.
  rewrite Z.mod_small; lia.
Qed.

Lemma ExpectedTotal_small (a : adata) i :
  no_overflow a → (0 ≤ ExpectedTotal a i ≤ 3037000499)%Z.
Proof.
  intros Ho. unfold ExpectedTotal.
  destruct (group_sizes a !! i) as [s|] eqn:E.
  - eapply Forall_lookup_1 in Ho; [|exact E]. exact Ho.
  - change (default 0%nat None) with 0%nat. lia.
Qed.

Lemma total_n_lookup (a : adata) i :
  no_overflow a → default 0%Z (total_n a !! i) = ExpectedTotal a i.
Proof.
  intros Ho. pose proof (ExpectedTotal_small a i Ho) as Hs.
  unfold total_n, ExpectedTotal in *.
  change (map ?f ?l !! i) with ((f <$> l) !! i). rewrite list_lookup_fmap.
  destruct (group_sizes a !! i) as [s|]; [|simpl; lia].
  change (default 0%nat (Some s)) with s in *.
  set (x := (n_neighbors a * Z.of_nat s)%Z) in *.
  change (wrap64 (wrap64 x * 2) = (x * 2)%Z).
  assert (H63 : (2 ^ 63 = 9223372036854775808)%Z) by done.
  rewrite (wrap64_small x) by lia.
  apply wrap64_small. lia.
Qed.

Lemma ExpectedTotal_product_small (a : adata) i j :
  no_overflow a →
  (0 ≤ ExpectedTotal a i * ExpectedTotal a j < 2 ^ 63)%Z.
Proof.
  intros Ho. pose proof (ExpectedTotal_small a i Ho) as Hi.
  pose proof (ExpectedTotal_small a j Ho) as Hj.
  split; [apply Z.mul_nonneg_nonneg; lia |].
  apply Z.le_lt_trans with (3037000499 * 3037000499)%Z; [|done].
  apply Z.mul_le_mono_nonneg; lia.
Qed.

Lemma ExpectedTotal_product_nonneg (a : adata) i j :
  (0 ≤ ExpectedTotal a i * ExpectedTotal a j)%Z.
Proof.
  unfold ExpectedTotal.
  set (x := Z.of_nat (default 0%nat (group_sizes a !! i))).
  set (y := Z.of_nat (default 0%nat (group_sizes a !! j))).
  replace (n_neighbors a * x * 2 * (n_neighbors a * y * 2))%Z
    with ((n_neighbors a * n_neighbors a) * (4 * (x * y)))%Z by ring.
  apply Z.mul_nonneg_nonneg; [apply Z.square_nonneg |].
  assert (0 ≤ x * y)%Z by (apply Z.mul_nonneg_nonneg; lia). lia.
Qed.

(** A non-zero net flow between two groups needs an edge between them, so
    both groups have cells. *)
Lemma flow_nonzero_groups (a : adata) i j :
  well_shaped a → getZ (Flow (coarse_counts a)) i j ≠ 0%Z →
  ∃ si sj, group_sizes a !! i = Some si ∧ group_sizes a !! j = Some sj ∧
           (1 ≤ si)%nat ∧ (1 ≤ sj)%nat.
Proof.
  intros Hw HF. rewrite getZ_entry, entry_Flow in HF.
  case_decide as Hr; [|done]. simpl in HF.
  assert (Hc : ∃ e, e ∈ nonzero (vgraph a) ∧
                 ((group_of a e.1 = i ∧ group_of a e.2 = j) ∨
                  (group_of a e.1 = j ∧ group_of a e.2 = i))).
  { rewrite !getZ_coarse_counts in HF.
    destruct (crossing a i j) as [|e l] eqn:E1.
    - destruct (crossing a j i) as [|e l] eqn:E2.
      + repeat case_decide; simpl in HF; lia.
      + exists e.
        assert (He : e ∈ crossing a j i) by (rewrite E2; apply list_elem_of_here).
        apply list_elem_of_filter in He as [[= -> ->] ?]. auto.
    - exists e.
      assert (He : e ∈ crossing a i j) by (rewrite E1; apply list_elem_of_here).
      apply list_elem_of_filter in He as [[= -> ->] ?]. auto. }
  destruct Hc as ([u v] & Hin & Hg).
  apply vgraph_edge_in_range in Hin as [Hu Hv]; [|done].
  destruct (group_of_cell a u Hu) as (_ & su & Hsu & ?).
  destruct (group_of_cell a v Hv) as (_ & sv & Hsv & ?).
  simpl in Hg. destruct Hg as [[<- <-]|[<- <-]]; eauto 10.
Qed.

Section NormalizerFacts.

Variable sqrt64 : Z → Q.
Hypothesis sqrt64_pos : ∀ n, (0 < n)%Z → 0 < sqrt64 n.

Lemma np_sqrt_cases (n : Z) :
  (0 ≤ n)%Z →
  (n = 0%Z ∧ np_sqrt sqrt64 n = Fin 0) ∨
  ((0 < n)%Z ∧ np_sqrt sqrt64 n = Fin (sqrt64 n) ∧ 0 < sqrt64 n).
Proof.
  intros Hn. unfold np_sqrt.
  destruct (n <? 0)%Z eqn:E1; [apply Z.ltb_lt in E1; lia |].
  destruct (n =? 0)%Z eqn:E2.
  - apply Z.eqb_eq in E2. auto.
  - apply Z.eqb_neq in E2. right.
    split; [lia | split; [done | apply sqrt64_pos; lia]].
Qed.

Lemma np_divide_pos (x d : Q) :
  0 < d → np_divide x (Fin d) = Fin (x / d).
Proof.
  intros Hd. unfold np_divide. destruct (Qeq_bool d 0) eqn:E; [|done].
  apply Qeq_bool_iff in E. lra.
Qed.

Lemma inject_Z_pos (v : Z) : (0 < v)%Z → 0 < inject_Z v.
Proof. intros Hv. unfold Qlt. simpl. lia. Qed.

(** Within the range of int64 the divisor is the square root of the
    exact product. *)
Lemma reference_exact (a : adata) i j :
  no_overflow a →
  reference sqrt64 (total_n a) i j
  = np_sqrt sqrt64 (ExpectedTotal a i * ExpectedTotal a j).
Proof.
  intros Ho. unfold reference. rewrite !total_n_lookup by done.
  rewrite wrap64_small; [done |].
  pose proof (ExpectedTotal_product_small a i j Ho). lia.
Qed.

Lemma conf_value_nonneg (a : adata) i j v :
  no_overflow a → v ≠ 0%Z → f64_nonneg (conf_value sqrt64 (total_n a) i j v).
Proof.
  intros Ho Hv. unfold conf_value. destruct (v <? 0)%Z eqn:E; [simpl; lra |].
  apply Z.ltb_ge in E. rewrite reference_exact by done.
  destruct (np_sqrt_cases _ (ExpectedTotal_product_nonneg a i j))
    as [[_ ->]|(_ & -> & Hpos)].
  - simpl. destruct (Qltb 0 (inject_Z v)) eqn:E1; [done |].
    apply Qltb_nlt in E1. exfalso. apply E1, inject_Z_pos. lia.
  - rewrite np_divide_pos by done. simpl.
    apply Qle_shift_div_l; [done |].
    assert (0 <= inject_Z v) by (unfold Qle; simpl; lia). lra.
Qed.

End NormalizerFacts.
(** ** The threshold: column maxima and their minimum *)

Lemma div_by_positive_pos x : 0 < x → div_by_positive x = Fin x.
Proof. intros H. unfold div_by_positive. apply Qltb_lt in H. by rewrite H. Qed.

Lemma div_by_positive_nonpos x :
  ¬ 0 < x → div_by_positive x = NaN ∨ div_by_positive x = NInf.
Proof.
  intros H. unfold div_by_positive. apply Qltb_nlt in H. rewrite H.
  destruct (Qltb x 0); auto.
Qed.

Lemma div_by_positive_zero x : ¬ 0 < x → 0 <= x → div_by_positive x = NaN.
Proof.
  intros H1 H2. unfold div_by_positive. apply Qltb_nlt in H1. rewrite H1.
  destruct (Qltb x 0) eqn:E; [|done]. apply Qltb_lt in E. lra.
Qed.

(** [fmax] of two entries keeps one of them, and never a smaller positive
    one. *)
Lemma fmax_div_by_positive x y :
  (fmax (div_by_positive x) (div_by_positive y) = div_by_positive x ∧
   (0 < y → y <= x)) ∨
  (fmax (div_by_positive x) (div_by_positive y) = div_by_positive y ∧
   (0 < x → x <= y)).
Proof.
  unfold div_by_positive.
  destruct (Qltb 0 x) eqn:Hx, (Qltb 0 y) eqn:Hy;
    [apply Qltb_lt in Hx, Hy
    |apply Qltb_lt in Hx; apply Qltb_nlt in Hy
    |apply Qltb_nlt in Hx; apply Qltb_lt in Hy
    |apply Qltb_nlt in Hx, Hy].
  - simpl. destruct (Qle_bool x y) eqn:E.
    + right. split; [done |]. intros _. by apply Qle_bool_iff.
    + left. split; [done |]. intros _.
      assert (¬ x <= y) by (rewrite <- Qle_bool_iff; congruence). lra.
  - left. split; [|tauto]. by destruct (Qltb y 0).
  - right. split; [|tauto]. by destruct (Qltb x 0).
  - destruct (Qltb x 0), (Qltb y 0); simpl; tauto.
Qed.

Lemma colmax_lookup (rs : matrix Q) (acc : list float64) k m0 :
  acc !! k = Some (div_by_positive m0) →
  Forall (λ r, length r = length acc) rs →
  ∃ m, fold_left (zip_with fmax) (map (map div_by_positive) rs) acc !! k
       = Some (div_by_positive m) ∧
       (m = m0 ∨ ∃ r, r ∈ rs ∧ r !! k = Some m) ∧
       (0 < m0 → m0 <= m) ∧
       (∀ r y, r ∈ rs → r !! k = Some y → 0 < y → y <= m).
Proof.
  revert acc m0. induction rs as [|r1 rs IH]; intros acc m0 Hk HF; simpl.
  - exists m0. split; [done |]. split; [auto |]. split; [intros; lra |].
    intros ? ? Hin. inversion Hin.
  - apply Forall_cons in HF as [HL HF].
    destruct (lookup_lt_is_Some_2 r1 k) as [y1 Hy1].
    { rewrite HL. by eapply lookup_lt_Some. }
    assert (Hstep : zip_with fmax acc (map div_by_positive r1) !! k
              = Some (fmax (div_by_positive m0) (div_by_positive y1))).
    { rewrite lookup_zip_with, Hk. simpl.
      change (map ?f r1 !! k) with ((f <$> r1) !! k).
      rewrite list_lookup_fmap, Hy1. done. }
    assert (HF' : Forall (λ r, length r = length (zip_with fmax acc (map div_by_positive r1))) rs).
    { rewrite length_zip_with_l_eq; [done |]. by rewrite length_map. }
    destruct (fmax_div_by_positive m0 y1) as [[E Hle]|[E Hle]];
      rewrite E in Hstep;
      destruct (IH _ _ Hstep HF') as (m & Hm & Hfrom & Hge0 & Hge);
      exists m; (split; [done |]).
    + split; [|split].
      * destruct Hfrom as [->|(r & ? & ?)]; [auto |].
        right. exists r. split; [by apply list_elem_of_further | done].
      * done.
      * intros r y [->|Hin]%elem_of_cons Hy Hpos.
        -- assert (y = y1) as -> by congruence.
           specialize (Hle Hpos). assert (0 < m0) by lra.
           specialize (Hge0 H). lra.
        -- eauto.
    + split; [|split].
      * destruct Hfrom as [->|(r & ? & ?)].
        -- right. exists r1. split; [apply list_elem_of_here | done].
        -- right. exists r. split; [by apply list_elem_of_further | done].
      * intros Hpos. specialize (Hle Hpos). assert (0 < y1) by lra.
        specialize (Hge0 H). lra.
      * intros r y [->|Hin]%elem_of_cons Hy Hpos.
        -- assert (y = y1) as -> by congruence. auto.
        -- eauto.
Qed.

Lemma length_fold_zip_with {A} (f : A → A → A) (rs : matrix A) acc :
  Forall (λ r, length r = length acc) rs →
  length (fold_left (zip_with f) rs acc) = length acc.
Proof.
  revert acc. induction rs as [|r rs IH]; intros acc HF; [done |].
  apply Forall_cons in HF as [HL HF]. simpl.
  rewrite IH; rewrite length_zip_with_l_eq; auto.
Qed.

(** The minimum of finite column maxima is one of them and below all. *)
Lemma fmin_fold_finite (xs : list float64) m0 :
  Forall is_finite xs →
  ∃ m, fold_left fmin xs (Fin m0) = Fin m ∧
       (m = m0 ∨ Fin m ∈ xs) ∧ m <= m0 ∧ ∀ y, Fin y ∈ xs → m <= y.
Proof.
  revert m0. induction xs as [|x xs IH]; intros m0 HF; simpl.
  - exists m0. split; [done |]. split; [auto |]. split; [lra |].
    intros y Hy. inversion Hy.
  - apply Forall_cons in HF as [Hx HF]. destruct x as [q| | |]; try done.
    simpl. destruct (Qle_bool m0 q) eqn:E.
    + apply Qle_bool_iff in E.
      destruct (IH m0 HF) as (m & Hm & Hfrom & Hle & Hall).
      exists m. split; [done |]. split; [|split; [done |]].
      * destruct Hfrom; [auto | right; by apply list_elem_of_further].
      * intros y [[= ->]|Hy]%elem_of_cons; [lra | auto].
    + assert (¬ m0 <= q) by (rewrite <- Qle_bool_iff; congruence).
      destruct (IH q HF) as (m & Hm & Hfrom & Hle & Hall).
      exists m. split; [done |]. split; [|split; [lra |]].
      * right. destruct Hfrom as [->|?];
          [apply list_elem_of_here | by apply list_elem_of_further].
      * intros y [[= ->]|Hy]%elem_of_cons; [lra | auto].
Qed.

Lemma fmin_fold_nan (xs : list float64) :
  Forall (λ x, x = NaN) xs → fold_left fmin xs NaN = NaN.
Proof.
  induction xs as [|x xs IH]; intros HF; [done |].
  apply Forall_cons in HF as [-> HF]. simpl. auto.
Qed.

Lemma fmin_fold_undefined (xs : list float64) acc :
  Forall (λ x, x = NaN ∨ x = NInf) xs → acc = NaN ∨ acc = NInf →
  fold_left fmin xs acc = NaN ∨ fold_left fmin xs acc = NInf.
Proof.
  revert acc. induction xs as [|x xs IH]; intros acc HF Hacc; [done |].
  apply Forall_cons in HF as [Hx HF]. simpl. apply IH; [done |].
  destruct Hacc as [->| ->], Hx as [->| ->]; simpl; auto.
Qed.

(** The column maxima of [df.values / (df.values > 0)], where the columns of
    [df.values] are the columns [σ 0], [σ 1], ... of [T]. *)
Lemma colmax_of_columns (T : matrix Q) K C (sel : list Q → list Q)
    (σ : nat → nat) :
  square K T → (0 < K)%nat →
  (∀ r k, sel r !! k = r !! σ k) →
  (∀ r, length r = K → length (sel r) = C) →
  (∀ k, (k < C)%nat → (σ k < K)%nat) →
  ∃ cm, nanmax_axis0 (map (map div_by_positive) (map sel T)) = Ok cm ∧
        length cm = C ∧
        ∀ k, (k < C)%nat →
          ∃ i, (i < K)%nat ∧
               cm !! k = Some (div_by_positive (get T i (σ k))) ∧
               ∀ i', (i' < K)%nat → 0 < get T i' (σ k) →
                     get T i' (σ k) <= get T i (σ k).
Proof.
  intros HT HK Hsel Hlen Hσ.
  destruct T as [|r0 rs]; [destruct HT; simpl in *; lia |].
  destruct HT as [HL HF]. apply Forall_cons in HF as [HL0 HFrs].
  simpl in HL.
  assert (Hget : ∀ r k, length r = K → (k < C)%nat →
            sel r !! k = Some (default 0 (r !! σ k))).
  { intros r k Hr Hk. rewrite Hsel.
    destruct (lookup_lt_is_Some_2 r (σ k)) as [x Hx]; [rewrite Hr; auto |].
    by rewrite Hx. }
  simpl. eexists. split; [done |].
  set (rs' := map sel rs).
  set (acc := map div_by_positive (sel r0)).
  assert (Hacc : length acc = C) by (unfold acc; rewrite length_map; auto).
  assert (HF' : Forall (λ r, length r = length acc) rs').
  { rewrite Hacc. unfold rs'. apply Forall_forall. intros r Hr.
    change (map sel rs) with (sel <$> rs) in Hr.
    apply list_elem_of_fmap in Hr as (r' & -> & Hr').
    apply Hlen. eapply Forall_forall in HFrs; eauto. }
  split.
  { rewrite length_fold_zip_with; [done |].
    apply Forall_forall. intros r Hr.
    change (map ?f rs') with (f <$> rs') in Hr.
    apply list_elem_of_fmap in Hr as (r' & -> & Hr').
    rewrite length_map. eapply Forall_forall in HF'; eauto. }
  intros k Hk.
  assert (Hk0 : acc !! k = Some (div_by_positive (get (r0 :: rs) 0 (σ k)))).
  { unfold acc. change (map ?f ?l !! k) with ((f <$> l) !! k).
    rewrite list_lookup_fmap, (Hget r0 k HL0 Hk). done. }
  destruct (colmax_lookup rs' acc k _ Hk0 HF') as (m & Hm & Hfrom & Hge0 & Hge).
  assert (Htail : ∀ i, (S i < K)%nat →
            ∃ r, rs !! i = Some r ∧ sel r ∈ rs' ∧
                 sel r !! k = Some (get (r0 :: rs) (S i) (σ k))).
  { intros i Hi. destruct (lookup_lt_is_Some_2 rs i) as [r Hr]; [lia |].
    exists r. split; [done |]. split.
    - unfold rs'. change (map sel rs) with (sel <$> rs).
      apply list_elem_of_fmap. exists r. split; [done |].
      by eapply list_elem_of_lookup_2.
    - rewrite Hget; [|eapply Forall_lookup_1 in HFrs; eauto | done].
      unfold get. simpl. by rewrite Hr. }
  assert (Hi : ∃ i, (i < K)%nat ∧ m = get (r0 :: rs) i (σ k)).
  { destruct Hfrom as [->|(r & Hr & Hrk)]; [exists 0%nat; split; [lia | done] |].
    unfold rs' in Hr. change (map sel rs) with (sel <$> rs) in Hr.
    apply list_elem_of_fmap in Hr as (r' & -> & Hr').
    apply list_elem_of_lookup in Hr' as [i Hi].
    assert (S i < K)%nat by (apply lookup_lt_Some in Hi; lia).
    destruct (Htail i) as (r & Hr & _ & Hrk'); [done |].
    exists (S i). split; [done |]. congruence. }
  destruct Hi as (i & Hi & ->). exists i. split; [done |]. split; [done |].
  intros [|i'] Hi' Hpos; [auto |].
  destruct (Htail i' Hi') as (r & Hr & Hin & Hrk). eauto.
Qed.

(** Which columns [df.values] has: all of them without a root, all but the
    column of the root otherwise. *)
Lemma df_values_columns (a : adata) (T : matrix Q) :
  let K := length (cats a) in
  square K T → NoDup (cats a) →
  (∀ r, root_cells a = Some r → r ∈ cats a) →
  ∃ C sel σ,
    df_values a T = Ok (map sel T) ∧
    (∀ r k, sel r !! k = r !! σ k) ∧
    (∀ r, length r = K → length (sel r) = C) ∧
    (∀ k, (k < C)%nat → non_root a (σ k)) ∧
    (∀ k', non_root a k' → ∃ k, (k < C)%nat ∧ σ k = k').
Proof.
  intros K HT HN Hroot. unfold df_values.
  rewrite (proj2 (square_b_spec (length (cats a)) T) HT). simpl.
  destruct (root_cells a) as [root|] eqn:Er.
  - destruct (list_find (λ c, c = root) (cats a)) as [[c l]|] eqn:Ef.
    + apply list_find_Some in Ef as (Hc & -> & _).
      assert (HcK : (c < K)%nat) by by eapply lookup_lt_Some.
      exists (K - 1)%nat, (delete c),
             (λ k, if decide (k < c)%nat then k else S k).
      split; [done |]. split; [intros; apply list_lookup_delete |].
      split.
      { intros r Hr. rewrite length_delete; [lia |].
        apply lookup_lt_is_Some. lia. }
      split.
      * intros k Hk. unfold non_root. rewrite Er.
        split; [case_decide; fold K; lia |].
        intros E. pose proof (NoDup_lookup _ _ _ _ HN Hc E).
        case_decide; lia.
      * intros k' [Hk' Hne]. rewrite Er in Hne.
        assert (k' ≠ c) by (intros ->; done).
        fold K in Hk'. destruct (decide (k' < c)%nat).
        -- exists k'. split; [lia |]. by rewrite decide_True.
        -- exists (k' - 1)%nat. split; [lia |].
           rewrite decide_False by lia. lia.
    + exfalso. apply list_find_None in Ef.
      specialize (Hroot root eq_refl).
      eapply Forall_forall in Ef; eauto.
  - exists K, id, id. split; [by rewrite List.map_id |].
    split; [done |]. split; [done |]. unfold non_root. split.
    + intros k Hk. split; [done |]. rewrite Er. unfold id. intros E.
      apply lookup_ge_None in E. unfold K in Hk. lia.
    + intros k' [Hk' _]. exists k'. done.
Qed.

(** * Properties *)

(** ** The domination pruner *)

Lemma prune_upto_read_at K (T : matrix Q) i :
  square K T → (i ≤ K)%nat → prune_upto i T = read_at i T.
Proof.
  intros HT Hi. assert (HP : square K (prune T)) by by apply prune_square.
  destruct HT as [HL HF]. destruct HP as [HPL _].
  unfold read_at. apply list_eq. intros a.
  destruct (decide (a < i)%nat).
  - rewrite lookup_app_l by (rewrite length_take; lia).
    rewrite lookup_take_lt by done. unfold prune.
    fold (prune_upto (length T) T).
    rewrite (prune_upto_lookup_lt T (S a) i), (prune_upto_lookup_lt T (S a) (length T))
      by lia. done.
  - rewrite lookup_app_r by (rewrite length_take; lia).
    rewrite length_take, lookup_drop, prune_upto_lookup_ge by lia.
    f_equal. lia.
Qed.

Lemma J_nil_no_positive K (T : matrix Q) i row :
  square K T → T !! i = Some row → J T i = [] → existsb id (gt0 row) = false.
Proof.
  intros HT Hrow HJ. destruct (existsb id (gt0 row)) eqn:E; [|done].
  apply existsb_id_lookup in E as [j Hj].
  apply gt0_lookup in Hj as (c & Hc & Hpos).
  assert (Hin : j ∈ J T i).
  { apply elem_of_J. split.
    - assert (K = length row).
      { destruct HT as [_ HF]. eapply Forall_lookup_1 in HF; eauto. }
      destruct HT as [-> _]. apply lookup_lt_Some in Hc. lia.
    - unfold get. rewrite Hrow. simpl. by rewrite Hc. }
  rewrite HJ in Hin. inversion Hin.
Qed.

(** The rule of one iteration, on the matrix as the iteration finds
    it. *)
Lemma prune_row_domination K (T : matrix Q) i :
  square K T → (i < K)%nat →
  (J T i = [] → prune_row T i = T) ∧
  (∀ k, (k < K)%nat →
     (Indirect T i k = None ↔ J T i = []) ∧
     ∀ m, Indirect T i k = Some m →
          (get T i k < m → get (prune_row T i) i k = 0) ∧
          (¬ get T i k < m → get (prune_row T i) i k = get T i k)).
Proof.
  intros HT Hi. split.
  - intros HJ. destruct (square_lookup K T i HT Hi) as (row & Hrow & _).
    unfold prune_row. rewrite Hrow. simpl.
    by rewrite (J_nil_no_positive K T i row).
  - intros k Hk. rewrite (prune_row_rule K) by done. split.
    + unfold Indirect. destruct (J T i); simpl; split; done.
    + intros m Hm. unfold rule_entry. rewrite Hm. split; intros Hlt.
      * apply Qltb_lt in Hlt. by rewrite Hlt.
      * apply Qltb_nlt in Hlt. by rewrite Hlt.
Qed.

(** C3, as stated, fails when [T] is the matrix the stage receives: on
    [ex_sequential] row 1 reaches the groups 0 and 2, the entry (1,2) = 0.1
    is below [Indirect[2] = min(T[0,2], T[1,0]) = 0.2], and yet the loop
    keeps it, because (0,2) is gone when row 1 is looked at. *)
Lemma domination_rule_not_on_input :
  J ex_sequential 1 = [0; 2]%nat ∧
  Indirect ex_sequential 1 2 = Some (2 # 10) ∧
  get ex_sequential 1 2 < 2 # 10 ∧
  ¬ get (prune ex_sequential) 1 2 == 0.
Proof.
  split; [reflexivity |]. split; [reflexivity |]. split; [reflexivity |].
  intros H. vm_compute in H. discriminate H.
Qed.

(** C3, amended.  The rule holds in every iteration of the loop for the
    matrix [Ti] the iteration reads, whose rows before [i] are already
    pruned and whose row [i] is still that of the input: with [J] the groups
    [j] that row [i] reaches directly ([T[i, j] > 0]) and [Indirect[k]] the
    maximum over [J] of [min(Ti[j, k], T[i, j])], the loop leaves row [i]
    as it is when [J] is empty; otherwise the entry [(i, k)] of the result
    is 0 when [T[i, k] < Indirect[k]] and is [T[i, k]] when not.  An edge
    [i -> j] with [j] in [J] is never below the bound it gives itself. *)
Theorem domination_rule K (T : matrix Q) i :
  square K T → (i < K)%nat →
  let Ti := read_at i T in
  Ti !! i = T !! i ∧
  J Ti i = J T i ∧
  (J T i = [] → prune T !! i = T !! i) ∧
  (∀ k, (k < K)%nat →
     (Indirect Ti i k = None ↔ J T i = []) ∧
     ∀ m, Indirect Ti i k = Some m →
          (get T i k < m → get (prune T) i k = 0) ∧
          (¬ get T i k < m → get (prune T) i k = get T i k)) ∧
  (∀ j, j ∈ J T i → Qmin (get Ti j j) (get T i j) <= get T i j).
Proof.
  intros HT Hi Ti.
  assert (ETi : Ti = prune_upto i T)
    by (symmetry; apply (prune_upto_read_at K); [done | lia]).
  assert (HTi : square K Ti) by (rewrite ETi; by apply prune_upto_square).
  assert (Hrow : Ti !! i = T !! i)
    by (rewrite ETi; by apply prune_upto_lookup_ge).
  assert (Hget : ∀ k, get Ti i k = get T i k)
    by (intros k; unfold get; by rewrite Hrow).
  assert (HJ : J Ti i = J T i).
  { unfold J. destruct HT as [-> _]. destruct HTi as [-> _].
    apply list_filter_iff. intros j. by rewrite Hget. }
  assert (HP : prune T !! i = prune_row Ti i !! i)
    by (rewrite ETi; by apply (prune_lookup K)).
  destruct (prune_row_domination K Ti i HTi Hi) as [Hnil Hrule].
  split; [done |]. split; [done |]. split; [|split].
  - intros E. rewrite HP, Hnil by congruence. done.
  - intros k Hk. destruct (Hrule k Hk) as [Hnone Hsome].
    rewrite HJ in Hnone. split; [done |]. intros m Hm.
    destruct (Hsome m Hm) as [H1 H2].
    assert (E : get (prune T) i k = get (prune_row Ti i) i k)
      by (unfold get; by rewrite HP).
    rewrite E, <- (Hget k). done.
  - intros j _. apply Q.le_min_r.
Qed.

Lemma domination_rule_witness :
  square 4 ex_sequential ∧ (1 < 4)%nat ∧
  (get ex_sequential 1 2 < 0 → get (prune ex_sequential) 1 2 = 0) ∧
  (¬ get ex_sequential 1 2 < 0
   → get (prune ex_sequential) 1 2 = get ex_sequential 1 2).
Proof.
  assert (HT : square 4 ex_sequential)
    by (split; [reflexivity | repeat constructor]).
  assert (Hi : (1 < 4)%nat) by lia.
  split; [exact HT | split; [exact Hi |]].
  destruct (domination_rule 4 ex_sequential 1 HT Hi) as (_ & _ & _ & H & _).
  destruct (H 2%nat) as [_ Hm]; [lia |].
  apply (Hm 0). reflexivity.
Defined.

(** The domination example of the specification: the edge (0,2) = 0.05 is
    below [Indirect[2] = min(0.3, 0.2) = 0.2] and is removed, the edge
    (0,1) = 0.2 stays. *)
Example domination_example :
  Indirect ex_domination 0 2 = Some (2 # 10) ∧
  prune ex_domination = [ [0; 2 # 10; 0]; [0; 0; 3 # 10]; [0; 0; 0] ].
Proof. split; reflexivity. Qed.

(** C2, as stated, fails: on [ex_sequential] the loop keeps the edge (1,2),
    which the rule applied to the matrix as it stood before the loop
    removes, because row 0 has lost its edge to group 2 by the time row 1
    is looked at. *)
Lemma prune_not_order_independent :
  ¬ (∀ i k, get (prune ex_sequential) i k
            == get (prune_readonly ex_sequential) i k).
Proof. intros H. specialize (H 1%nat 2%nat). vm_compute in H. discriminate H. Qed.

(** C2, amended.  Row [i] of the result is the rule applied to the matrix
    that iteration [i] reads: the rows before [i] already pruned, the rows
    from [i] on as they were at entry. *)
Theorem prune_reads_pruned_rows K (T : matrix Q) :
  square K T →
  prune T
  = map (λ i, map (λ k, rule_entry (read_at i T) i k) (seq 0 K)) (seq 0 K).
Proof.
  intros HT. apply (matrix_ext K); [by apply prune_square | |].
  - split; [apply length_tabulate |]. apply Forall_forall. intros r Hr.
    change (map ?f (seq 0 K)) with (f <$> seq 0 K) in Hr.
    apply list_elem_of_fmap in Hr as (i & -> & _).
    by rewrite length_map, length_seq.
  - intros i k Hi Hk.
    assert (E : get (prune T) i k = get (prune_row (prune_upto i T) i) i k).
    { unfold get. by rewrite (prune_lookup K). }
    rewrite E, (prune_row_rule K) by auto using prune_upto_square.
    rewrite (prune_upto_read_at K) by (done || lia).
    symmetry. unfold get at 1.
    change (default 0 (entry (map (λ i, map (λ k, rule_entry (read_at i T) i k)
                                        (seq 0 K)) (seq 0 K)) i k)
            = rule_entry (read_at i T) i k).
    rewrite (entry_tabulate (λ i k, rule_entry (read_at i T) i k)).
    by rewrite decide_True.
Qed.

Lemma prune_reads_pruned_rows_witness :
  square 4 ex_sequential ∧
  prune ex_sequential
  = map (λ i, map (λ k, rule_entry (read_at i ex_sequential) i k) (seq 0 4))
        (seq 0 4).
Proof.
  assert (HT : square 4 ex_sequential)
    by (split; [reflexivity | repeat constructor]).
  split; [exact HT | exact (prune_reads_pruned_rows 4 ex_sequential HT)].
Defined.

(** C4.  A second pruning pass changes nothing. *)
Theorem prune_idempotent K (T : matrix Q) :
  square K T → nonneg T → prune (prune T) = prune T.
Proof.
  intros HT HN. assert (HP : square K (prune T)) by by apply prune_square.
  unfold prune at 1. destruct HP as [-> _].
  fold (prune_upto K (prune T)).
  assert (H : ∀ i, (i ≤ K)%nat → prune_upto i (prune T) = prune T); [|by apply H].
  induction i as [|i IH]; intros Hi; [done |].
  rewrite prune_upto_S, IH by lia. apply (prune_row_fixed K T); auto.
Qed.

Lemma prune_idempotent_witness :
  square 4 ex_sequential ∧ nonneg ex_sequential ∧
  prune (prune ex_sequential) = prune ex_sequential.
Proof.
  assert (HT : square 4 ex_sequential)
    by (split; [reflexivity | repeat constructor]).
  assert (HN : nonneg ex_sequential)
    by (repeat constructor; discriminate).
  split; [exact HT | split; [exact HN |]].
  exact (prune_idempotent 4 ex_sequential HT HN).
Defined.

(** Non-negative entries are needed: on [ex_negative] the first pass raises
    the entry (1,2) from -1 to 0, and only then is the entry (0,2)
    dominated, so a second pass removes it. *)
Example prune_negative_entries :
  prune ex_negative = [ [0; 1; -(1 # 2)]; [1; 0; 0]; [0; 0; 0] ] ∧
  prune (prune ex_negative) = [ [0; 1; 0]; [1; 0; 0]; [0; 0; 0] ].
Proof. split; reflexivity. Qed.

(** C5.  Pruning keeps the shape; every entry of the pruned matrix is the
    entry of the input or exactly 0, is not above the entry of the input,
    and is positive only where the input is. *)
Theorem prune_monotone K (T : matrix Q) :
  square K T → nonneg T →
  square K (prune T) ∧
  ∀ i j, (i < K)%nat → (j < K)%nat →
    (get (prune T) i j = get T i j ∨ get (prune T) i j = 0) ∧
    get (prune T) i j <= get T i j ∧
    (0 < get (prune T) i j → 0 < get T i j).
Proof.
  intros HT HN. split; [by apply prune_square |]. intros i j Hi Hj.
  pose proof (nonneg_get T i j HN).
  destruct (prune_entry K T i j HT Hi Hj) as [[_ ->]|[_ ->]].
  - split; [auto |]. split; [done | lra].
  - split; [auto |]. split; [lra | done].
Qed.

Lemma prune_monotone_witness :
  square 3 ex_domination ∧ nonneg ex_domination ∧
  get (prune ex_domination) 0 2 <= get ex_domination 0 2.
Proof.
  assert (HT : square 3 ex_domination)
    by (split; [reflexivity | repeat constructor]).
  assert (HN : nonneg ex_domination)
    by (repeat constructor; discriminate).
  split; [exact HT | split; [exact HN |]].
  destruct (prune_monotone 3 ex_domination HT HN) as [_ H].
  apply (H 0%nat 2%nat); lia.
Defined.

(** ** Aggregation *)

(** C6, as stated, fails: on [ex_mixed] two entries of the velocity graph
    exceed the cutoff, 0.5 inside group A and 0.7 from A to B; the coarse
    graph holds the single count 1, which is neither the sum 1.2 of the
    weights of the fine edges nor their number. *)
Lemma aggregation_not_weight_conserving :
  ∃ M, CoarseGraph ex_mixed = Ok M ∧
       ¬ (inject_Z (sum_entries M) == fine_weight (velocity_graph ex_mixed)) ∧
       sum_entries M
       ≠ Z.of_nat (length (fine_edges (velocity_graph ex_mixed))).
Proof.
  exists [ [0; 1]; [0; 0] ]%Z. split; [reflexivity |]. split.
  - intros H. vm_compute in H. discriminate H.
  - vm_compute. discriminate.
Qed.

(** C6, amended.  Without masks, and with at least one entry of the
    velocity graph above the cutoff, the aggregation returns a coarse graph
    and the sum of all its entries is the number of fine-graph edges whose
    two cells lie in different groups, the fine-graph edges being the
    entries of the velocity graph above the cutoff: each of them adds 1 to
    one ordered pair of groups. *)
Theorem aggregation_counts_edges_between_groups (a : adata) :
  well_shaped a → final_cells a = None → root_cells a = None →
  fine_edges (velocity_graph a) ≠ [] →
  ∃ M, CoarseGraph a = Ok M ∧
       sum_entries M
       = Z.of_nat (length (filter (λ e, group_of a e.1 ≠ group_of a e.2)
                                  (fine_edges (velocity_graph a)))).
Proof.
  intros Hw Hf Hr Hne.
  assert (E : nonzero (vgraph a) = fine_edges (velocity_graph a))
    by (unfold fine_edges, vgraph; by rewrite Hf, Hr).
  exists (coarse_counts a). split.
  - apply CoarseGraph_ok. by rewrite E.
  - rewrite (coarse_total a Hw). unfold between_groups. by rewrite E.
Qed.

Lemma aggregation_counts_edges_between_groups_witness :
  well_shaped ex_mixed ∧ final_cells ex_mixed = None ∧
  root_cells ex_mixed = None ∧ fine_edges (velocity_graph ex_mixed) ≠ [] ∧
  ∃ M, CoarseGraph ex_mixed = Ok M ∧
       sum_entries M
       = Z.of_nat (length (filter (λ e, group_of ex_mixed e.1 ≠ group_of ex_mixed e.2)
                                  (fine_edges (velocity_graph ex_mixed)))).
Proof.
  assert (Hw : well_shaped ex_mixed)
    by (split; [reflexivity | repeat constructor]).
  assert (Hne : fine_edges (velocity_graph ex_mixed) ≠ [])
    by (vm_compute; discriminate).
  split; [exact Hw | split; [reflexivity | split; [reflexivity |]]].
  split; [exact Hne |].
  exact (aggregation_counts_edges_between_groups ex_mixed Hw eq_refl eq_refl Hne).
Defined.

(** C7.  On [ex_sink] the only fine-graph edge leaves a cell of the final
    group, the mask removes it, and the method does not return a coarse
    graph of total weight zero: the graph built from the empty [vgraph] has
    no ['weight'] attribute, and the lookup of the attribute at line 44
    raises a KeyError before the branch for a graph without edges (lines
    50-53) is reached. *)
Theorem masked_sink_edge_raises :
  fine_edges (velocity_graph ex_sink) = [(1, 0)%nat] ∧
  is_final ex_sink 1 = true ∧
  nonzero (vgraph ex_sink) = [] ∧
  es_weight (get_igraph_from_adjacency (vgraph ex_sink) true) = None ∧
  CoarseGraph ex_sink = Raise KeyError.
Proof. repeat split; reflexivity. Qed.

(** ** Confidence *)

Lemma isqrt_pos n : (0 < n)%Z → 0 < isqrt n.
Proof. intros Hn. apply inject_Z_pos. by apply Z.sqrt_pos. Qed.

Lemma no_overflow_small (a : adata) :
  (0 ≤ n_neighbors a)%Z →
  (n_neighbors a * Z.of_nat (length (codes a)) * 2 ≤ 3037000499)%Z →
  no_overflow a.
Proof.
  intros Hn Hs. apply Forall_forall. intros s Hin.
  unfold group_sizes, sizes in Hin.
  change (map ?f ?l) with (f <$> l) in Hin.
  apply list_elem_of_fmap in Hin as (c & -> & _).
  pose proof (length_filter (λ x, x = c) (codes a)) as Hle.
  split; [apply Z.mul_nonneg_nonneg; [apply Z.mul_nonneg_nonneg|]; lia |].
  apply Z.le_trans with (n_neighbors a * Z.of_nat (length (codes a)) * 2)%Z;
    [|done].
  apply Z.mul_le_mono_nonneg_r; [lia |].
  apply Z.mul_le_mono_nonneg_l; lia.
Qed.

Section Confidence.

Variable sqrt64 : Z → Q.
Hypothesis sqrt64_pos : ∀ n, (0 < n)%Z → 0 < sqrt64 n.

Lemma reference_pos (a : adata) i j :
  well_shaped a → (1 ≤ n_neighbors a)%Z → no_overflow a →
  getZ (Flow (coarse_counts a)) i j ≠ 0%Z →
  (0 < ExpectedTotal a i * ExpectedTotal a j)%Z ∧
  reference sqrt64 (total_n a) i j
  = Fin (sqrt64 (ExpectedTotal a i * ExpectedTotal a j)) ∧
  0 < sqrt64 (ExpectedTotal a i * ExpectedTotal a j).
Proof.
  intros Hw Hn Ho HF.
  destruct (flow_nonzero_groups a i j Hw HF) as (si & sj & Hi & Hj & ? & ?).
  assert (Hp : (0 < ExpectedTotal a i * ExpectedTotal a j)%Z).
  { unfold ExpectedTotal. rewrite Hi, Hj.
    change (default 0%nat (Some si)) with si.
    change (default 0%nat (Some sj)) with sj.
    assert (0 < n_neighbors a * Z.of_nat si)%Z by (apply Z.mul_pos_pos; lia).
    assert (0 < n_neighbors a * Z.of_nat sj)%Z by (apply Z.mul_pos_pos; lia).
    apply Z.mul_pos_pos; lia. }
  split; [done |]. rewrite reference_exact by done.
  destruct (np_sqrt_cases sqrt64 sqrt64_pos _ (Z.lt_le_incl _ _ Hp))
    as [[E _]|(_ & E & Hpos)]; [lia | done].
Qed.

(** Under the shape check, with a neighbor count of at least 1 and within
    the range of int64, the normaliser hands a square array of non-negative
    finite values to the pruner. *)
Lemma confidence_dense (a : adata) :
  well_shaped a → (1 ≤ n_neighbors a)%Z → no_overflow a →
  ∃ T0 : matrix Q,
    confidence sqrt64 (total_n a) (coarse_counts a) = map (map Fin) T0 ∧
    square (n_clusters (codes a)) T0 ∧ nonneg T0.
Proof.
  intros Hw Hn Ho. set (n := n_clusters (codes a)).
  set (F := getZ (Flow (coarse_counts a))).
  set (f := λ i j, if decide (F i j = 0%Z) then inject_Z (F i j)
                   else if decide (F i j < 0)%Z then 0
                   else inject_Z (F i j)
                        / sqrt64 (ExpectedTotal a i * ExpectedTotal a j)).
  assert (Hf : ∀ i j, 0 <= f i j).
  { intros i j. unfold f. destruct (decide (F i j = 0%Z)) as [->|Hne];
      [unfold inject_Z, Qle; simpl; lia |].
    destruct (decide (F i j < 0)%Z); [lra |].
    destruct (reference_pos a i j Hw Hn Ho Hne) as (_ & _ & Hpos).
    apply Qle_shift_div_l; [done |].
    assert (0 <= inject_Z (F i j)) by (unfold inject_Z, Qle; simpl; lia). lra. }
  exists (map (λ i, map (λ j, f i j) (seq 0 n)) (seq 0 n)).
  split; [|split].
  - apply matrix_entry_ext.
    + rewrite length_confidence, !length_map, length_seq.
      apply length_coarse_counts.
    + intros i j. rewrite entry_confidence.
      rewrite entry_map, (entry_tabulate f), length_coarse_counts. fold n.
      case_decide; [|done]. simpl. f_equal. unfold f. fold (F i j).
      destruct (decide (F i j = 0%Z)) as [E0|Hne]; [done |].
      unfold conf_value. destruct (decide (F i j < 0)%Z) as [Hlt|Hge].
      * apply Z.ltb_lt in Hlt. by rewrite Hlt.
      * assert (Hge' : (F i j <? 0)%Z = false) by (apply Z.ltb_ge; lia).
        rewrite Hge'.
        destruct (reference_pos a i j Hw Hn Ho Hne) as (_ & -> & Hpos).
        by rewrite np_divide_pos.
  - split; [apply length_tabulate |]. apply Forall_forall. intros r Hr.
    change (map ?g (seq 0 n)) with (g <$> seq 0 n) in Hr.
    apply list_elem_of_fmap in Hr as (i & -> & _).
    by rewrite length_map, length_seq.
  - apply Forall_forall. intros r Hr.
    change (map ?g (seq 0 n)) with (g <$> seq 0 n) in Hr.
    apply list_elem_of_fmap in Hr as (i & -> & _).
    apply Forall_forall. intros x Hx.
    change (map ?g (seq 0 n)) with (g <$> seq 0 n) in Hx.
    apply list_elem_of_fmap in Hx as (j & -> & _). apply Hf.
Qed.

(** C8, amended.  When the aggregation returns a coarse graph, the
    neighbor count is at least 1 and no [total_n[i]] exceeds 3037000499:
    [Flow] is the coarse graph minus its transpose; at every position where
    [Flow] is not zero the confidence is 0 when the flow is negative and the
    flow divided by the square root of [ExpectedTotal[i] * ExpectedTotal[j]]
    otherwise, where [ExpectedTotal[i]] is the neighbor count times the
    size of group [i] times 2; and every entry of the confidence matrix is
    at least 0. *)
Theorem confidence_normalization (a : adata) :
  well_shaped a → (1 ≤ n_neighbors a)%Z → no_overflow a →
  nonzero (vgraph a) ≠ [] →
  ∃ M C, CoarseGraph a = Ok M ∧ transitions_conf sqrt64 a = Ok C ∧
    (∀ i j, (i < length M)%nat → (j < length M)%nat →
            getZ (Flow M) i j = (getZ M i j - getZ M j i)%Z) ∧
    (∀ i j, getZ (Flow M) i j ≠ 0%Z →
            entry C i j
            = Some (if decide (getZ (Flow M) i j < 0)%Z then Fin 0
                    else Fin (inject_Z (getZ (Flow M) i j)
                              / sqrt64 (ExpectedTotal a i
                                        * ExpectedTotal a j)))) ∧
    (∀ i j x, entry C i j = Some x → f64_nonneg x).
Proof.
  intros Hw Hn Ho Hne. set (M := coarse_counts a).
  exists M, (confidence sqrt64 (total_n a) M).
  split; [by apply CoarseGraph_ok |]. split.
  { rewrite transitions_conf_closed. by destruct (nonzero (vgraph a)). }
  split; [|split].
  - intros i j Hi Hj. rewrite (getZ_entry (Flow M)), entry_Flow.
    by rewrite decide_True.
  - intros i j HF. rewrite entry_confidence.
    assert (Hr : (i < length M ∧ j < length M)%nat).
    { rewrite (getZ_entry (Flow M)), entry_Flow in HF. by case_decide. }
    rewrite decide_True by done. f_equal.
    rewrite decide_False by done. unfold conf_value.
    destruct (getZ (Flow M) i j <? 0)%Z eqn:E.
    + apply Z.ltb_lt in E. by rewrite decide_True.
    + apply Z.ltb_ge in E. rewrite decide_False by lia.
      destruct (reference_pos a i j Hw Hn Ho HF) as (_ & -> & Hpos).
      by rewrite np_divide_pos.
  - intros i j x. rewrite entry_confidence.
    case_decide; [|done]. intros [= <-]. case_decide as HF.
    + rewrite HF. unfold f64_nonneg, inject_Z, Qle. simpl. lia.
    + by apply conf_value_nonneg.
Qed.

(** C10, amended.  Under the shape check of the method, when the
    aggregation returns a coarse graph, the neighbor count is at least 1 and
    no [total_n[i]] exceeds 3037000499, every position the loop visits has a
    non-zero flow, both of its groups have at least one cell, and the
    divisor is a positive finite number; so no entry of the confidence
    matrix is NaN or infinite. *)
Theorem normalization_division_defined (a : adata) :
  well_shaped a → (1 ≤ n_neighbors a)%Z → no_overflow a →
  nonzero (vgraph a) ≠ [] →
  ∃ M C, CoarseGraph a = Ok M ∧ transitions_conf sqrt64 a = Ok C ∧
    (∀ i j v, (i, j, v) ∈ tocoo (Flow M) →
       v ≠ 0%Z ∧
       (∃ si sj, group_sizes a !! i = Some si ∧ group_sizes a !! j = Some sj ∧
                 (1 ≤ si)%nat ∧ (1 ≤ sj)%nat) ∧
       (0 < wrap64 (default 0 (total_n a !! i) * default 0 (total_n a !! j)))%Z ∧
       ∃ r, reference sqrt64 (total_n a) i j = Fin r ∧ 0 < r) ∧
    (∀ i j x, entry C i j = Some x → is_finite x).
Proof.
  intros Hw Hn Ho Hne. set (M := coarse_counts a).
  exists M, (confidence sqrt64 (total_n a) M).
  split; [by apply CoarseGraph_ok |]. split.
  { rewrite transitions_conf_closed. by destruct (nonzero (vgraph a)). }
  split.
  - intros i j v [He Hv]%elem_of_tocoo.
    assert (HF : getZ (Flow M) i j ≠ 0%Z).
    { rewrite (getZ_entry (Flow M)), He. done. }
    split; [done |]. split; [by apply flow_nonzero_groups |].
    destruct (reference_pos a i j Hw Hn Ho HF) as (Hp & Hr & Hpos).
    rewrite !total_n_lookup by done. split; [|eauto].
    rewrite wrap64_small; [done |].
    pose proof (ExpectedTotal_product_small a i j Ho). lia.
  - intros i j x. rewrite entry_confidence.
    case_decide; [|done]. intros [= <-]. case_decide as HF; [done |].
    unfold conf_value.
    destruct (getZ (Flow M) i j <? 0)%Z; [done |].
    destruct (reference_pos a i j Hw Hn Ho HF) as (_ & -> & Hpos).
    by rewrite np_divide_pos.
Qed.

End Confidence.

(** C8, as stated, fails: on [ex_product_negative] the flow from A to B is
    1 and the two totals are 2^31 and 2^32; their product 2^63 is no int64
    and wraps to -2^63, the square root of which is NaN, and the confidence
    stored is NaN: neither the quotient nor at least 0. *)
Lemma confidence_product_wraps :
  CoarseGraph ex_product_negative = Ok [ [0; 1]; [0; 0] ]%Z ∧
  getZ (Flow [ [0; 1]; [0; 0] ]%Z) 0 1 = 1%Z ∧
  (ExpectedTotal ex_product_negative 0 * ExpectedTotal ex_product_negative 1
   = 2 ^ 63)%Z ∧
  ∃ C, transitions_conf isqrt ex_product_negative = Ok C ∧
       entry C 0 1 = Some NaN ∧ ¬ f64_nonneg NaN.
Proof.
  split; [reflexivity |]. split; [reflexivity |].
  split; [reflexivity |].
  exists [ [Fin 0; NaN]; [Fin 0; Fin 0] ].
  split; [reflexivity |]. split; [reflexivity |]. intros [].
Qed.

(** C10, as stated, fails: on [ex_product_zero] the neighbor count is 2^31,
    both totals are 2^32, and their product 2^64 wraps to 0; the loop
    divides the flow 1 by the square root 0 and stores an infinity. *)
Lemma normalization_divides_by_zero :
  well_shaped ex_product_zero ∧ (1 ≤ n_neighbors ex_product_zero)%Z ∧
  CoarseGraph ex_product_zero = Ok [ [0; 1]; [0; 0] ]%Z ∧
  (0, 1, 1%Z)%nat ∈ tocoo (Flow [ [0; 1]; [0; 0] ]%Z) ∧
  reference isqrt (total_n ex_product_zero) 0 1 = Fin 0 ∧
  ∃ C, transitions_conf isqrt ex_product_zero = Ok C ∧
       entry C 0 1 = Some PInf ∧ ¬ is_finite PInf.
Proof.
  split; [split; [reflexivity | repeat constructor] |].
  split; [done |]. split; [reflexivity |]. split; [apply list_elem_of_here |].
  split; [reflexivity |].
  exists [ [Fin 0; PInf]; [Fin 0; Fin 0] ].
  split; [reflexivity |]. split; [reflexivity |]. intros [].
Qed.

Lemma no_overflow_ex_mixed : no_overflow ex_mixed.
Proof. apply no_overflow_small; simpl; lia. Qed.

Lemma confidence_normalization_witness :
  (∀ n, (0 < n)%Z → 0 < isqrt n) ∧ well_shaped ex_mixed ∧
  (1 ≤ n_neighbors ex_mixed)%Z ∧ no_overflow ex_mixed ∧
  nonzero (vgraph ex_mixed) ≠ [] ∧
  ∃ M C, CoarseGraph ex_mixed = Ok M ∧
         transitions_conf isqrt ex_mixed = Ok C ∧
         entry C 0 1 = Some (Fin (1 / isqrt (120 * 60))).
Proof.
  assert (Hw : well_shaped ex_mixed)
    by (split; [reflexivity | repeat constructor]).
  assert (Hn : (1 ≤ n_neighbors ex_mixed)%Z) by (simpl; lia).
  assert (Hne : nonzero (vgraph ex_mixed) ≠ []) by (vm_compute; discriminate).
  split; [exact isqrt_pos | split; [exact Hw | split; [exact Hn |]]].
  split; [exact no_overflow_ex_mixed |]. split; [exact Hne |].
  destruct (confidence_normalization isqrt isqrt_pos ex_mixed Hw Hn
              no_overflow_ex_mixed Hne) as (M & C & HM & HC & _ & H & _).
  exists M, C. split; [exact HM |]. split; [exact HC |].
  assert (EM : M = [ [0; 1]; [0; 0] ]%Z)
    by (assert (Ok M = Ok [ [0; 1]; [0; 0] ]%Z) as [= ->] by (by rewrite <- HM);
        reflexivity).
  subst M. apply (H 0%nat 1%nat). discriminate.
Defined.

Lemma normalization_division_defined_witness :
  (∀ n, (0 < n)%Z → 0 < isqrt n) ∧ well_shaped ex_mixed ∧
  (1 ≤ n_neighbors ex_mixed)%Z ∧ no_overflow ex_mixed ∧
  nonzero (vgraph ex_mixed) ≠ [] ∧
  ∃ C, transitions_conf isqrt ex_mixed = Ok C ∧
       ∀ i j x, entry C i j = Some x → is_finite x.
Proof.
  assert (Hw : well_shaped ex_mixed)
    by (split; [reflexivity | repeat constructor]).
  assert (Hn : (1 ≤ n_neighbors ex_mixed)%Z) by (simpl; lia).
  assert (Hne : nonzero (vgraph ex_mixed) ≠ []) by (vm_compute; discriminate).
  split; [exact isqrt_pos | split; [exact Hw | split; [exact Hn |]]].
  split; [exact no_overflow_ex_mixed |]. split; [exact Hne |].
  destruct (normalization_division_defined isqrt isqrt_pos ex_mixed Hw Hn
              no_overflow_ex_mixed Hne) as (M & C & _ & HC & _ & H).
  exists C. split; [exact HC | exact H].
Defined.

(** On [ex_mixed] one edge leads from A to B: the flow is 1 from A to B and
    -1 back, the group sizes are 2 and 1, and with the integer square root
    the confidence of A -> B is 1 / isqrt (120 * 60) = 1/84. *)
Example confidence_example :
  CoarseGraph ex_mixed = Ok [ [0; 1]; [0; 0] ]%Z ∧
  Flow [ [0; 1]; [0; 0] ]%Z = [ [0; 1]; [-1; 0] ]%Z ∧
  total_n ex_mixed = [120; 60]%Z ∧
  transitions_conf isqrt ex_mixed
  = Ok [ [Fin 0; Fin (1 # 84)]; [Fin 0; Fin 0] ].
Proof. repeat split; reflexivity. Qed.

(** ** Threshold *)

Lemma threshold_unfold (a : adata) (T values : matrix Q) cm :
  df_values a T = Ok values →
  nanmax_axis0 (map (map div_by_positive) values) = Ok cm →
  threshold a T
  = match nanmin cm with Ok m => Ok (sub_eps m) | Raise e => Raise e end.
Proof.
  intros Hv Hc. unfold threshold. rewrite Hv. simpl. rewrite Hc. simpl.
  by destruct (nanmin cm).
Qed.

(** C1.  When every group but the root has a strictly positive entry in its
    column, the threshold is a number: the smallest of the column maxima of
    these groups, less 1e-6; and in every such column an edge is left after
    all entries strictly below the threshold are discarded. *)
Theorem threshold_keeps_incoming_edge (a : adata) (T : matrix Q) :
  let K := length (cats a) in
  square K T → NoDup (cats a) →
  (∀ r, root_cells a = Some r → r ∈ cats a) →
  (∀ k, non_root a k → ∃ i, 0 < get T i k) →
  (∃ k, non_root a k) →
  ∃ th, threshold a T = Ok (Fin th) ∧
        (∃ i0 k0, non_root a k0 ∧ th = get T i0 k0 - eps ∧
                  (∀ i, (i < K)%nat → get T i k0 <= get T i0 k0) ∧
                  ∀ k, non_root a k →
                       ∃ i, (i < K)%nat ∧ get T i0 k0 <= get T i k) ∧
        ∀ k, non_root a k →
             ∃ i, (i < K)%nat ∧ 0 < get T i k ∧ ¬ get T i k < th.
Proof.
  intros K HT HN Hroot Hpos [kw Hkw].
  destruct (df_values_columns a T HT HN Hroot)
    as (C & sel & σ & Hdf & Hsel & Hlen & Hσ & Hsurj).
  fold K in Hlen.
  assert (HK : (0 < K)%nat) by (destruct Hkw; unfold K; lia).
  assert (HσK : ∀ k, (k < C)%nat → (σ k < K)%nat) by (intros; by apply Hσ).
  destruct (colmax_of_columns T K C sel σ HT HK Hsel Hlen HσK)
    as (cm & Hcm & HcmL & Hcol).
  (* every column maximum is a positive entry of its column *)
  assert (Hfin : ∀ k, (k < C)%nat →
            ∃ i, (i < K)%nat ∧ cm !! k = Some (Fin (get T i (σ k))) ∧
                 0 < get T i (σ k) ∧
                 ∀ i', (i' < K)%nat → get T i' (σ k) <= get T i (σ k)).
  { intros k Hk. destruct (Hcol k Hk) as (i & Hi & Hlk & Hmax).
    destruct (Hpos (σ k) (Hσ k Hk)) as [i' Hi'].
    assert (Hi'K : (i' < K)%nat).
    { destruct (decide (i' < K)%nat); [done |]. exfalso.
      unfold get in Hi'. destruct HT as [HL _].
      rewrite (proj2 (lookup_ge_None T i')) in Hi' by lia.
      simpl in Hi'. lra. }
    pose proof (Hmax i' Hi'K Hi') as Hle.
    assert (Hp : 0 < get T i (σ k)) by lra.
    exists i. rewrite Hlk, (div_by_positive_pos _ Hp).
    split; [done |]. split; [done |]. split; [done |].
    intros i'' Hi''. destruct (Qlt_le_dec 0 (get T i'' (σ k))); [auto | lra]. }
  assert (HFin : Forall is_finite cm).
  { apply Forall_lookup. intros k x Hx.
    assert (Hk : (k < C)%nat) by (rewrite <- HcmL; by eapply lookup_lt_Some).
    destruct (Hfin k Hk) as (i & _ & Hlk & _). rewrite Hlk in Hx.
    by injection Hx as <-. }
  destruct (Hsurj kw Hkw) as (kc & HkcC & _).
  destruct cm as [|x xs]; [simpl in HcmL; lia |].
  apply Forall_cons in HFin as [Hx HFin].
  destruct x as [m0| | |]; try done.
  destruct (fmin_fold_finite xs m0 HFin) as (m & Hm & Hfrom & Hle0 & Hall).
  assert (Hmin : ∀ y, Fin y ∈ Fin m0 :: xs → m <= y).
  { intros y [[= ->]|Hy]%elem_of_cons; auto. }
  assert (Hmem : Fin m ∈ Fin m0 :: xs).
  { destruct Hfrom as [->|?];
      [apply list_elem_of_here | by apply list_elem_of_further]. }
  exists (m - eps). split.
  { rewrite (threshold_unfold a T _ _ Hdf Hcm). simpl. by rewrite Hm. }
  split.
  - apply list_elem_of_lookup in Hmem as [k0 Hk0].
    assert (Hk0C : (k0 < C)%nat) by (rewrite <- HcmL; by eapply lookup_lt_Some).
    destruct (Hfin k0 Hk0C) as (i0 & Hi0 & Hlk & _ & Hmax).
    rewrite Hlk in Hk0. injection Hk0 as E0.
    exists i0, (σ k0). split; [by apply Hσ |]. split; [by rewrite E0 |].
    split; [done |]. intros k Hk. destruct (Hsurj k Hk) as (kc' & Hkc' & <-).
    destruct (Hfin kc' Hkc') as (i & Hi & Hlk' & _).
    exists i. split; [done |]. rewrite E0. apply Hmin.
    by eapply list_elem_of_lookup_2.
  - intros k Hk. destruct (Hsurj k Hk) as (kc' & Hkc' & <-).
    destruct (Hfin kc' Hkc') as (i & Hi & Hlk' & Hp & _).
    exists i. split; [done |]. split; [done |].
    assert (m <= get T i (σ kc'))
      by (apply Hmin; by eapply list_elem_of_lookup_2).
    unfold eps. lra.
Qed.

Lemma threshold_keeps_incoming_edge_witness :
  square 3 ex_threshold ∧
  ∃ th, threshold ex_groups (prune ex_threshold) = Ok (Fin th) ∧
        ∀ k, non_root ex_groups k →
             ∃ i, (i < 3)%nat ∧ 0 < get (prune ex_threshold) i k ∧
                  ¬ get (prune ex_threshold) i k < th.
Proof.
  assert (HT : square 3 ex_threshold)
    by (split; [reflexivity | repeat constructor]).
  split; [exact HT |].
  assert (HP : square (length (cats ex_groups)) (prune ex_threshold))
    by exact (prune_square 3 ex_threshold HT).
  assert (HN : NoDup (cats ex_groups)).
  { apply (bool_decide_unpack (NoDup (cats ex_groups))). vm_compute. exact I. }
  assert (Hroot : ∀ r, root_cells ex_groups = Some r → r ∈ cats ex_groups).
  { intros r [= <-]. simpl. apply list_elem_of_here. }
  assert (Hpos : ∀ k, non_root ex_groups k →
                      ∃ i, 0 < get (prune ex_threshold) i k).
  { intros [|[|[|k]]] [Hk Hne]; simpl in Hk.
    - exfalso. by apply Hne.
    - exists 0%nat. reflexivity.
    - exists 1%nat. reflexivity.
    - lia. }
  assert (Hex : ∃ k, non_root ex_groups k).
  { exists 1%nat. split; [simpl; lia | discriminate]. }
  destruct (threshold_keeps_incoming_edge ex_groups (prune ex_threshold)
              HP HN Hroot Hpos Hex) as (th & Hth & _ & Hkeep).
  exists th. split; [exact Hth | exact Hkeep].
Defined.

(** The threshold example of the specification, without a root: the column
    maxima are 0.5 and 0.3 and the threshold is 0.3 - 1e-6; with group A as
    the root the result is the same, the column of A being empty. *)
Example threshold_example :
  threshold ex_no_root (prune ex_threshold) = Ok (Fin ((3 # 10) - eps)) ∧
  threshold ex_groups (prune ex_threshold) = Ok (Fin ((3 # 10) - eps)).
Proof. split; reflexivity. Qed.

(** C9.  When no column that is looked at has a strictly positive entry,
    the threshold is not a number: the method stores NaN, or raises where
    there is nothing to take a minimum of or the root is no group; it never
    returns 0 or another finite value. *)
Theorem threshold_undefined (a : adata) (T : matrix Q) :
  let K := length (cats a) in
  square K T → NoDup (cats a) → nonneg T →
  (∀ k i, non_root a k → ¬ 0 < get T i k) →
  (threshold a T = Ok NaN ∨ ∃ e, threshold a T = Raise e) ∧
  (∀ q, threshold a T ≠ Ok (Fin q)) ∧
  ((∃ k, non_root a k) → (∀ r, root_cells a = Some r → r ∈ cats a) →
   threshold a T = Ok NaN).
Proof.
  intros K HT HN HNN Hnone.
  assert (Hmain : (∀ r, root_cells a = Some r → r ∈ cats a) →
            (threshold a T = Ok NaN ∧ ∃ k, non_root a k) ∨
            ((∃ e, threshold a T = Raise e) ∧ ¬ ∃ k, non_root a k)).
  { intros Hroot.
    destruct (df_values_columns a T HT HN Hroot)
      as (C & sel & σ & Hdf & Hsel & Hlen & Hσ & Hsurj).
    fold K in Hlen.
    destruct (decide (0 < K)%nat) as [HK|HK].
    - assert (HσK : ∀ k, (k < C)%nat → (σ k < K)%nat) by (intros; by apply Hσ).
      destruct (colmax_of_columns T K C sel σ HT HK Hsel Hlen HσK)
        as (cm & Hcm & HcmL & Hcol).
      rewrite (threshold_unfold a T _ _ Hdf Hcm).
      assert (HNaN : Forall (λ x, x = NaN) cm).
      { apply Forall_lookup. intros k x Hx.
        assert (Hk : (k < C)%nat) by (rewrite <- HcmL; by eapply lookup_lt_Some).
        destruct (Hcol k Hk) as (i & _ & Hlk & _). rewrite Hlk in Hx.
        injection Hx as <-. apply div_by_positive_zero.
        - by apply Hnone, Hσ.
        - by apply nonneg_get. }
      destruct cm as [|x xs].
      + right. split; [by exists ValueError |]. intros [k Hk].
        destruct (Hsurj k Hk) as (? & ? & _). simpl in HcmL. lia.
      + left. apply Forall_cons in HNaN as [-> HNaN]. simpl.
        rewrite (fmin_fold_nan xs HNaN). split; [done |].
        exists (σ 0%nat). apply Hσ. simpl in HcmL. lia.
    - right. destruct HT as [HL _].
      assert (T = []) as -> by (destruct T; [done | simpl in HL; lia]).
      split.
      + exists ValueError. unfold threshold. rewrite Hdf. done.
      + intros [k [Hk _]]. fold K in Hk. lia. }
  assert (Hcases : threshold a T = Ok NaN ∨ ∃ e, threshold a T = Raise e).
  { destruct (root_cells a) as [r|] eqn:Er.
    - destruct (decide (r ∈ cats a)) as [Hin|Hnin].
      + destruct Hmain as [[? _]|[? _]]; [intros ? [= <-]; done | auto..].
      + right. exists KeyError. unfold threshold, df_values.
        rewrite (proj2 (square_b_spec (length (cats a)) T) HT), Er. simpl.
        destruct (list_find _ (cats a)) as [[c l]|] eqn:Ef; [|done].
        apply list_find_Some in Ef as (Hc & -> & _).
        exfalso. apply Hnin. by eapply list_elem_of_lookup_2.
    - destruct Hmain as [[? _]|[? _]]; [done | auto..]. }
  split; [done |]. split.
  - intros q Hq. destruct Hcases as [H|[e H]]; congruence.
  - intros Hex Hroot. destruct (Hmain Hroot) as [[? _]|[_ ?]]; done.
Qed.

Lemma threshold_undefined_witness :
  square 3 no_edges ∧ nonneg no_edges ∧
  threshold ex_groups no_edges = Ok NaN.
Proof.
  assert (HT : square (length (cats ex_groups)) no_edges)
    by (split; [reflexivity | repeat constructor]).
  assert (HN : NoDup (cats ex_groups)).
  { apply (bool_decide_unpack (NoDup (cats ex_groups))). vm_compute. exact I. }
  assert (HNN : nonneg no_edges) by (repeat constructor; discriminate).
  assert (Hnone : ∀ k i, non_root ex_groups k → ¬ 0 < get no_edges i k).
  { intros k i _. destruct i as [|[|[|i]]], k as [|[|[|k]]]; discriminate. }
  split; [exact HT | split; [exact HNN |]].
  destruct (threshold_undefined ex_groups no_edges HT HN HNN Hnone)
    as (_ & _ & H).
  apply H.
  - exists 1%nat. split; [simpl; lia | discriminate].
  - intros r [= <-]. simpl. apply list_elem_of_here.
Defined.
(** * Further properties of the code *)

(** ** The graph helpers *)

Lemma sumZ_app (l1 l2 : list Z) : sumZ (l1 ++ l2) = (sumZ l1 + sumZ l2)%Z.
Proof. induction l1 as [|x l1 IH]; simpl; [done | rewrite IH; lia]. Qed.

Lemma NoDup_nonzero (adj : matrix bool) : NoDup (nonzero adj).
Proof.
  unfold nonzero. apply NoDup_bind; [| |apply NoDup_seq].
  - intros u1 u2 p _ _ H1 H2.
    apply list_elem_of_bind in H1 as (v1 & H1 & _).
    apply list_elem_of_bind in H2 as (v2 & H2 & _).
    destruct (getb adj u1 v1); [|inversion H1].
    destruct (getb adj u2 v2); [|inversion H2].
    apply list_elem_of_singleton in H1, H2. congruence.
  - intros u _. apply NoDup_bind; [| |apply NoDup_seq].
    + intros v1 v2 p _ _ H1 H2.
      destruct (getb adj u v1); [|inversion H1].
      destruct (getb adj u v2); [|inversion H2].
      apply list_elem_of_singleton in H1, H2. congruence.
    + intros v _. destruct (getb adj u v); [apply NoDup_singleton | constructor].
Qed.

Lemma count_NoDup {A} `{EqDecision A} (E : list A) (p : A) :
  NoDup E →
  length (filter (λ e, e = p) E) = if decide (p ∈ E) then 1%nat else 0%nat.
Proof.
  induction 1 as [|e E He HN IH]; [done |].
  rewrite filter_cons. destruct (decide (e = p)) as [->|Hne]; simpl.
  - rewrite IH, decide_False by done.
    by rewrite decide_True by apply list_elem_of_here.
  - rewrite IH. destruct (decide (p ∈ E)).
    + by rewrite decide_True by by apply list_elem_of_further.
    + rewrite decide_False; [done |]. intros [->|?]%elem_of_cons; done.
Qed.

(** The matrix of a graph is the array of the data of its edges, also when
    it has no edge. *)
Lemma get_sparse_from_igraph_csr (g : igraph) (weighted : bool) W :
  (if weighted then es_weight g = Some W
   else W = replicate (length (get_edgelist g)) 1%Z) →
  get_sparse_from_igraph g weighted
  = Ok (let E := get_edgelist g in
        if is_directed g then csr_matrix E W (vcount g)
        else csr_matrix (E ++ map (λ e, (e.2, e.1)) E) (W ++ W) (vcount g)).
Proof.
  intros HW. unfold get_sparse_from_igraph, es_lookup.
  assert (E : (if weighted
               then match es_weight g with
                    | Some weights => Ok weights
                    | None => Raise KeyError
                    end
               else Ok (replicate (length (get_edgelist g)) 1%Z)) = Ok W).
  { destruct weighted; [by rewrite HW | by rewrite HW]. }
  rewrite E. cbn [mbind result_bind mret result_ret]. f_equal.
  destruct (is_directed g).
  - destruct (get_edgelist g); [by rewrite csr_matrix_nil | done].
  - destruct (get_edgelist g); simpl; [by rewrite csr_matrix_nil | done].
Qed.

Lemma getZ_csr_matrix E W n a b :
  getZ (csr_matrix E W n) a b
  = if decide (a < n ∧ b < n)%nat then weight_at E W (a, b) else 0%Z.
Proof.
  rewrite getZ_entry. unfold csr_matrix.
  rewrite (entry_tabulate (λ a b, weight_at E W (a, b))). by case_decide.
Qed.

Lemma square_csr_matrix E W n : square n (csr_matrix E W n).
Proof.
  unfold csr_matrix. split; [apply length_tabulate |].
  apply Forall_forall. intros r Hr.
  change (map ?f (seq 0 n)) with (f <$> seq 0 n) in Hr.
  apply list_elem_of_fmap in Hr as (i & -> & _).
  by rewrite length_map, length_seq.
Qed.

Lemma weight_at_app E1 W1 E2 W2 p :
  length E1 = length W1 →
  weight_at (E1 ++ E2) (W1 ++ W2) p
  = (weight_at E1 W1 p + weight_at E2 W2 p)%Z.
Proof.
  intros HL. unfold weight_at.
  rewrite (zip_with_app pair E1 E2 W1 W2 HL).
  by rewrite filter_app, map_app, sumZ_app.
Qed.

Lemma weight_at_swap E W a b :
  weight_at (map (λ e : nat * nat, (e.2, e.1)) E) W (a, b)
  = weight_at E W (b, a).
Proof.
  revert W. induction E as [|[u v] E IH]; intros W; [done |].
  destruct W as [|w W]; [done |]. simpl. rewrite !weight_at_cons, IH. simpl.
  destruct (decide ((v, u) = (a, b))) as [[= -> ->]|Hne].
  - by rewrite decide_True.
  - rewrite decide_False; [done |]. intros [= -> ->]. done.
Qed.

(** Summed over all positions, the data of the edges that lie in the array
    are the data of all edges. *)
Lemma weight_at_total E W n :
  length W = length E →
  (∀ e, e ∈ E → (e.1 < n)%nat ∧ (e.2 < n)%nat) →
  sumZ (map (weight_at E W) (all_pairs n)) = sumZ W.
Proof.
  revert W. induction E as [|e E IH]; intros W HL Hr.
  - destruct W; [|done]. simpl. by apply sumZ_map_zero.
  - destruct W as [|w W]; [done |]. simpl.
    rewrite (sumZ_map_ext _
      (λ p, ((if decide (p = e) then w else 0) + weight_at E W p)%Z)).
    + rewrite sumZ_map_add, IH, sumZ_single.
      * done.
      * apply NoDup_all_pairs.
      * apply elem_of_all_pairs, Hr, list_elem_of_here.
      * simpl in HL. lia.
      * intros e' He'. apply Hr. by apply list_elem_of_further.
    + intros p _. rewrite weight_at_cons.
      destruct (decide (e = p)) as [->|Hne].
      * by rewrite decide_True.
      * rewrite decide_False; [done |]. by intros ->.
Qed.

(** X1.  A boolean adjacency matrix with at least one edge survives the
    passage through an igraph graph and back: the matrix of the graph built
    from it has 1 where it has an edge and 0 elsewhere.  For an adjacency
    without an edge the way back raises a KeyError, the graph having no
    weights to look up. *)
Theorem adjacency_round_trip n (adj : matrix bool) :
  square n adj →
  let back :=
    get_sparse_from_igraph (get_igraph_from_adjacency adj true) true in
  (nonzero adj ≠ [] → back = Ok (map (map Z.b2z) adj)) ∧
  (nonzero adj = [] → back = Raise KeyError).
Proof.
  intros HS back. unfold back. split.
  2:{ intros E. unfold get_sparse_from_igraph, es_lookup. simpl. by rewrite E. }
  intros Hne.
  rewrite (get_sparse_from_igraph_csr _ true
             (replicate (length (nonzero adj)) 1%Z)).
  2:{ rewrite adjacency_weights. by destruct (nonzero adj). }
  cbn [get_igraph_from_adjacency is_directed get_edgelist vcount]. f_equal.
  destruct HS as [HL HF]. apply matrix_entry_ext.
  { destruct (square_csr_matrix (nonzero adj)
                (replicate (length (nonzero adj)) 1%Z) (length adj)) as [-> _].
    by rewrite length_map. }
  intros a b. rewrite entry_map. unfold csr_matrix.
  rewrite (entry_tabulate (λ a b, weight_at (nonzero adj) _ (a, b))).
  assert (Hw : weight_at (nonzero adj) (replicate (length (nonzero adj)) 1%Z) (a, b)
               = Z.b2z (getb adj a b)).
  { rewrite <- (List.map_id (nonzero adj)) at 1.
    rewrite (weight_at_count id), (count_NoDup _ _ (NoDup_nonzero adj)).
    destruct (getb adj a b) eqn:E.
    - rewrite decide_True; [done | by apply elem_of_nonzero].
    - rewrite decide_False; [done |]. rewrite elem_of_nonzero. congruence. }
  rewrite Hw. unfold getb, entry.
  destruct (adj !! a) as [row|] eqn:Ea; simpl.
  - assert (Hrow : length row = length adj).
    { eapply Forall_lookup_1 in HF; [|done]. lia. }
    apply lookup_lt_Some in Ea.
    destruct (row !! b) as [x|] eqn:Eb; simpl.
    + apply lookup_lt_Some in Eb. rewrite decide_True by lia. done.
    + apply lookup_ge_None in Eb. rewrite decide_False by lia. done.
  - apply lookup_ge_None in Ea. rewrite decide_False by lia. done.
Qed.

Lemma adjacency_round_trip_witness :
  square 3 ex_adjacency ∧ nonzero ex_adjacency ≠ [] ∧
  get_sparse_from_igraph (get_igraph_from_adjacency ex_adjacency true) true
  = Ok (map (map Z.b2z) ex_adjacency).
Proof.
  assert (HS : square 3 ex_adjacency)
    by (split; [reflexivity | repeat constructor]).
  assert (Hne : nonzero ex_adjacency ≠ []) by (vm_compute; discriminate).
  split; [exact HS | split; [exact Hne |]].
  exact (proj1 (adjacency_round_trip 3 ex_adjacency HS) Hne).
Defined.

(** X2.  The directed graph built from a square boolean adjacency is a
    simple graph on as many vertices as the matrix has rows: its edges are
    exactly the positions that hold an edge, each listed once, all between
    vertices of the graph; it has the weight attribute exactly when it has an
    edge, and then every weight is 1. *)
Theorem adjacency_graph_simple n (adj : matrix bool) :
  square n adj →
  let g := get_igraph_from_adjacency adj true in
  vcount g = n ∧ valid_graph g ∧ NoDup (get_edgelist g) ∧
  (∀ u v, (u, v) ∈ get_edgelist g ↔ getb adj u v = true) ∧
  (es_weight g = None ↔ get_edgelist g = []) ∧
  (∀ weights, es_weight g = Some weights → Forall (λ w, w = 1%Z) weights).
Proof.
  intros [HL HF] g. split; [done |].
  pose proof (adjacency_weights adj true) as HW. fold g in HW.
  assert (HE : get_edgelist g = nonzero adj) by done.
  split; [split |].
  - intros ws Hws. rewrite HW in Hws. rewrite HE.
    assert (ws = replicate (length (nonzero adj)) 1%Z) as ->
      by (destruct (nonzero adj); congruence).
    apply length_replicate.
  - intros [u v] He. rewrite HE in He. apply elem_of_nonzero, getb_true in He
      as (row & Hrow & Hv).
    eapply Forall_lookup_1 in HF; [|done].
    apply lookup_lt_Some in Hrow, Hv. simpl. lia.
  - rewrite HE, HW. split; [apply NoDup_nonzero |].
    split; [intros; apply elem_of_nonzero |]. split.
    + by destruct (nonzero adj).
    + intros ws Hws.
      assert (ws = replicate (length (nonzero adj)) 1%Z) as ->
        by (destruct (nonzero adj); congruence).
      apply Forall_forall. intros w Hw.
      by apply elem_of_replicate in Hw as [-> _].
Qed.

Lemma adjacency_graph_simple_witness :
  square 3 ex_adjacency ∧
  valid_graph (get_igraph_from_adjacency ex_adjacency true).
Proof.
  assert (HS : square 3 ex_adjacency)
    by (split; [reflexivity | repeat constructor]).
  split; [exact HS |].
  exact (proj1 (proj2 (adjacency_graph_simple 3 ex_adjacency HS))).
Defined.

(** X3.  The matrix of a directed graph that has weights is square of the
    size of the graph, holds at each position the summed weight of the edges
    between the two vertices, and its entries add up to the weights of all
    edges: parallel edges and loops lose nothing, and a graph without edges
    gives the zero matrix. *)
Theorem sparse_keeps_total_weight (g : igraph) (weights : list Z) :
  valid_graph g → is_directed g = true → es_weight g = Some weights →
  ∃ M, get_sparse_from_igraph g true = Ok M ∧
    square (vcount g) M ∧
    (∀ a b, (a < vcount g)%nat → (b < vcount g)%nat →
            getZ M a b = weight_at (get_edgelist g) weights (a, b)) ∧
    sum_entries M = sumZ weights ∧
    (get_edgelist g = [] → ∀ a b, getZ M a b = 0%Z).
Proof.
  intros [HL Hr] Hd HW. specialize (HL _ HW).
  rewrite (get_sparse_from_igraph_csr g true weights HW), Hd.
  eexists. split; [done |]. cbn zeta.
  split; [apply square_csr_matrix |]. split; [|split].
  - intros a b Ha Hb. rewrite getZ_csr_matrix. by rewrite decide_True.
  - unfold csr_matrix.
    rewrite (sum_entries_all_pairs (λ a b, weight_at _ _ (a, b))).
    rewrite <- (weight_at_total (get_edgelist g) weights (vcount g))
      by done.
    apply sumZ_map_ext. by intros [a b] _.
  - intros HE a b. rewrite getZ_csr_matrix, HE. by case_decide.
Qed.

Lemma valid_ex_graph : valid_graph ex_graph.
Proof.
  split; [by intros ws [= <-] |]. intros e He. simpl in He.
  repeat (apply elem_of_cons in He as [->|He]; [simpl; lia |]).
  inversion He.
Qed.

Lemma valid_ex_undirected : valid_graph ex_undirected.
Proof.
  split; [by intros ws [= <-] |]. intros e He. simpl in He.
  repeat (apply elem_of_cons in He as [->|He]; [simpl; lia |]).
  inversion He.
Qed.

Lemma sparse_keeps_total_weight_witness :
  valid_graph ex_graph ∧ is_directed ex_graph = true ∧
  es_weight ex_graph = Some [2; 3; 5; 7]%Z ∧
  ∃ M, get_sparse_from_igraph ex_graph true = Ok M ∧
       sum_entries M = sumZ [2; 3; 5; 7]%Z.
Proof.
  split; [exact valid_ex_graph | split; [reflexivity | split; [reflexivity |]]].
  destruct (sparse_keeps_total_weight ex_graph [2; 3; 5; 7]%Z valid_ex_graph
              eq_refl eq_refl) as (M & HM & _ & _ & Hsum & _).
  exists M. split; [exact HM | exact Hsum].
Defined.

(** X4.  The matrix of an undirected graph that has weights is symmetric:
    every edge is entered in both directions, so the entry for [a] and [b]
    is the weight of the edges listed from [a] to [b] plus that of the edges
    listed from [b] to [a] (twice the weight for a loop). *)
Theorem sparse_undirected_symmetric (g : igraph) (weights : list Z) :
  valid_graph g → is_directed g = false → es_weight g = Some weights →
  ∃ M, get_sparse_from_igraph g true = Ok M ∧
    square (vcount g) M ∧
    (∀ a b, getZ M a b = getZ M b a) ∧
    (∀ a b, (a < vcount g)%nat → (b < vcount g)%nat →
            getZ M a b
            = (weight_at (get_edgelist g) weights (a, b)
               + weight_at (get_edgelist g) weights (b, a))%Z).
Proof.
  intros [HL Hr] Hd HW. specialize (HL _ HW).
  rewrite (get_sparse_from_igraph_csr g true weights HW), Hd.
  eexists. split; [done |]. cbn zeta.
  split; [apply square_csr_matrix |].
  assert (Hw : ∀ a b,
    weight_at (get_edgelist g ++ map (λ e, (e.2, e.1)) (get_edgelist g))
              (weights ++ weights) (a, b)
    = (weight_at (get_edgelist g) weights (a, b)
       + weight_at (get_edgelist g) weights (b, a))%Z).
  { intros a b. by rewrite weight_at_app, weight_at_swap by done. }
  split.
  - intros a b. rewrite !getZ_csr_matrix, !Hw.
    repeat case_decide; try done; try lia; tauto.
  - intros a b Ha Hb. rewrite getZ_csr_matrix, Hw. by rewrite decide_True.
Qed.

Lemma sparse_undirected_symmetric_witness :
  valid_graph ex_undirected ∧ is_directed ex_undirected = false ∧
  es_weight ex_undirected = Some [2; 3; 5; 7]%Z ∧
  ∃ M, get_sparse_from_igraph ex_undirected true = Ok M ∧
       ∀ a b, getZ M a b = getZ M b a.
Proof.
  split; [exact valid_ex_undirected |].
  split; [reflexivity | split; [reflexivity |]].
  destruct (sparse_undirected_symmetric ex_undirected [2; 3; 5; 7]%Z
              valid_ex_undirected eq_refl eq_refl) as (M & HM & _ & Hsym & _).
  exists M. split; [exact HM | exact Hsym].
Defined.

(** X5.  Without a weight attribute every edge counts 1: the matrix of a
    directed graph holds the number of edges from [a] to [b]. *)
Theorem sparse_unweighted_counts (g : igraph) :
  valid_graph g → is_directed g = true →
  ∃ M, get_sparse_from_igraph g false = Ok M ∧
    ∀ a b, (a < vcount g)%nat → (b < vcount g)%nat →
      getZ M a b
      = Z.of_nat (length (filter (λ e, e = (a, b)) (get_edgelist g))).
Proof.
  intros _ Hd.
  rewrite (get_sparse_from_igraph_csr g false _ eq_refl), Hd.
  eexists. split; [done |]. cbn zeta. intros a b Ha Hb.
  rewrite getZ_csr_matrix, decide_True by done.
  rewrite <- (List.map_id (get_edgelist g)) at 1.
  apply (weight_at_count id).
Qed.

Lemma sparse_unweighted_counts_witness :
  valid_graph ex_graph ∧ is_directed ex_graph = true ∧
  ∃ M, get_sparse_from_igraph ex_graph false = Ok M ∧
       getZ M 0 1
       = Z.of_nat (length (filter (λ e, e = (0, 1)%nat) (get_edgelist ex_graph))).
Proof.
  split; [exact valid_ex_graph | split; [reflexivity |]].
  destruct (sparse_unweighted_counts ex_graph valid_ex_graph eq_refl)
    as (M & HM & H).
  exists M. split; [exact HM |]. apply H; simpl; lia.
Defined.
(** ** Aggregation and confidence *)

Lemma count_groups (l : list nat) n :
  (∀ x, x ∈ l → (x < n)%nat) →
  sumZ (map (λ c, Z.of_nat (length (filter (λ x, x = c) l))) (seq 0 n))
  = Z.of_nat (length l).
Proof.
  induction l as [|y l IH]; intros Hr.
  - simpl. by apply sumZ_map_zero.
  - rewrite (sumZ_map_ext _
      (λ c, ((if decide (c = y) then 1 else 0)
             + Z.of_nat (length (filter (λ x, x = c) l)))%Z)).
    + rewrite sumZ_map_add, IH, sumZ_single.
      * simpl. lia.
      * apply NoDup_seq.
      * apply elem_of_seq. specialize (Hr y (list_elem_of_here _ _)). lia.
      * intros x Hx. apply Hr. by apply list_elem_of_further.
    + intros c _. rewrite filter_cons.
      destruct (decide (y = c)) as [->|Hne].
      * rewrite decide_True by done. simpl. lia.
      * rewrite decide_False by congruence. lia.
Qed.

Lemma codes_lt_n_clusters (m : list nat) x : x ∈ m → (x < n_clusters m)%nat.
Proof.
  intros Hx. unfold n_clusters. destruct m as [|y m]; [inversion Hx |].
  apply max_list_elem_of_le in Hx. lia.
Qed.

(** X6.  The group sizes partition the cells: there is one size for every
    cluster and the sizes add up to the number of cells; within the range of
    int64, [total_n] adds up to twice the neighbor count for every cell. *)
Theorem group_sizes_partition (a : adata) :
  no_overflow a →
  length (group_sizes a) = n_clusters (codes a) ∧
  sumZ (map Z.of_nat (group_sizes a)) = Z.of_nat (length (codes a)) ∧
  sumZ (total_n a) = (2 * n_neighbors a * Z.of_nat (length (codes a)))%Z.
Proof.
  intros Ho.
  assert (Hs : sumZ (map Z.of_nat (group_sizes a)) = Z.of_nat (length (codes a))).
  { unfold group_sizes, sizes. rewrite List.map_map.
    apply count_groups. intros x. apply codes_lt_n_clusters. }
  split; [|split; [done |]].
  - unfold group_sizes, sizes. by rewrite length_map, length_seq.
  - rewrite <- Hs. unfold total_n. clear Hs. unfold no_overflow in Ho.
    induction (group_sizes a) as [|s l IH]; [simpl; lia |].
    apply Forall_cons in Ho as [Hs Hl]. cbn [map sumZ foldr].
    fold (sumZ (map (λ s, wrap64 (wrap64 (n_neighbors a * Z.of_nat s) * 2)) l)).
    fold (sumZ (map Z.of_nat l)).
    rewrite (IH Hl).
    set (x := (n_neighbors a * Z.of_nat s)%Z) in *.
    assert (H63 : (2 ^ 63 = 9223372036854775808)%Z) by done.
    rewrite (wrap64_small x) by lia.
    rewrite (wrap64_small (x * 2)) by lia. unfold x. lia.
Qed.

Lemma group_sizes_partition_witness :
  no_overflow ex_mixed ∧
  sumZ (total_n ex_mixed)
  = (2 * n_neighbors ex_mixed * Z.of_nat (length (codes ex_mixed)))%Z.
Proof.
  split; [exact no_overflow_ex_mixed |].
  exact (proj2 (proj2 (group_sizes_partition ex_mixed no_overflow_ex_mixed))).
Defined.

Lemma crossing_unmasked (a : adata) i j :
  length (crossing a i j)
  = length (filter (λ e, group_of a e.1 = i ∧ group_of a e.2 = j ∧
                         is_final a e.1 = false ∧ is_root a e.2 = false)
                   (fine_edges (velocity_graph a))).
Proof.
  apply Permutation_length, NoDup_Permutation.
  - apply NoDup_filter, NoDup_nonzero.
  - apply NoDup_filter, NoDup_nonzero.
  - intros [u v]. unfold crossing.
    rewrite !list_elem_of_filter, elem_of_vgraph_edges. simpl.
    split.
    + intros ([= -> ->] & ? & ? & ?). tauto.
    + intros ((-> & -> & ? & ?) & ?). tauto.
Qed.

(** X7.  With no edge left in [vgraph] the aggregation raises a KeyError.
    Otherwise the aggregated graph is square with one row for every
    cluster; its diagonal is zero, and off the diagonal the entry for the
    groups [i] and [j] is the number of entries of the velocity graph above
    the cutoff that lead from a cell of [i] that is not final to a cell of
    [j] that is not in the root group. *)
Theorem coarse_graph_entries (a : adata) :
  let n := n_clusters (codes a) in
  (nonzero (vgraph a) = [] → CoarseGraph a = Raise KeyError) ∧
  (nonzero (vgraph a) ≠ [] →
   ∃ M, CoarseGraph a = Ok M ∧ square n M ∧
     (∀ i, getZ M i i = 0%Z) ∧
     ∀ i j, (i < n)%nat → (j < n)%nat → i ≠ j →
       getZ M i j
       = Z.of_nat (length (filter
           (λ e, group_of a e.1 = i ∧ group_of a e.2 = j ∧
                 is_final a e.1 = false ∧ is_root a e.2 = false)
           (fine_edges (velocity_graph a))))).
Proof.
  intros n. split; [apply CoarseGraph_raises |]. intros Hne.
  exists (coarse_counts a). split; [by apply CoarseGraph_ok |].
  split; [|split].
  - unfold coarse_counts. simpl. fold n.
    split; [apply length_tabulate |]. apply Forall_forall. intros r Hr.
    change (map ?f (seq 0 n)) with (f <$> seq 0 n) in Hr.
    apply list_elem_of_fmap in Hr as (i & -> & _).
    by rewrite length_map, length_seq.
  - intros i. rewrite getZ_coarse_counts. rewrite decide_False; [done | tauto].
  - intros i j Hi Hj Hij. rewrite getZ_coarse_counts, decide_True by done.
    by rewrite crossing_unmasked.
Qed.

Lemma coarse_graph_entries_witness :
  nonzero (vgraph ex_mixed) ≠ [] ∧
  ∃ M, CoarseGraph ex_mixed = Ok M ∧ square 2 M.
Proof.
  assert (Hne : nonzero (vgraph ex_mixed) ≠ []) by (vm_compute; discriminate).
  split; [exact Hne |].
  destruct (proj2 (coarse_graph_entries ex_mixed) Hne) as (M & HM & HS & _).
  exists M. split; [exact HM | exact HS].
Defined.

(** On [ex_mixed] the only edge between groups leads from A to B. *)
Example coarse_graph_example :
  CoarseGraph ex_mixed = Ok [ [0; 1]; [0; 0] ]%Z.
Proof. reflexivity. Qed.

(** X22.  An edge whose source is a final cell or whose target is a cell
    of the root group adds nothing to the aggregation: two velocity graphs
    of one shape that agree on all other positions have the same outcome;
    and when every entry above the cutoff is such an edge, the outcome is
    the KeyError of an empty [vgraph]. *)
Theorem masked_edges_do_not_contribute (a : adata) :
  (∀ G', same_shape (velocity_graph a) G' →
         (∀ u v, is_final a u = false → is_root a v = false →
                 entry G' u v = entry (velocity_graph a) u v) →
         CoarseGraph (with_graph a G') = CoarseGraph a) ∧
  ((∀ e, e ∈ fine_edges (velocity_graph a) →
         is_final a e.1 = true ∨ is_root a e.2 = true) →
   CoarseGraph a = Raise KeyError).
Proof.
  split.
  - intros G' Hs Hag. unfold CoarseGraph.
    by rewrite (vgraph_unmasked a G' Hs Hag).
  - intros Hm. apply CoarseGraph_raises, nonzero_nil. intros u v.
    destruct (getb (vgraph a) u v) eqn:E; [|done].
    apply elem_of_nonzero, elem_of_vgraph_edges in E as (He & Hf & Hr).
    destruct (Hm _ He) as [H|H]; simpl in H; congruence.
Qed.

Lemma getZ_Flow_skew (M : matrix Z) i j :
  getZ (Flow M) i j = (- getZ (Flow M) j i)%Z.
Proof.
  rewrite !(getZ_entry (Flow M)), !entry_Flow.
  repeat case_decide; simpl; try lia; tauto.
Qed.

Lemma getZ_Flow_diag (M : matrix Z) i : getZ (Flow M) i i = 0%Z.
Proof. pose proof (getZ_Flow_skew M i i). lia. Qed.

(** X8.  [Flow] is skew-symmetric and zero on the diagonal, whatever the
    matrix it is taken of. *)
Theorem flow_skew_symmetric (M : matrix Z) :
  (∀ i j, getZ (Flow M) i j = (- getZ (Flow M) j i)%Z) ∧
  (∀ i, getZ (Flow M) i i = 0%Z) ∧
  square (length M) (Flow M).
Proof.
  split; [|split].
  - apply getZ_Flow_skew.
  - apply getZ_Flow_diag.
  - unfold Flow. split; [apply length_tabulate |].
    apply Forall_forall. intros r Hr.
    change (map ?f (seq 0 ?n)) with (f <$> seq 0 n) in Hr.
    apply list_elem_of_fmap in Hr as (i & -> & _).
    by rewrite length_map, length_seq.
Qed.

Section ConfidenceSign.

Variable sqrt64 : Z → Q.
Hypothesis sqrt64_pos : ∀ n, (0 < n)%Z → 0 < sqrt64 n.

Lemma conf_entry_sign (a : adata) (M : matrix Z) i j x :
  no_overflow a →
  entry (confidence sqrt64 (total_n a) M) i j = Some x →
  ((getZ (Flow M) i j ≤ 0)%Z ∧ x = Fin 0) ∨
  ((0 < getZ (Flow M) i j)%Z ∧ f64_positive x).
Proof.
  intros Ho. rewrite entry_confidence. case_decide; [|done]. intros [= <-].
  set (F := getZ (Flow M) i j).
  destruct (decide (F = 0%Z)) as [E|Hne].
  - left. rewrite E. split; [lia | done].
  - unfold conf_value. destruct (F <? 0)%Z eqn:Elt.
    + left. apply Z.ltb_lt in Elt. split; [lia | done].
    + right. apply Z.ltb_ge in Elt. assert (HF : (0 < F)%Z) by lia.
      split; [done |]. rewrite reference_exact by done.
      pose proof (inject_Z_pos F HF) as HFq.
      destruct (np_sqrt_cases sqrt64 sqrt64_pos _
                  (ExpectedTotal_product_nonneg a i j))
        as [[_ ->]|(_ & -> & Hpos)].
      * simpl. apply Qltb_lt in HFq. by rewrite HFq.
      * rewrite np_divide_pos by done. simpl.
        apply Qlt_shift_div_l; [done | lra].
Qed.

(** X9.  When the aggregation returns a coarse graph and the totals stay
    within the range of int64, the confidence of [i -> j] is positive
    exactly where the net flow from [i] to [j] is positive, and 0 elsewhere;
    so of the two directions between two groups at most one has a positive
    confidence, and no group has one to itself. *)
Theorem confidence_one_direction (a : adata) :
  no_overflow a → nonzero (vgraph a) ≠ [] →
  ∃ M C, CoarseGraph a = Ok M ∧ transitions_conf sqrt64 a = Ok C ∧
    (∀ i j x, entry C i j = Some x →
       (f64_positive x ↔ (0 < getZ (Flow M) i j)%Z) ∧
       ((getZ (Flow M) i j ≤ 0)%Z → x = Fin 0)) ∧
    (∀ i j x y, entry C i j = Some x → entry C j i = Some y →
       ¬ (f64_positive x ∧ f64_positive y)) ∧
    (∀ i x, entry C i i = Some x → x = Fin 0).
Proof.
  intros Ho Hne. set (M := coarse_counts a).
  exists M, (confidence sqrt64 (total_n a) M).
  split; [by apply CoarseGraph_ok |]. split.
  { rewrite transitions_conf_closed. by destruct (nonzero (vgraph a)). }
  pose proof (getZ_Flow_skew M) as Hskew.
  pose proof (getZ_Flow_diag M) as Hdiag.
  split; [|split].
  - intros i j x Hx.
    destruct (conf_entry_sign a M i j x Ho Hx) as [[HF ->]|[HF Hp]].
    + split; [|done]. simpl. split; [lra | lia].
    + split; [tauto | lia].
  - intros i j x y Hx Hy [Hpx Hpy].
    destruct (conf_entry_sign a M i j x Ho Hx) as [[_ ->]|[HF _]];
      [simpl in Hpx; lra |].
    destruct (conf_entry_sign a M j i y Ho Hy) as [[_ ->]|[HF' _]];
      [simpl in Hpy; lra |].
    rewrite Hskew in HF. lia.
  - intros i x Hx.
    destruct (conf_entry_sign a M i i x Ho Hx) as [[_ ->]|[HF _]]; [done |].
    rewrite Hdiag in HF. lia.
Qed.

Lemma toarray_finite (T0 : matrix Q) : toarray (map (map Fin) T0) = Some T0.
Proof.
  unfold toarray. change (map (map Fin) T0) with (map Fin <$> T0).
  apply mapM_fmap_Some. intros row. change (map Fin row) with (Fin <$> row).
  by apply mapM_fmap_Some.
Qed.

(** The pruning loop receives finite values and returns a square
    matrix. *)
Lemma pruned_confidence_closed (a : adata) :
  well_shaped a → (1 ≤ n_neighbors a)%Z → no_overflow a →
  nonzero (vgraph a) ≠ [] →
  ∃ T0, confidence sqrt64 (total_n a) (coarse_counts a) = map (map Fin) T0 ∧
        square (n_clusters (codes a)) T0 ∧ nonneg T0 ∧
        pruned_confidence sqrt64 a = Ok (Some (prune T0)).
Proof.
  intros Hw Hn Ho Hne.
  destruct (confidence_dense sqrt64 sqrt64_pos a Hw Hn Ho)
    as (T0 & Hconf & HS & HN).
  exists T0. split; [done |]. split; [done |]. split; [done |].
  unfold pruned_confidence. rewrite transitions_conf_closed.
  destruct (nonzero (vgraph a)); [done |].
  cbn [mbind result_bind mret result_ret]. by rewrite Hconf, toarray_finite.
Qed.

(** X10.  Under the shape check of the method, with a neighbor count of at
    least 1, totals within the range of int64 and an edge left in [vgraph],
    the pruning loop runs on finite values, and what it leaves is a square
    matrix of non-negative confidences in which an edge [i -> j] is present
    only where the net flow from [i] to [j] is positive, and never together
    with the edge [j -> i]. *)
Theorem pruned_confidence_directed (a : adata) :
  well_shaped a → (1 ≤ n_neighbors a)%Z → no_overflow a →
  nonzero (vgraph a) ≠ [] →
  ∃ M P, CoarseGraph a = Ok M ∧ pruned_confidence sqrt64 a = Ok (Some P) ∧
       square (n_clusters (codes a)) P ∧ nonneg P ∧
       ∀ i j, 0 < get P i j →
              (0 < getZ (Flow M) i j)%Z ∧ ¬ 0 < get P j i.
Proof.
  intros Hw Hn Ho Hne.
  destruct (pruned_confidence_closed a Hw Hn Ho Hne)
    as (T0 & Hconf & HS & HN & HP).
  set (M := coarse_counts a) in *.
  set (n := n_clusters (codes a)) in *.
  assert (HPN : ∀ i j, 0 <= get (prune T0) i j).
  { intros i j. destruct (decide (i < n ∧ j < n)%nat) as [[Hi Hj]|Hout].
    - destruct (prune_entry n T0 i j HS Hi Hj) as [[_ ->]|[_ ->]];
        [lra | by apply nonneg_get].
    - destruct (prune_square n T0 HS) as [HL HF]. unfold get.
      destruct (prune T0 !! i) as [row|] eqn:Er; simpl; [|lra].
      destruct (row !! j) as [x|] eqn:Ex; simpl; [|lra].
      exfalso. apply Hout. eapply Forall_lookup_1 in HF; [|done].
      apply lookup_lt_Some in Er, Ex. lia. }
  assert (HT0 : ∀ i j, (i < n)%nat → (j < n)%nat →
            entry (confidence sqrt64 (total_n a) M) i j
            = Some (Fin (get T0 i j))).
  { intros i j Hi Hj. rewrite Hconf, entry_map.
    destruct (square_get_lookup n T0 i j HS Hi Hj) as (row & Hrow & _ & Hg).
    unfold entry. rewrite Hrow. simpl. by rewrite Hg. }
  exists M, (prune T0). split; [by apply CoarseGraph_ok |].
  split; [done |].
  split; [by apply prune_square |]. split.
  { apply Forall_forall. intros row Hrow. apply Forall_forall. intros x Hx.
    apply list_elem_of_lookup in Hrow as [i Hi].
    apply list_elem_of_lookup in Hx as [j Hj].
    specialize (HPN i j). unfold get in HPN. rewrite Hi in HPN.
    simpl in HPN. by rewrite Hj in HPN. }
  intros i j Hpos.
  assert (Hr : (i < n ∧ j < n)%nat).
  { destruct (prune_square n T0 HS) as [HL HF]. unfold get in Hpos.
    destruct (prune T0 !! i) as [row|] eqn:Er; simpl in Hpos; [|lra].
    destruct (row !! j) as [x|] eqn:Ex; simpl in Hpos; [|lra].
    eapply Forall_lookup_1 in HF; [|done].
    apply lookup_lt_Some in Er, Ex. lia. }
  destruct Hr as [Hi Hj].
  assert (Hpos0 : 0 < get T0 i j).
  { destruct (prune_entry n T0 i j HS Hi Hj) as [[_ E]|[_ E]];
      rewrite E in Hpos; [lra | done]. }
  destruct (conf_entry_sign a M i j _ Ho (HT0 i j Hi Hj)) as [[_ [= E]]|[HF _]].
  { rewrite E in Hpos0. lra. }
  split; [done |].
  pose proof (getZ_Flow_skew M) as Hskew.
  destruct (conf_entry_sign a M j i _ Ho (HT0 j i Hj Hi)) as [[_ [= E]]|[HF' _]].
  - pose proof (prune_get_le n T0 j i HS HN Hj Hi) as Hle.
    rewrite E in Hle. lra.
  - rewrite Hskew in HF'. lia.
Qed.

End ConfidenceSign.

Lemma confidence_one_direction_witness :
  (∀ n, (0 < n)%Z → 0 < isqrt n) ∧ no_overflow ex_mixed ∧
  nonzero (vgraph ex_mixed) ≠ [] ∧
  ∃ C, transitions_conf isqrt ex_mixed = Ok C ∧
       ∀ i x, entry C i i = Some x → x = Fin 0.
Proof.
  assert (Hne : nonzero (vgraph ex_mixed) ≠ []) by (vm_compute; discriminate).
  split; [exact isqrt_pos |]. split; [exact no_overflow_ex_mixed |].
  split; [exact Hne |].
  destruct (confidence_one_direction isqrt isqrt_pos ex_mixed
              no_overflow_ex_mixed Hne) as (M & C & _ & HC & _ & _ & H).
  exists C. split; [exact HC | exact H].
Defined.

Lemma pruned_confidence_directed_witness :
  (∀ n, (0 < n)%Z → 0 < isqrt n) ∧ well_shaped ex_mixed ∧
  (1 ≤ n_neighbors ex_mixed)%Z ∧ no_overflow ex_mixed ∧
  nonzero (vgraph ex_mixed) ≠ [] ∧
  ∃ M P, CoarseGraph ex_mixed = Ok M ∧
       pruned_confidence isqrt ex_mixed = Ok (Some P) ∧
       square (n_clusters (codes ex_mixed)) P ∧ nonneg P ∧
       ∀ i j, 0 < get P i j →
              (0 < getZ (Flow M) i j)%Z ∧ ¬ 0 < get P j i.
Proof.
  assert (Hw : well_shaped ex_mixed)
    by (split; [reflexivity | repeat constructor]).
  assert (Hn : (1 ≤ n_neighbors ex_mixed)%Z) by (simpl; lia).
  assert (Hne : nonzero (vgraph ex_mixed) ≠ []) by (vm_compute; discriminate).
  split; [exact isqrt_pos | split; [exact Hw | split; [exact Hn |]]].
  split; [exact no_overflow_ex_mixed |]. split; [exact Hne |].
  exact (pruned_confidence_directed isqrt isqrt_pos ex_mixed Hw Hn
           no_overflow_ex_mixed Hne).
Defined.

Example pruned_confidence_example :
  pruned_confidence isqrt ex_mixed = Ok (Some [ [0; 1 # 84]; [0; 0] ]).
Proof. reflexivity. Qed.
(** ** Pruning and its output *)

Lemma get_out_of_range K (T : matrix Q) i j :
  square K T → ¬ (i < K ∧ j < K)%nat → get T i j = 0.
Proof.
  intros [HL HF] Hout. unfold get.
  destruct (T !! i) as [row|] eqn:Er; simpl; [|done].
  destruct (row !! j) as [x|] eqn:Ex; simpl; [|done].
  exfalso. apply Hout. eapply Forall_lookup_1 in HF; [|done].
  apply lookup_lt_Some in Er, Ex. lia.
Qed.

(** Every intermediate state of the loop is entry-wise below the input. *)
Lemma prune_upto_le K (T : matrix Q) i a b :
  square K T → nonneg T → (i ≤ K)%nat → (a < K)%nat → (b < K)%nat →
  get (prune_upto i T) a b <= get T a b.
Proof.
  intros HT HN Hi Ha Hb. destruct (decide (a < i)%nat).
  - rewrite (prune_get_stage_lt K) by done. by apply (prune_get_le K).
  - rewrite prune_get_stage_ge by lia. lra.
Qed.

(** An edge that is dominated when its row is reached is dominated in the
    input. *)
Lemma dominated_stage K (T : matrix Q) i k :
  square K T → nonneg T → (i < K)%nat →
  dominated (prune_upto i T) i k → dominated T i k.
Proof.
  intros HT HN Hi (j & Hj & Hpos & H1 & H2).
  destruct (prune_upto_square K T i HT) as [HL _]. rewrite HL in Hj.
  rewrite !(prune_get_stage_ge T i i) in * by lia.
  exists j. destruct HT as [HLT HF]. rewrite HLT.
  assert (HT : square K T) by done.
  split; [done |]. split; [done |]. split; [|done].
  destruct (decide (k < K)%nat) as [Hk|Hk].
  - assert (Hle : (i ≤ K)%nat) by lia.
    pose proof (prune_upto_le K T i j k HT HN Hle Hj Hk). lra.
  - rewrite (get_out_of_range K (prune_upto i T) j k) in H1
      by (auto using prune_upto_square || lia).
    rewrite (get_out_of_range K T i k) in H1 by (done || lia).
    lra.
Qed.

(** X11.  Pruning never removes the strongest edge that leaves a group:
    an entry that is the largest of its row is the same after the loop. *)
Theorem prune_keeps_row_maximum K (T : matrix Q) i k :
  square K T → (i < K)%nat → (k < K)%nat →
  (∀ j, (j < K)%nat → get T i j <= get T i k) →
  get (prune T) i k = get T i k.
Proof.
  intros HT Hi Hk Hmax.
  destruct (prune_entry K T i k HT Hi Hk) as [[Hd _]|[_ E]]; [|done].
  exfalso. destruct Hd as (j & Hj & _ & _ & H2).
  destruct (prune_upto_square K T i HT) as [HL _]. rewrite HL in Hj.
  rewrite !(prune_get_stage_ge T i i) in H2 by lia.
  specialize (Hmax j Hj). lra.
Qed.

Lemma prune_keeps_row_maximum_witness :
  square 3 ex_domination ∧
  get (prune ex_domination) 0 1 = get ex_domination 0 1.
Proof.
  assert (HT : square 3 ex_domination)
    by (split; [reflexivity | repeat constructor]).
  split; [exact HT |].
  apply (prune_keeps_row_maximum 3 ex_domination 0 1 HT); [lia | lia |].
  intros [|[|[|j]]] Hj; [discriminate.. | lia].
Defined.

(** X12.  An edge that the loop changes had, in the input, a two-hop
    path whose two edges are both strictly stronger than it. *)
Theorem prune_removes_only_dominated K (T : matrix Q) i k :
  square K T → nonneg T → (i < K)%nat → (k < K)%nat →
  ¬ get (prune T) i k == get T i k →
  get (prune T) i k = 0 ∧
  ∃ j, (j < K)%nat ∧ get T i k < get T i j ∧ get T i k < get T j k.
Proof.
  intros HT HN Hi Hk Hne.
  destruct (prune_entry K T i k HT Hi Hk) as [[Hd E]|[_ E]].
  - split; [done |].
    destruct (dominated_stage K T i k HT HN Hi Hd) as (j & Hj & _ & H1 & H2).
    destruct HT as [HL _]. rewrite HL in Hj. eauto.
  - exfalso. apply Hne. by rewrite E.
Qed.

Lemma prune_removes_only_dominated_witness :
  square 3 ex_domination ∧ nonneg ex_domination ∧
  get (prune ex_domination) 0 2 = 0 ∧
  ∃ j, (j < 3)%nat ∧ get ex_domination 0 2 < get ex_domination 0 j ∧
       get ex_domination 0 2 < get ex_domination j 2.
Proof.
  assert (HT : square 3 ex_domination)
    by (split; [reflexivity | repeat constructor]).
  assert (HN : nonneg ex_domination)
    by (repeat constructor; discriminate).
  split; [exact HT | split; [exact HN |]].
  apply (prune_removes_only_dominated 3 ex_domination 0 2 HT HN); [lia | lia |].
  intros H. vm_compute in H. discriminate H.
Defined.

(** X13.  The loop keeps every edge that the rule keeps when it is applied
    to the matrix as it stood at entry: entry by entry the read-only result
    is below the result of the loop. *)
Theorem prune_keeps_more_than_readonly K (T : matrix Q) i k :
  square K T → nonneg T → (i < K)%nat → (k < K)%nat →
  get (prune_readonly T) i k <= get (prune T) i k ∧
  (get (prune_readonly T) i k = get T i k → get (prune T) i k = get T i k).
Proof.
  intros HT HN Hi Hk.
  assert (E : get (prune_readonly T) i k = rule_entry T i k).
  { unfold prune_readonly. destruct HT as [-> _]. unfold get.
    change (default 0 (entry (map (λ i, map (λ k, rule_entry T i k) (seq 0 K))
                                  (seq 0 K)) i k) = rule_entry T i k).
    rewrite (entry_tabulate (λ i k, rule_entry T i k)).
    by rewrite decide_True. }
  rewrite E. pose proof (nonneg_get T i k HN) as H0.
  destruct (rule_entry_cases T i k) as [[Hd ->]|[Hnd ->]];
    destruct (prune_entry K T i k HT Hi Hk) as [[Hd' ->]|[Hnd' ->]].
  - split; [lra |]. intros <-. done.
  - split; [lra | done].
  - exfalso. apply Hnd. by apply (dominated_stage K).
  - split; [lra | done].
Qed.

Lemma prune_keeps_more_than_readonly_witness :
  square 4 ex_sequential ∧ nonneg ex_sequential ∧
  get (prune_readonly ex_sequential) 1 2 <= get (prune ex_sequential) 1 2.
Proof.
  assert (HT : square 4 ex_sequential)
    by (split; [reflexivity | repeat constructor]).
  assert (HN : nonneg ex_sequential)
    by (repeat constructor; discriminate).
  split; [exact HT | split; [exact HN |]].
  assert (H1 : (1 < 4)%nat) by lia. assert (H2 : (2 < 4)%nat) by lia.
  exact (proj1 (prune_keeps_more_than_readonly 4 ex_sequential 1 2 HT HN H1 H2)).
Defined.

(** X14.  A matrix without a path of two edges is left as it is. *)
Theorem prune_without_two_hop_paths K (T : matrix Q) :
  square K T → nonneg T →
  (∀ i j k, (i < K)%nat → (j < K)%nat → (k < K)%nat →
            0 < get T i j → ¬ 0 < get T j k) →
  prune T = T.
Proof.
  intros HT HN Hno. apply (matrix_ext K); [by apply prune_square | done |].
  intros i k Hi Hk.
  destruct (prune_entry K T i k HT Hi Hk) as [[Hd _]|[_ E]]; [|done].
  exfalso.
  destruct (dominated_stage K T i k HT HN Hi Hd) as (j & Hj & Hpos & H1 & _).
  destruct HT as [HL HF]. rewrite HL in Hj.
  pose proof (nonneg_get T i k HN). apply (Hno i j k); auto. lra.
Qed.

Lemma prune_without_two_hop_paths_witness :
  square 3 ex_star ∧ nonneg ex_star ∧ prune ex_star = ex_star.
Proof.
  assert (HT : square 3 ex_star)
    by (split; [reflexivity | repeat constructor]).
  assert (HN : nonneg ex_star) by (repeat constructor; discriminate).
  split; [exact HT | split; [exact HN |]].
  apply (prune_without_two_hop_paths 3 ex_star HT HN).
  intros [|[|[|i]]] [|[|[|j]]] [|[|[|k]]] Hi Hj Hk H1 H2;
    try discriminate H1; try discriminate H2; lia.
Defined.

Lemma get_transpose (M : matrix Q) i j :
  get (transpose M) i j
  = if decide (i < length M ∧ j < length M)%nat then get M j i else 0.
Proof.
  unfold transpose, get at 1.
  change (default 0 (entry (map (λ j, map (λ i, get M i j) (seq 0 (length M)))
                                (seq 0 (length M))) i j)
          = if decide (i < length M ∧ j < length M)%nat then get M j i else 0).
  rewrite (entry_tabulate (λ j i, get M i j)). by case_decide.
Qed.

Lemma square_transpose K (M : matrix Q) : length M = K → square K (transpose M).
Proof.
  intros <-. unfold transpose. split; [apply length_tabulate |].
  apply Forall_forall. intros r Hr.
  change (map ?f (seq 0 ?n)) with (f <$> seq 0 n) in Hr.
  apply list_elem_of_fmap in Hr as (i & -> & _).
  by rewrite length_map, length_seq.
Qed.

(** X15.  [transitions_confidence] is the pruned matrix with source and
    target exchanged: its entry (j, i) is the confidence of the transition
    from [i] to [j]; it is square like the pruned matrix, and transposing it
    again gives the pruned matrix back. *)
Theorem transitions_confidence_transposed K (T : matrix Q) :
  square K T →
  square K (transitions_confidence T) ∧
  (∀ i j, get (transitions_confidence T) j i = get T i j) ∧
  transpose (transitions_confidence T) = T.
Proof.
  intros HT. pose proof HT as [HL HF]. unfold transitions_confidence.
  assert (HS : square K (transpose T)) by by apply square_transpose.
  assert (Hg : ∀ i j, get (transpose T) j i = get T i j).
  { intros i j. rewrite get_transpose, HL. case_decide as H; [done |].
    symmetry. apply (get_out_of_range K); [done | tauto]. }
  split; [done |]. split; [done |].
  apply (matrix_ext K); [apply square_transpose, HS | done |].
  intros i j Hi Hj. rewrite get_transpose.
  destruct HS as [-> _]. rewrite decide_True by done. apply Hg.
Qed.

Lemma transitions_confidence_transposed_witness :
  square 3 ex_domination ∧
  transpose (transitions_confidence (prune ex_domination)) = prune ex_domination.
Proof.
  assert (HT : square 3 ex_domination)
    by (split; [reflexivity | repeat constructor]).
  split; [exact HT |].
  exact (proj2 (proj2 (transitions_confidence_transposed 3 _
                         (prune_square 3 ex_domination HT)))).
Defined.

(** ** Threshold: errors and the root column *)

Lemma threshold_not_square (a : adata) (T : matrix Q) :
  ¬ square (length (cats a)) T → threshold a T = Raise ValueError.
Proof.
  intros Hn. unfold threshold, df_values.
  destruct (square_b (length (cats a)) T) eqn:E; [|done].
  by apply square_b_spec in E.
Qed.

Lemma threshold_unknown_root (a : adata) (T : matrix Q) r :
  square (length (cats a)) T → root_cells a = Some r → r ∉ cats a →
  threshold a T = Raise KeyError.
Proof.
  intros HT Hr Hnin. unfold threshold, df_values.
  rewrite (proj2 (square_b_spec (length (cats a)) T) HT), Hr. simpl.
  destruct (list_find _ (cats a)) as [[c l]|] eqn:Ef; [|done].
  apply list_find_Some in Ef as (Hc & -> & _).
  exfalso. apply Hnin. by eapply list_elem_of_lookup_2.
Qed.

Lemma threshold_returns (a : adata) (T : matrix Q) :
  square (length (cats a)) T → NoDup (cats a) →
  (∀ r, root_cells a = Some r → r ∈ cats a) →
  ((∃ k, non_root a k) ∧ ∃ v, threshold a T = Ok v) ∨
  ((¬ ∃ k, non_root a k) ∧ threshold a T = Raise ValueError).
Proof.
  intros HT HN Hroot. set (K := length (cats a)) in *.
  destruct (df_values_columns a T HT HN Hroot)
    as (C & sel & σ & Hdf & Hsel & Hlen & Hσ & Hsurj).
  fold K in Hlen.
  destruct (decide (0 < K)%nat) as [HK|HK].
  - assert (HσK : ∀ k, (k < C)%nat → (σ k < K)%nat) by (intros; by apply Hσ).
    destruct (colmax_of_columns T K C sel σ HT HK Hsel Hlen HσK)
      as (cm & Hcm & HcmL & _).
    rewrite (threshold_unfold a T _ _ Hdf Hcm).
    destruct cm as [|x xs]; simpl.
    + right. split; [|done]. intros [k Hk].
      destruct (Hsurj k Hk) as (? & ? & _). simpl in HcmL. lia.
    + left. split; [|eauto]. exists (σ 0%nat). apply Hσ. simpl in HcmL. lia.
  - right. destruct HT as [HL _].
    assert (T = []) as -> by (destruct T; [done | simpl in HL; lia]).
    split.
    + intros [k [Hk _]]. fold K in Hk. lia.
    + unfold threshold. rewrite Hdf. done.
Qed.

(** X16.  What [threshold] raises and when: a KeyError exactly when the
    matrix fits the categories but the root is none of them; a ValueError
    exactly when the matrix does not fit the categories, or the root is fine
    but no group other than the root exists; in every other case a value. *)
Theorem threshold_errors (a : adata) (T : matrix Q) :
  NoDup (cats a) →
  let K := length (cats a) in
  (threshold a T = Raise KeyError ↔
   square K T ∧ ∃ r, root_cells a = Some r ∧ r ∉ cats a) ∧
  (threshold a T = Raise ValueError ↔
   ¬ square K T ∨
   ((∀ r, root_cells a = Some r → r ∈ cats a) ∧ ¬ ∃ k, non_root a k)) ∧
  (square K T → (∀ r, root_cells a = Some r → r ∈ cats a) →
   (∃ k, non_root a k) → ∃ v, threshold a T = Ok v).
Proof.
  intros HN K.
  assert (Hcases :
    (¬ square K T ∧ threshold a T = Raise ValueError) ∨
    (square K T ∧ (∃ r, root_cells a = Some r ∧ r ∉ cats a) ∧
     threshold a T = Raise KeyError) ∨
    (square K T ∧ (∀ r, root_cells a = Some r → r ∈ cats a) ∧
     (((∃ k, non_root a k) ∧ ∃ v, threshold a T = Ok v) ∨
      ((¬ ∃ k, non_root a k) ∧ threshold a T = Raise ValueError)))).
  { destruct (square_b K T) eqn:E.
    - apply square_b_spec in E. right.
      destruct (root_cells a) as [r|] eqn:Er.
      + destruct (decide (r ∈ cats a)) as [Hin|Hnin].
        * right. split; [done |].
          assert (Hroot : ∀ r', root_cells a = Some r' → r' ∈ cats a)
            by (intros r' Hr'; congruence).
          split; [intros r' [= <-]; done |].
          by apply threshold_returns.
        * left. split; [done |]. split; [eauto |].
          by apply (threshold_unknown_root a T r).
      + right. split; [done |].
        assert (Hroot : ∀ r', root_cells a = Some r' → r' ∈ cats a)
          by (intros r' Hr'; congruence).
        split; [done |]. by apply threshold_returns.
    - left.
      assert (Hn : ¬ square K T).
      { intros H. apply square_b_spec in H. congruence. }
      split; [done |]. by apply threshold_not_square. }
  split; [|split].
  - split.
    + intros H. destruct Hcases as [[_ E]|[(HT & Hr & _)|(_ & _ & [[_ [v E]]|[_ E]])]];
        try congruence. done.
    + intros (HT & r & Hr & Hnin). by apply (threshold_unknown_root a T r).
  - split.
    + intros H.
      destruct Hcases as [[Hn _]|[(_ & _ & E)|(_ & Hroot & [[_ [v E]]|[Hno _]])]];
        try congruence; auto.
    + intros [Hn|[Hroot Hno]]; [by apply threshold_not_square |].
      destruct Hcases as [[_ E]|[(_ & (r & Hr & Hnin) & _)|(_ & _ & [[Hex _]|[_ E]])]];
        try done; exfalso;
        first [ by apply Hno | apply Hnin; by apply Hroot ].
  - intros HT Hroot Hex.
    destruct (threshold_returns a T HT HN Hroot) as [[_ ?]|[Hno _]]; [done |].
    exfalso. by apply Hno.
Qed.

Lemma threshold_errors_witness :
  NoDup (cats ex_groups) ∧
  ∃ v, threshold ex_groups ex_threshold = Ok v.
Proof.
  assert (HN : NoDup (cats ex_groups)).
  { apply (bool_decide_unpack (NoDup (cats ex_groups))). vm_compute. exact I. }
  split; [exact HN |].
  apply (proj2 (proj2 (threshold_errors ex_groups ex_threshold HN))).
  - split; [reflexivity | repeat constructor].
  - intros r [= <-]. simpl. apply list_elem_of_here.
  - exists 1%nat. split; [simpl; lia | discriminate].
Defined.

(** Two groups only in the categories, a matrix for three: [DataFrame]
    refuses it.  One group that is the root: nothing is left to reduce. *)
Example threshold_error_example :
  threshold ex_mixed ex_threshold = Raise ValueError ∧
  threshold {| velocity_graph := []; cats := ["A"%string]; codes := [0%nat];
               final_cells := None; root_cells := Some "A"%string;
               n_neighbors := 30 |} [ [0] ] = Raise ValueError.
Proof. split; reflexivity. Qed.

(** X17.  The column of the root group is not looked at: two matrices
    that differ only in that column have the same threshold. *)
Theorem threshold_ignores_root_column (a : adata) (T T' : matrix Q) r :
  let K := length (cats a) in
  square K T → square K T' → NoDup (cats a) → root_cells a = Some r →
  (∀ i k, cats a !! k ≠ Some r → get T i k = get T' i k) →
  threshold a T = threshold a T'.
Proof.
  intros K HT HT' HN Hr Hag. unfold threshold, df_values. fold K.
  rewrite (proj2 (square_b_spec K T) HT), (proj2 (square_b_spec K T') HT'), Hr.
  simpl. destruct (list_find _ (cats a)) as [[c l]|] eqn:Ef; [|done].
  apply list_find_Some in Ef as (Hc & -> & _).
  assert (E : map (delete c) T = map (delete c) T'); [|by rewrite E].
  change (delete c <$> T = delete c <$> T'). apply list_eq. intros i.
  rewrite !list_lookup_fmap.
  destruct (decide (i < K)%nat) as [Hi|Hi].
  - destruct (square_lookup K T i HT Hi) as (r1 & Hr1 & HL1).
    destruct (square_lookup K T' i HT' Hi) as (r2 & Hr2 & HL2).
    rewrite Hr1, Hr2. simpl. f_equal. apply list_eq. intros k.
    rewrite !list_lookup_delete.
    set (m := if decide (k < c)%nat then k else S k).
    assert (Hm : m ≠ c) by (unfold m; case_decide; lia).
    destruct (decide (m < K)%nat) as [HmK|HmK].
    + destruct (lookup_lt_is_Some_2 r1 m) as [x Hx]; [lia |].
      destruct (lookup_lt_is_Some_2 r2 m) as [y Hy]; [lia |].
      rewrite Hx, Hy. f_equal.
      assert (Hne : cats a !! m ≠ Some r).
      { intros E. apply Hm. by apply (NoDup_lookup (cats a) m c r). }
      specialize (Hag i m Hne). unfold get in Hag.
      rewrite Hr1, Hr2 in Hag. simpl in Hag. by rewrite Hx, Hy in Hag.
    + rewrite !(proj2 (lookup_ge_None _ _)) by lia. done.
  - destruct HT as [HL _]. destruct HT' as [HL' _].
    rewrite !(proj2 (lookup_ge_None _ _)) by lia. done.
Qed.

Lemma threshold_ignores_root_column_witness :
  square 3 ex_threshold ∧ square 3 ex_threshold_root ∧
  threshold ex_groups ex_threshold = threshold ex_groups ex_threshold_root.
Proof.
  assert (HT : square (length (cats ex_groups)) ex_threshold)
    by (split; [reflexivity | repeat constructor]).
  assert (HT' : square (length (cats ex_groups)) ex_threshold_root)
    by (split; [reflexivity | repeat constructor]).
  assert (HN : NoDup (cats ex_groups)).
  { apply (bool_decide_unpack (NoDup (cats ex_groups))). vm_compute. exact I. }
  split; [exact HT | split; [exact HT' |]].
  apply (threshold_ignores_root_column ex_groups _ _ "A"%string HT HT' HN eq_refl).
  intros [|[|[|i]]] [|[|[|k]]] Hk; try reflexivity; exfalso; by apply Hk.
Defined.

(** ** The velocity graph in [uns] *)

Lemma find_graph_cases (vkey : string) (n_obs : nat) (st : uns_state) :
  let key := graph_key vkey in
  (∃ G, uns st !! key = Some G ∧
        find_graph vkey n_obs st
        = (st, if square_b n_obs G then Ok G else Raise ValueError)) ∨
  (∃ G, uns st !! key = None ∧ uns st !! legacy_key = Some G ∧
        find_graph vkey n_obs st
        = ({| uns := <[key := G]> (uns st);
              warnings := warnings st ++ [legacy_warning] |},
           if square_b n_obs G then Ok G else Raise ValueError)) ∨
  (uns st !! key = None ∧ uns st !! legacy_key = None ∧
   find_graph vkey n_obs st = (st, Raise ValueError)).
Proof.
  intros key. unfold find_graph. fold key.
  destruct (uns st !! key) as [G|] eqn:Ek.
  - left. exists G. by rewrite Ek.
  - destruct (uns st !! legacy_key) as [G|] eqn:El.
    + right. left. exists G. simpl. by rewrite lookup_insert_eq.
    + right. right. done.
Qed.

Lemma find_graph_ok_square (vkey : string) (n_obs : nat) (st : uns_state) G :
  (find_graph vkey n_obs st).2 = Ok G → square n_obs G.
Proof.
  destruct (find_graph_cases vkey n_obs st)
    as [(G' & _ & ->)|[(G' & _ & _ & ->)|(_ & _ & ->)]]; simpl; [| |done].
  all: destruct (square_b n_obs G') eqn:E; [|done].
  all: intros [= <-]; by apply square_b_spec.
Qed.

(** X18.  The method finds a velocity graph exactly when one of the right
    shape is stored under [vkey + '_graph'] or, that key being absent, under
    the legacy key; a graph under the own key shadows the legacy one.
    Afterwards the graph is stored under the own key; and the only error is
    a ValueError. *)
Theorem find_graph_result (vkey : string) (n_obs : nat) (st : uns_state) :
  let key := graph_key vkey in
  let st' := (find_graph vkey n_obs st).1 in
  let r := (find_graph vkey n_obs st).2 in
  (∀ G, r = Ok G ↔
        (uns st !! key = Some G ∨
         (uns st !! key = None ∧ uns st !! legacy_key = Some G)) ∧
        square n_obs G) ∧
  (∀ G, r = Ok G → uns st' !! key = Some G) ∧
  (∀ e, r = Raise e → e = ValueError).
Proof.
  intros key st' r. unfold st', r, key. clear st' r key.
  destruct (find_graph_cases vkey n_obs st)
    as [(G & Hk & ->)|[(G & Hk & Hl & ->)|(Hk & Hl & ->)]]; simpl.
  - split; [|split].
    + intros G'. destruct (square_b n_obs G) eqn:E.
      * apply square_b_spec in E. split.
        -- intros [= <-]. auto.
        -- intros [[?|[? _]] _]; congruence.
      * split; [done |]. intros [[?|[? _]] HS]; [|congruence].
        assert (G' = G) as -> by congruence.
        apply square_b_spec in HS. congruence.
    + intros G'. destruct (square_b n_obs G); [|done]. by intros [= <-].
    + intros e. destruct (square_b n_obs G); [done |]. by intros [= <-].
  - split; [|split].
    + intros G'. destruct (square_b n_obs G) eqn:E.
      * apply square_b_spec in E. split.
        -- intros [= <-]. auto.
        -- intros [[?|[_ ?]] _]; congruence.
      * split; [done |]. intros [[?|[_ ?]] HS]; [congruence |].
        assert (G' = G) as -> by congruence.
        apply square_b_spec in HS. congruence.
    + intros G'. destruct (square_b n_obs G); [|done]. intros [= <-].
      apply lookup_insert_eq.
    + intros e. destruct (square_b n_obs G); [done |]. by intros [= <-].
  - split; [|split].
    + intros G'. split; [done |]. intros [[?|[_ ?]] _]; congruence.
    + done.
    + by intros e [= <-].
Qed.

(** X19.  What the lookup does to [uns]: with the own key present nothing
    changes and nothing is logged; otherwise, with the legacy key present,
    its graph is copied to the own key and one warning is logged, also when
    the shape check then raises; no other key is ever written or removed. *)
Theorem find_graph_effects (vkey : string) (n_obs : nat) (st : uns_state) :
  let key := graph_key vkey in
  let st' := (find_graph vkey n_obs st).1 in
  (is_Some (uns st !! key) → st' = st) ∧
  (∀ G, uns st !! key = None → uns st !! legacy_key = Some G →
        uns st' = <[key := G]> (uns st) ∧
        warnings st' = warnings st ++ [legacy_warning]) ∧
  (uns st !! key = None → uns st !! legacy_key = None → st' = st) ∧
  (∀ k, k ≠ key → uns st' !! k = uns st !! k).
Proof.
  intros key st'. unfold st', key. clear st' key.
  destruct (find_graph_cases vkey n_obs st)
    as [(G & Hk & ->)|[(G & Hk & Hl & ->)|(Hk & Hl & ->)]]; simpl.
  - split; [done |]. split; [intros; congruence |]. split; done.
  - split; [intros [? ?]; congruence |]. split.
    + intros G' _ HG'. assert (G' = G) as -> by congruence. done.
    + split; [intros; congruence |]. intros k Hne.
      by apply lookup_insert_ne.
  - split; [done |]. split; [intros; congruence |]. split; done.
Qed.

(** With the graph under the legacy key only the method copies it, warns
    and returns it; asked for 4 cells it raises, and has copied it all the
    same. *)
Example find_graph_example :
  find_graph "velocity" 3 ex_legacy
  = ({| uns := <["velocity_graph"%string := velocity_graph ex_groups]>
                 (uns ex_legacy);
        warnings := [legacy_warning] |},
     Ok (velocity_graph ex_groups)) ∧
  (find_graph "velocity" 4 ex_legacy).2 = Raise ValueError ∧
  uns (find_graph "velocity" 4 ex_legacy).1 !! "velocity_graph"%string
  = Some (velocity_graph ex_groups).
Proof. repeat split; reflexivity. Qed.

(** ** The stages together *)

Section Pipeline.

Variable sqrt64 : Z → Q.
Hypothesis sqrt64_pos : ∀ n, (0 < n)%Z → 0 < sqrt64 n.

Lemma pruned_confidence_square (a : adata) :
  well_shaped a → (1 ≤ n_neighbors a)%Z → no_overflow a →
  nonzero (vgraph a) ≠ [] →
  ∃ P, pruned_confidence sqrt64 a = Ok (Some P) ∧
       square (n_clusters (codes a)) P.
Proof.
  intros Hw Hn Ho Hne.
  destruct (pruned_confidence_closed sqrt64 sqrt64_pos a Hw Hn Ho Hne)
    as (T0 & _ & HS & _ & HP).
  exists (prune T0). split; [done | by apply prune_square].
Qed.

(** X20.  The clustering has as many clusters as the largest code says,
    the data frame as many rows as there are categories: when the two
    differ, as they do when the last category has no cell, the pruned matrix
    is computed and the threshold stage raises a ValueError. *)
Theorem threshold_needs_all_categories (a : adata) :
  well_shaped a → (1 ≤ n_neighbors a)%Z → no_overflow a →
  nonzero (vgraph a) ≠ [] →
  n_clusters (codes a) ≠ length (cats a) →
  ∃ P, pruned_confidence sqrt64 a = Ok (Some P) ∧
       threshold a P = Raise ValueError.
Proof.
  intros Hw Hn Ho Hne Hcats.
  destruct (pruned_confidence_square a Hw Hn Ho Hne) as (P & HP & [HL _]).
  exists P. split; [done |]. apply threshold_not_square.
  intros [HL' _]. congruence.
Qed.

(** X21.  The whole method on a store that holds a velocity graph: when
    the lookup of the graph succeeds for as many cells as there are codes,
    the graph leaves an edge in [vgraph], the neighbor count is at least 1
    and the totals stay within the range of int64, the categories are
    distinct and as many as the clusters, and the root, if there is one, is
    a category but not the only one, then the pruned matrix and the
    threshold are both computed, and [transitions_confidence] is square with
    one row for every category. *)
Theorem compute_transitions_succeeds (a : adata) (vkey : string)
    (st : uns_state) (G : matrix Q) :
  (find_graph vkey (length (codes a)) st).2 = Ok G →
  nonzero (vgraph (with_graph a G)) ≠ [] →
  (1 ≤ n_neighbors a)%Z → no_overflow a → NoDup (cats a) →
  n_clusters (codes a) = length (cats a) →
  (∀ r, root_cells a = Some r → r ∈ cats a) →
  (∃ k, non_root a k) →
  ∃ P v, pruned_confidence sqrt64 (with_graph a G) = Ok (Some P) ∧
         threshold a P = Ok v ∧
         square (length (cats a)) (transitions_confidence P).
Proof.
  intros HG Hne Hn Ho HN HK Hroot Hex.
  assert (Hw : well_shaped (with_graph a G)).
  { exact (find_graph_ok_square vkey (length (codes a)) st G HG). }
  destruct (pruned_confidence_square (with_graph a G) Hw Hn Ho Hne)
    as (P & HP & HS).
  simpl in HS. rewrite HK in HS.
  destruct (threshold_returns a P HS HN Hroot) as [[_ [v Hv]]|[Hno _]];
    [|exfalso; by apply Hno].
  exists P, v. split; [done |]. split; [done |].
  unfold transitions_confidence. apply square_transpose, HS.
Qed.

End Pipeline.

Lemma no_overflow_ex_groups : no_overflow ex_groups.
Proof. apply no_overflow_small; simpl; lia. Qed.

Lemma threshold_needs_all_categories_witness :
  (∀ n, (0 < n)%Z → 0 < isqrt n) ∧ well_shaped ex_unused_category ∧
  (1 ≤ n_neighbors ex_unused_category)%Z ∧ no_overflow ex_unused_category ∧
  nonzero (vgraph ex_unused_category) ≠ [] ∧
  n_clusters (codes ex_unused_category) ≠ length (cats ex_unused_category) ∧
  ∃ P, pruned_confidence isqrt ex_unused_category = Ok (Some P) ∧
       threshold ex_unused_category P = Raise ValueError.
Proof.
  assert (Hw : well_shaped ex_unused_category)
    by (split; [reflexivity | repeat constructor]).
  assert (Hn : (1 ≤ n_neighbors ex_unused_category)%Z) by (simpl; lia).
  assert (Ho : no_overflow ex_unused_category) by exact no_overflow_ex_mixed.
  assert (Hne : nonzero (vgraph ex_unused_category) ≠ [])
    by (vm_compute; discriminate).
  assert (Hcats : n_clusters (codes ex_unused_category)
                  ≠ length (cats ex_unused_category)) by (simpl; lia).
  split; [exact isqrt_pos | split; [exact Hw | split; [exact Hn |]]].
  split; [exact Ho |]. split; [exact Hne |]. split; [exact Hcats |].
  exact (threshold_needs_all_categories isqrt isqrt_pos ex_unused_category
           Hw Hn Ho Hne Hcats).
Defined.

Lemma compute_transitions_succeeds_witness :
  (∀ n, (0 < n)%Z → 0 < isqrt n) ∧
  (find_graph "velocity" (length (codes ex_groups)) ex_legacy).2
  = Ok (velocity_graph ex_groups) ∧
  ∃ P v, pruned_confidence isqrt (with_graph ex_groups (velocity_graph ex_groups))
         = Ok (Some P) ∧
         threshold ex_groups P = Ok v ∧
         square (length (cats ex_groups)) (transitions_confidence P).
Proof.
  assert (HG : (find_graph "velocity" (length (codes ex_groups)) ex_legacy).2
               = Ok (velocity_graph ex_groups)) by reflexivity.
  assert (HN : NoDup (cats ex_groups)).
  { apply (bool_decide_unpack (NoDup (cats ex_groups))). vm_compute. exact I. }
  split; [exact isqrt_pos | split; [exact HG |]].
  apply (compute_transitions_succeeds isqrt isqrt_pos ex_groups
           "velocity" ex_legacy _ HG).
  - vm_compute. discriminate.
  - simpl. lia.
  - exact no_overflow_ex_groups.
  - exact HN.
  - reflexivity.
  - intros r [= <-]. simpl. apply list_elem_of_here.
  - exists 1%nat. split; [simpl; lia | discriminate].
Defined.

(** On [ex_groups], with the graph found under the legacy key: the chain
    A -> B -> C with the root A gives the confidences 1/60 and the
    threshold 1/60 - 1e-6. *)
Example compute_transitions_example :
  pruned_confidence isqrt ex_groups
  = Ok (Some [ [0; 1 # 60; 0]; [0; 0; 1 # 60]; [0; 0; 0] ]) ∧
  threshold ex_groups [ [0; 1 # 60; 0]; [0; 0; 1 # 60]; [0; 0; 0] ]
  = Ok (Fin ((1 # 60) - eps)).
Proof. split; reflexivity. Qed.

(** Without an entry above the cutoff the method stops at line 100. *)
Example compute_transitions_no_edge :
  pruned_confidence isqrt (with_graph ex_groups no_edges) = Raise KeyError.
Proof. reflexivity. Qed.

